(** * Web-Chat: the WebSocket engine of std@0.75.0/ws/mod.ts

    A shallow embedding of the frame codec ([unmask], [writeFrame],
    [readFrame]), of the connection object [WebSocketImpl] (send queue,
    [close], [ensureSocketClosed], the inbound loop) and of the handshake
    ([acceptable], [createSecAccept], [acceptWebSocket], [handshake]),
    followed by the properties checked against the specification.

    Conventions.  A JavaScript number that holds an integer is a [Z]; a
    [Uint8Array] is a [list Z] whose elements are stored modulo 256; an
    [undefined] operand of a bit operator counts as 0, as [ToInt32] makes
    it.  Promises are run to completion in program order: a write either
    succeeds or throws before the next statement runs, and a promise that
    nothing settles shows up as [Pending]. *)

From Stdlib Require Import ZArith Lia Ascii String.
From stdpp Require Import gmap strings list fin_maps sorting.

Local Open Scope Z_scope.

(** ** Bytes and typed arrays *)

(** Storing a number into a [Uint8Array] keeps its low 8 bits. *)
Definition byte_wrap (z : Z) : Z := z mod 256.

(** [new Uint8Array([x0, x1, ...])]. *)
Definition Uint8Array_of (l : list Z) : list Z := map byte_wrap l.

Definition is_byte (z : Z) : Prop := 0 <= z < 256.

Definition bytes (l : list Z) : Prop := Forall is_byte l.

(** [a[i]] where [undefined] is read as 0 by the bit operators. *)
Definition at_or_0 (a : list Z) (i : nat) : Z := default 0 (a !! i).

(** ** Errors *)

Inductive Error : Type :=
| InvalidMask (len : nat)    (* Error("invalid mask. mask must be 4 bytes: length=" + len) *)
| InvalidSignature           (* Error("invalid signature") *)
| AssertionFailed            (* DenoStdInternalError, thrown by assert *)
| PartialReadError           (* thrown by BufReader.readFull *)
| UnexpectedEof              (* Deno.errors.UnexpectedEof *)
| RangeError                 (* TypedArray.prototype.set out of bounds *)
| ConnectionReset            (* Deno.errors.ConnectionReset("Socket has already been closed") *)
| WriterFailed               (* whatever the underlying Deno.Writer throws *)
| NotAcceptable              (* Error("request is not acceptable") *)
| KeyNotProvided             (* Error("sec-websocket-key is not provided") *)
| InvalidStatusLine          (* Error("ws: invalid status line: ...") *)
| HandshakeRejected          (* Error("ws: server didn't accept handshake: ...") *)
| UnexpectedSecAccept.       (* Error("ws: unexpected sec-websocket-accept header: ...") *)

#[global] Instance Error_eq_dec : EqDecision Error.
Proof. solve_decision. Defined.

(** A computation that returns or throws. *)
Inductive Res (A : Type) : Type :=
| Ret (a : A)
| Throw (e : Error).
Arguments Ret {A} a.
Arguments Throw {A} e.

(** ** Frames *)

Module OpCode.
Definition Continue : Z := 0x0.
Definition TextFrame : Z := 0x1.
Definition BinaryFrame : Z := 0x2.
Definition Close : Z := 0x8.
Definition Ping : Z := 0x9.
Definition Pong : Z := 0xa.
End OpCode.

Record WebSocketFrame : Type := mkFrame {
  isLastFrame : bool;
  opcode : Z;
  mask : option (list Z);
  payload : list Z
}.

(** [unmask(payload, mask)]: [payload[i] ^= mask[i & 3]] for every index.
    The source updates [payload] in place; the function returns the new
    contents. *)
Definition unmask (payload : list Z) (mask : option (list Z)) : list Z :=
  match mask with
  | Some m =>
      imap (fun i b =>
              byte_wrap (Z.lxor b (at_or_0 m (Z.to_nat (Z.land (Z.of_nat i) 3)))))
           payload
  | None => payload
  end.

(** ** io/ioutil.ts *)

(** Modelled from the spec: [sliceLongToBytes] of io/ioutil.ts is not among
    the sources.  The spec has the length follow the indicator 127 "as 8
    bytes, big-endian"; byte [k] (from the left) is bits [8*(7-k)] and up of
    the number. *)
Definition sliceLongToBytes (d : Z) : list Z :=
  map (fun k : Z => Z.land (Z.shiftr d (8 * (7 - k))) 255) [0; 1; 2; 3; 4; 5; 6; 7].

(** Big-endian value of a byte sequence. *)
Definition be_value (bs : list Z) : Z :=
  fold_left (fun acc b => Z.lor (Z.shiftl acc 8) b) bs 0.

(** What a buffered read hands back: a value, [null] (end of stream before
    the first byte), or an exception. *)
Inductive Read (A : Type) : Type :=
| Got (a : A) (rest : list Z)
| Null
| Thrown (e : Error).
Arguments Got {A} a rest.
Arguments Null {A}.
Arguments Thrown {A} e.

(** ** io/bufio.ts: BufReader over a finite byte stream

    The reader is the list of bytes that the peer has sent and that have not
    been consumed yet; the stream ends (EOF) after them. *)

(** [readByte()]: the next byte, or [null] at the end of the stream. *)
Definition readByte (buf : list Z) : Read Z :=
  match buf with
  | b :: rest => Got b rest
  | [] => Null
  end.

(** [readFull(p)] with [p.length = n]: [p] itself when [n] is 0, [null] when
    the stream has ended before the first byte, [PartialReadError] when it
    ends before the [n]th. *)
Definition readFull (n : nat) (buf : list Z) : Read (list Z) :=
  if decide (n = 0%nat) then Got [] buf
  else if decide (buf = []) then Null
  else if decide (length buf < n)%nat then Thrown PartialReadError
  else Got (take n buf) (drop n buf).

(** Modelled from the spec: [readShort] and [readLong] of io/ioutil.ts are
    not among the sources.  The spec has decode read "2 or 8 further bytes"
    holding the length big-endian, and the reader signal the end of the
    stream apart from a partial read. *)
Definition readBigEndian (n : nat) (buf : list Z) : Read Z :=
  if decide (buf = []) then Null
  else if decide (length buf < n)%nat then Thrown UnexpectedEof
  else Got (be_value (take n buf)) (drop n buf).

(** Modelled from the spec: [readShort], absent like the rest of
    io/ioutil.ts, reads the 2 bytes that follow the indicator 126. *)
Definition readShort (buf : list Z) : Read Z := readBigEndian 2 buf.

(** Modelled from the spec: [readLong], absent too, reads the 8 bytes that
    follow the indicator 127. *)
Definition readLong (buf : list Z) : Read Z := readBigEndian 8 buf.

(** ** writeFrame *)

(** The bytes [writeFrame] hands to the writer: the final value of its
    local [header], or the exception of the mask check. *)
Definition writeFrame_header (frame : WebSocketFrame) : Res (list Z) :=
  let payloadLength := Z.of_nat (length (payload frame)) in
  let hasMask := match mask frame with Some _ => 0x80 | None => 0 end in
  let bad_mask :=
    match mask frame with Some m => bool_decide (length m ≠ 4%nat) | None => false end in
  if bad_mask then Throw (InvalidMask (length (default [] (mask frame)))) else
  let header :=
    if decide (payloadLength < 126) then
      Uint8Array_of [Z.lor 0x80 (opcode frame); Z.lor hasMask payloadLength]
    else if decide (payloadLength < 0xffff) then
      Uint8Array_of [Z.lor 0x80 (opcode frame); Z.lor hasMask 126;
                     Z.shiftr payloadLength 8; Z.land payloadLength 0x00ff]
    else
      Uint8Array_of ([Z.lor 0x80 (opcode frame); Z.lor hasMask 127]
                       ++ sliceLongToBytes payloadLength) in
  let header := match mask frame with Some m => header ++ m | None => header end in
  Ret (header ++ unmask (payload frame) (mask frame)).

(** ** io/bufio.ts: BufWriter

    [out] collects the bytes that have reached the transport.  [broken]
    says that the transport throws on a write; BufWriter keeps such an
    exception in [err] and throws it again on every later call, so the flag
    never goes back.  The transport of this model is of one kind for all
    its life: it takes every frame whole, or it throws at every call before
    it has taken a byte.  One that breaks later, or in the middle of a
    frame, is that of module [Bufio] below, with the fields and the loops
    of the source. *)
Record BufWriter : Type := mkWriter {
  out : list Z;
  broken : bool
}.

(** [await w.write(data); await w.flush()] on a writer whose buffer is
    empty, as it is after every flush. *)
Definition write_flush (data : list Z) (w : BufWriter) : Res unit * BufWriter :=
  if broken w then (Throw WriterFailed, w)
  else (Ret tt, mkWriter (out w ++ data) false).

(** [writeFrame(frame, writer)]. *)
Definition writeFrame (frame : WebSocketFrame) (w : BufWriter) : Res unit * BufWriter :=
  match writeFrame_header frame with
  | Throw e => (Throw e, w)
  | Ret header => write_flush header w
  end.

(** ** readFrame *)

(** [x = await read; assert(x !== null)]. *)
Notation "'read!' x , r ← e1 ; e2" :=
  (match e1 with
   | Got x r => e2
   | Null => Throw AssertionFailed
   | Thrown err => Throw err
   end)
  (at level 20, x name, r name, e1 at level 100, e2 at level 200, only parsing).

(** [readFrame(buf)]: the frame and the bytes left in the reader.  The
    payload is returned as it is on the wire; the caller unmasks it. *)
Definition readFrame (buf : list Z) : Res (WebSocketFrame * list Z) :=
  read! b, buf ← readByte buf;
  match
    (if decide (Z.shiftr b 4 = 8) then Ret true
     else if decide (Z.shiftr b 4 = 0) then Ret false
     else Throw InvalidSignature)
  with
  | Throw e => Throw e
  | Ret isLastFrame =>
      let opcode := Z.land b 0x0f in
      read! b, buf ← readByte buf;
      let hasMask := Z.shiftr b 7 in
      let payloadLength := Z.land b 127 in
      read! payloadLength, buf ←
        (if decide (payloadLength = 126) then readShort buf
         else if decide (payloadLength = 127) then readLong buf
         else Got payloadLength buf);
      read! mask, buf ←
        (if decide (hasMask ≠ 0) then
           match readFull 4 buf with
           | Got m r => Got (Some m) r
           | Null => Null
           | Thrown e => Thrown e
           end
         else Got None buf);
      read! payload, buf ← readFull (Z.to_nat payloadLength) buf;
      Ret (mkFrame isLastFrame opcode mask payload, buf)
  end.

(** A frame as the loop holds it after [unmask(frame.payload, frame.mask)]. *)
Definition unmasked (fr : WebSocketFrame) : WebSocketFrame :=
  mkFrame (isLastFrame fr) (opcode fr) (mask fr) (unmask (payload fr) (mask fr)).

(** What the inbound loop does with every frame it reads: [readFrame], then
    [unmask(frame.payload, frame.mask)].  This is the decoder of the
    specification, whose decode unmasks the payload. *)
Definition decode_frame (buf : list Z) : Res (WebSocketFrame * list Z) :=
  match readFrame buf with
  | Ret (frame, rest) => Ret (unmasked frame, rest)
  | Throw e => Throw e
  end.

(** A frame as its type has it: typed arrays hold bytes and the opcode fits
    the 4 bits the header has for it. *)
Definition frame_ok (f : WebSocketFrame) : Prop :=
  0 <= opcode f < 16
  /\ bytes (payload f)
  /\ (forall m, mask f = Some m -> bytes m /\ length m = 4%nat).

(** The three forms of the length, as [writeFrame] chooses between them. *)
Definition length_field (n : Z) : Z * list Z :=
  if decide (n < 126) then (n, [])
  else if decide (n < 0xffff) then (126, [n / 256; n mod 256])
  else (127, sliceLongToBytes n).

(** ** Events of the inbound loop *)

(** [WebSocketEvent]: a text message, a binary message, a close event
    [{code, reason}], [["ping", payload]] or [["pong", payload]]. *)
Inductive WebSocketEvent : Type :=
| EvString (text : string)
| EvBytes (data : list Z)
| EvClose (code : Z) (reason : string)
| EvPing (body : list Z)
| EvPong (body : list Z).

(** [isWebSocketCloseEvent(a)]: [a] has a property [code]. *)
Definition isWebSocketCloseEvent (a : WebSocketEvent) : bool :=
  match a with EvClose _ _ => true | _ => false end.

(** [a.code]: the status code an event carries, if it carries one. *)
Definition event_code (a : WebSocketEvent) : option Z :=
  match a with EvClose code _ => Some code | _ => None end.

(** [WebSocketMessage = string | Uint8Array]. *)
Inductive WebSocketMessage : Type :=
| MsgString (text : string)
| MsgBytes (data : list Z).

(** ** The connection object *)

(** An entry [{d, frame}] of the send queue; [d] is the index of the
    deferred in [deferreds]. *)
Record Entry : Type := mkEntry {
  d : nat;
  frame : WebSocketFrame
}.

(** [WebSocketImpl].  [conn_closed] records that [conn.close()] has run.
    [deferreds] holds every promise made by
    [deferred()], in creation order: [None] while pending, then the value
    it was resolved or rejected with. *)
Record WebSocketImpl : Type := mkSock {
  conn_closed : bool;
  sock_mask : option (list Z);
  bufReader : list Z;
  bufWriter : BufWriter;
  sendQueue : list Entry;
  _isClosed : bool;
  deferreds : list (option (Res unit))
}.

(** What an [await] of a promise comes to: its value, its exception, or no
    answer because nothing in the run settles it. *)
Inductive Awaited (A : Type) : Type :=
| Done (a : A)
| Failed (e : Error)
| Pending.
Arguments Done {A} a.
Arguments Failed {A} e.
Arguments Pending {A}.

(** [d.resolve()] / [d.reject(e)]: only the first settlement counts. *)
Definition settle (i : nat) (r : Res unit) (ds : list (option (Res unit)))
  : list (option (Res unit)) :=
  match ds !! i with
  | Some None => <[i := Some r]> ds
  | _ => ds
  end.

(** [await d]. *)
Definition await (i : nat) (ws : WebSocketImpl) : Awaited unit :=
  match deferreds ws !! i with
  | Some (Some (Ret _)) => Done tt
  | Some (Some (Throw e)) => Failed e
  | _ => Pending
  end.

(** [ensureSocketClosed()]. *)
Definition ensureSocketClosed (ws : WebSocketImpl) : WebSocketImpl :=
  if _isClosed ws then ws
  else
    let rest := sendQueue ws in
    mkSock true (sock_mask ws) (bufReader ws) (bufWriter ws) [] true
           (foldl (fun ds e => settle (d e) (Throw ConnectionReset) ds)
                  (deferreds ws) rest).

(** [dequeue()]: write the head entry, settle its promise, shift the queue,
    and go on with the next entry.  [n] bounds the number of entries
    handled; [dequeue] below passes the length of the queue. *)
Fixpoint dequeue_loop (n : nat) (ws : WebSocketImpl) : WebSocketImpl :=
  match n with
  | O => ws
  | S n =>
      match sendQueue ws with
      | [] => ws
      | entry :: _ =>
          if _isClosed ws then ws
          else
            let '(r, w) := writeFrame (frame entry) (bufWriter ws) in
            dequeue_loop n
              (mkSock (conn_closed ws) (sock_mask ws) (bufReader ws) w
                      (tail (sendQueue ws)) (_isClosed ws)
                      (settle (d entry) r (deferreds ws)))
      end
  end.

Definition dequeue (ws : WebSocketImpl) : WebSocketImpl :=
  dequeue_loop (length (sendQueue ws)) ws.

(** [enqueue(frame)]: throws on a closed socket, else returns the deferred. *)
Definition enqueue (fr : WebSocketFrame) (ws : WebSocketImpl) : Res nat * WebSocketImpl :=
  if _isClosed ws then (Throw ConnectionReset, ws)
  else
    let i := length (deferreds ws) in
    let ws1 := mkSock (conn_closed ws) (sock_mask ws) (bufReader ws) (bufWriter ws)
                      (sendQueue ws ++ [mkEntry i fr]) (_isClosed ws)
                      (deferreds ws ++ [None]) in
    (Ret i, if decide (length (sendQueue ws1) = 1%nat) then dequeue ws1 else ws1).

(** [await this.enqueue(frame)]: while the caller waits, the write in
    flight ends and the [finally] chain of [dequeue] goes down the queue to
    this frame, the last one in it; then the promise is read. *)
Definition await_enqueue (fr : WebSocketFrame) (ws : WebSocketImpl)
  : Awaited unit * WebSocketImpl :=
  match enqueue fr ws with
  | (Throw e, ws1) => (Failed e, ws1)
  | (Ret i, ws1) => let ws2 := dequeue ws1 in (await i ws2, ws2)
  end.

(** The socket after its reader has handed out a frame. *)
Definition set_bufReader (ws : WebSocketImpl) (rest : list Z) : WebSocketImpl :=
  mkSock (conn_closed ws) (sock_mask ws) rest (bufWriter ws)
         (sendQueue ws) (_isClosed ws) (deferreds ws).

(** The opcodes of the first arm of the [switch] of the inbound loop. *)
Definition data_opcode (fr : WebSocketFrame) : Prop :=
  opcode fr = OpCode.TextFrame \/ opcode fr = OpCode.BinaryFrame
  \/ opcode fr = OpCode.Continue.

(** The payloads of a list of frames, one after the other. *)
Definition joined (frs : list WebSocketFrame) : list Z :=
  concat (map payload frs).

(** [readFrame] called again and again on [buf] returns the frames [frs]
    and leaves [rest]. *)
Inductive reads : list Z -> list WebSocketFrame -> list Z -> Prop :=
| reads_nil buf : reads buf [] buf
| reads_cons buf fr buf' frs rest :
    readFrame buf = Ret (fr, buf') -> reads buf' frs rest -> reads buf (fr :: frs) rest.

Section Engine.

(** [encode] and [decode] of encoding/utf8.ts (TextEncoder and TextDecoder)
    are not among the sources; the engine is parametric in them. *)
Variable encode : string -> list Z.
Variable decode : list Z -> string.

(** [Sha1] of hash/sha1.ts is not among the sources either: [sha1_digest s]
    stands for [new Sha1().update(s).digest()], the 20 bytes of the digest.
    [btoa] is the base64 encoder of the platform. *)
Variable sha1_digest : string -> list Z.
Variable btoa : string -> string.

(** [send(data)]. *)
Definition send (data : WebSocketMessage) (ws : WebSocketImpl) : Res nat * WebSocketImpl :=
  let opcode := match data with MsgString _ => OpCode.TextFrame | MsgBytes _ => OpCode.BinaryFrame end in
  let payload := match data with MsgString s => encode s | MsgBytes b => b end in
  enqueue (mkFrame true opcode (sock_mask ws) payload) ws.

(** [ping(data)]. *)
Definition ping (data : WebSocketMessage) (ws : WebSocketImpl) : Res nat * WebSocketImpl :=
  let payload := match data with MsgString s => encode s | MsgBytes b => b end in
  enqueue (mkFrame true OpCode.Ping (sock_mask ws) payload) ws.

(** The payload [close] builds: two bytes of [code], then the encoded reason
    when [reason] is truthy (given and not empty). *)
Definition close_payload (code : Z) (reason : option string) : list Z :=
  let header := [Z.shiftr (code mod 2 ^ 32) 8; Z.land code 0x00ff] in
  match reason with
  | Some (String c s) => Uint8Array_of header ++ encode (String c s)
  | _ => Uint8Array_of header
  end.

(** [close(code, reason)]: the [finally] block runs once the awaited send
    has settled or [enqueue] has thrown, and the exception is thrown again. *)
Definition close (code : Z) (reason : option string) (ws : WebSocketImpl)
  : Awaited unit * WebSocketImpl :=
  match await_enqueue (mkFrame true OpCode.Close (sock_mask ws) (close_payload code reason)) ws with
  | (Pending, ws1) => (Pending, ws1)
  | (r, ws1) => (r, ensureSocketClosed ws1)
  end.

(** [closeForce()]. *)
Definition closeForce (ws : WebSocketImpl) : WebSocketImpl := ensureSocketClosed ws.

(** *** The inbound loop, [[Symbol.asyncIterator]] *)

(** [new Uint8Array(n)]: [n] zeros; a negative length is a [RangeError]. *)
Definition Uint8Array_new (n : Z) : Res (list Z) :=
  if decide (n < 0) then Throw RangeError else Ret (replicate (Z.to_nat n) 0).

(** [target.set(source, offs)]: a [RangeError] when [source] does not fit. *)
Definition Uint8Array_set (target source : list Z) (offs : nat) : Res (list Z) :=
  if decide (offs + length source ≤ length target)%nat
  then Ret (list_inserts offs source target)
  else Throw RangeError.

(** [for (const frame of frames) { concat.set(frame.payload, offs); offs += frame.payload.length }]. *)
Fixpoint concat_frames (frames : list WebSocketFrame) (concat : list Z) (offs : nat)
  : Res (list Z) :=
  match frames with
  | [] => Ret concat
  | fr :: frames =>
      match Uint8Array_set concat (payload fr) offs with
      | Ret concat => concat_frames frames concat (offs + length (payload fr))
      | Throw e => Throw e
      end
  end.

(** [yield decode(concat)] when [frames[0].opcode] is [OpCode.TextFrame],
    else [yield concat]. *)
Definition message_event (first : Z) (concat : list Z) : WebSocketEvent :=
  if decide (first = OpCode.TextFrame) then EvString (decode concat) else EvBytes concat.

(** The generator between two turns of its [while] loop: the socket and the
    locals [frames] and [payloadsLength]. *)
Record Inbound : Type := mkInbound {
  sock : WebSocketImpl;
  frames : list WebSocketFrame;
  payloadsLength : Z
}.

(** How one turn of the loop ends. *)
Inductive Step : Type :=
| Continue              (* back to the loop test *)
| Finished              (* [break], [return], or the loop test failed *)
| Raised (e : Error)    (* the generator throws *)
| Blocked.              (* the generator awaits a promise nobody settles *)

(** One turn of the [while] body: the events yielded, how the turn ends, and
    the state after it. *)
Definition iteration (g : Inbound) : list WebSocketEvent * Step * Inbound :=
  let ws := sock g in
  match readFrame (bufReader ws) with
  | Throw _ => ([], Finished, mkInbound (ensureSocketClosed ws) (frames g) (payloadsLength g))
  | Ret (fr, rest) =>
      let ws := set_bufReader ws rest in
      let fr := unmasked fr in
      if decide (opcode fr = OpCode.TextFrame ∨ opcode fr = OpCode.BinaryFrame
                 ∨ opcode fr = OpCode.Continue) then
        let frames := frames g ++ [fr] in
        let payloadsLength := payloadsLength g + Z.of_nat (length (payload fr)) in
        if isLastFrame fr then
          match
            match Uint8Array_new payloadsLength with
            | Ret concat => concat_frames frames concat 0
            | Throw e => Throw e
            end
          with
          | Throw e => ([], Raised e, mkInbound ws frames payloadsLength)
          | Ret concat =>
              let first := default 0 (opcode <$> head frames) in
              ([message_event first concat], Continue, mkInbound ws [] 0)
          end
        else ([], Continue, mkInbound ws frames payloadsLength)
      else if decide (opcode fr = OpCode.Close) then
        let code := Z.lor (Z.shiftl (at_or_0 (payload fr) 0) 8) (at_or_0 (payload fr) 1) in
        let reason := decode (drop 2 (payload fr)) in
        match close code (Some reason) ws with
        | (Done _, ws) =>
            ([EvClose code reason], Finished, mkInbound ws (frames g) (payloadsLength g))
        | (Failed e, ws) => ([], Raised e, mkInbound ws (frames g) (payloadsLength g))
        | (Pending, ws) => ([], Blocked, mkInbound ws (frames g) (payloadsLength g))
        end
      else if decide (opcode fr = OpCode.Ping) then
        match await_enqueue (mkFrame true OpCode.Pong None (payload fr)) ws with
        | (Done _, ws) =>
            ([EvPing (payload fr)], Continue, mkInbound ws (frames g) (payloadsLength g))
        | (Failed e, ws) => ([], Raised e, mkInbound ws (frames g) (payloadsLength g))
        | (Pending, ws) => ([], Blocked, mkInbound ws (frames g) (payloadsLength g))
        end
      else if decide (opcode fr = OpCode.Pong) then
        ([EvPong (payload fr)], Continue, mkInbound ws (frames g) (payloadsLength g))
      else ([], Continue, mkInbound ws (frames g) (payloadsLength g))
  end.

(** At most [n] turns of [while (!this._isClosed) { ... }], the consumer
    pulling every event.  The result is [Continue] when the loop is still
    running after [n] turns. *)
Fixpoint iterate (n : nat) (g : Inbound) : list WebSocketEvent * Step * Inbound :=
  match n with
  | O => ([], Continue, g)
  | S n =>
      if _isClosed (sock g) then ([], Finished, g)
      else
        match iteration g with
        | (evs, Continue, g1) =>
            let '(evs', st, g2) := iterate n g1 in (evs ++ evs', st, g2)
        | r => r
        end
  end.

(** The whole loop from the state a new iterator starts in.  No turn leaves
    the reader longer and a turn that goes on has consumed at least two
    bytes, so [length (bufReader ws)] turns and one more are enough. *)
Definition asyncIterator (ws : WebSocketImpl) : list WebSocketEvent * Step * Inbound :=
  iterate (S (length (bufReader ws))) (mkInbound ws [] 0).

(** *** The handshake *)

(** [String.prototype.toLowerCase] on a string of 8-bit characters, as the
    values of a [Headers] object are: A-Z and the capital letters of
    Latin-1 (0xC0-0xDE but 0xD7) move up by 32. *)
Definition lower_char (c : ascii) : ascii :=
  let n := N_of_ascii c in
  if ((65 <=? n) && (n <=? 90) || (192 <=? n) && (n <=? 222) && negb (n =? 215))%N
  then ascii_of_N (n + 32) else c.

Fixpoint toLowerCase (s : string) : string :=
  match s with
  | EmptyString => EmptyString
  | String c s => String (lower_char c) (toLowerCase s)
  end.

(** [String.fromCharCode(...bytes)] on 8-bit characters. *)
Fixpoint fromCharCode (bs : list Z) : string :=
  match bs with
  | [] => EmptyString
  | b :: bs => String (ascii_of_N (Z.to_N (b mod 2 ^ 16))) (fromCharCode bs)
  end.

(** A [ServerRequest] as far as [acceptWebSocket] looks at it.  [headers]
    maps the lower-case name of every header present to its value, which is
    how [Headers.get] and [Headers.has] look names up. *)
Record ServerRequest : Type := mkRequest {
  headers : gmap string string;
  r_bufReader : list Z;
  r_bufWriter : BufWriter
}.

(** [acceptable(req)]. *)
Definition acceptable (req : ServerRequest) : bool :=
  match headers req !! "upgrade" with
  | None => false
  | Some upgrade =>
      if bool_decide (upgrade = "") || negb (bool_decide (toLowerCase upgrade = "websocket"))
      then false
      else
        match headers req !! "sec-websocket-key" with
        | Some secKey => bool_decide (0 < String.length secKey)%nat
        | None => false
        end
  end.

Definition kGUID : string := "258EAFA5-E914-47DA-95CA-C5AB0DC85B11".

(** [createSecAccept(nonce)]. *)
Definition createSecAccept (nonce : string) : string :=
  btoa (fromCharCode (sha1_digest (nonce +:+ kGUID))).

Definition CRLF : string := String (ascii_of_N 13) (String (ascii_of_N 10) EmptyString).

(** [for (const [key, value] of headers) out += `${key}: ${value}\r\n`]. *)
Definition header_lines (hs : list (string * string)) : string :=
  foldl (fun out kv => out +:+ kv.1 +:+ ": " +:+ kv.2 +:+ CRLF) "" hs.

(** [writeResponse(w, {status: 101, headers})] of http/_io.ts for a response
    without body and trailers: the status line, the [content-length: 0] line
    that an absent body gets, the header lines in the order the [Headers]
    object iterates (by name), the empty line, then a flush.  The status
    text of 101 is the one of the table [STATUS_TEXT] of http_status.ts. *)
Definition writeResponse_101 (w : BufWriter) (hs : list (string * string))
  : Res unit * BufWriter :=
  let out := "HTTP/1.1 101 Switching Protocols" +:+ CRLF
             +:+ "content-length: 0" +:+ CRLF
             +:+ header_lines hs +:+ CRLF in
  write_flush (encode out) w.

(** [acceptWebSocket(req)]: the socket, or the exception, and the writer of
    the request afterwards. *)
Definition acceptWebSocket (req : ServerRequest) : Res WebSocketImpl * BufWriter :=
  if acceptable req then
    match headers req !! "sec-websocket-key" with
    | None => (Throw KeyNotProvided, r_bufWriter req)
    | Some secKey =>
        let secAccept := createSecAccept secKey in
        match writeResponse_101 (r_bufWriter req)
                [("connection", "Upgrade"); ("sec-websocket-accept", secAccept);
                 ("upgrade", "websocket")] with
        | (Throw e, w) => (Throw e, w)
        | (Ret _, w) => (Ret (mkSock false None (r_bufReader req) w [] false []), w)
        end
    end
  else (Throw NotAcceptable, r_bufWriter req).

Definition kSecChars : string :=
  "abcdefghijklmnopqrstuvwxyzABCDEFGHIJKLMNOPQRSTUVWXYZ-.~_".

(** [createSecKey()]: [js] are the sixteen indices drawn with
    [Math.floor(Math.random() * kSecChars.length)]. *)
Definition createSecKey (js : list nat) : string :=
  btoa (foldl (fun key j =>
                 key +:+ match String.get j kSecChars with
                         | Some c => String c EmptyString
                         | None => EmptyString
                         end)
              "" (take 16 js)).

(** [\s] on 8-bit characters. *)
Definition is_space (c : ascii) : bool :=
  let n := N_of_ascii c in
  ((9 <=? n) && (n <=? 13) || (n =? 32) || (n =? 160))%N.

(** The longest prefix of non-space characters, and what follows it. *)
Fixpoint span_nonspace (s : string) : string * string :=
  match s with
  | EmptyString => (EmptyString, EmptyString)
  | String c t =>
      if is_space c then (EmptyString, s)
      else let '(a, b) := span_nonspace t in (String c a, b)
  end.

(** [statusLine.match(/^(?<version>\S+) (?<statusCode>\S+) /)]: the groups
    [version] and [statusCode] when the line matches. *)
Definition match_status_line (statusLine : string) : option (string * string) :=
  match span_nonspace statusLine with
  | (String c v, String " " rest) =>
      match span_nonspace rest with
      | (String c' st, String " " _) => Some (String c v, String c' st)
      | _ => None
      end
  | _ => None
  end.

(** [handshake(url, headers, bufReader, bufWriter)] after the request has
    been written with the key [key]: [statusLine] and [responseHeaders] are
    what [tpReader.readLine()] and [tpReader.readMIMEHeader()] return
    ([None] for [null]); TextProtoReader is not among the sources. *)
Definition handshake_response (key : string) (statusLine : option string)
    (responseHeaders : option (gmap string string)) : Res unit :=
  match statusLine with
  | None => Throw UnexpectedEof
  | Some statusLine =>
      match match_status_line statusLine with
      | None => Throw InvalidStatusLine
      | Some (version, statusCode) =>
          if negb (bool_decide (version = "HTTP/1.1")) || negb (bool_decide (statusCode = "101"))
          then Throw HandshakeRejected
          else
            match responseHeaders with
            | None => Throw UnexpectedEof
            | Some responseHeaders =>
                let expectedSecAccept := createSecAccept key in
                let secAccept := responseHeaders !! "sec-websocket-accept" in
                if bool_decide (secAccept ≠ Some expectedSecAccept)
                then Throw UnexpectedSecAccept
                else Ret tt
            end
      end
  end.

(** The parts of a [URL] that [handshake] uses. *)
Record URL : Type := mkURL {
  hostname : string;
  pathname : string;
  search : string
}.

(** The entries of a [Headers] object in iteration order: by name. *)
Definition header_entries (hs : gmap string string) : list (string * string) :=
  merge_sort (fun a b => Is_true (String.leb a.1 b.1)) (map_to_list hs).

(** [handshake(url, headers, bufReader, bufWriter)]: [js] feeds
    [createSecKey], [statusLine] and [responseHeaders] are the answer of the
    server as [handshake_response] takes it. *)
Definition handshake (url : URL) (hs : gmap string string) (js : list nat) (w : BufWriter)
    (statusLine : option string) (responseHeaders : option (gmap string string))
  : Res unit * BufWriter :=
  let key := createSecKey js in
  let hs := match hs !! "host" with Some _ => hs | None => <["host" := hostname url]> hs end in
  let hs := <["sec-websocket-version" := "13"]>
              (<["sec-websocket-key" := key]>
                 (<["connection" := "upgrade"]> (<["upgrade" := "websocket"]> hs))) in
  let headerStr := "GET " +:+ pathname url +:+ search url +:+ " HTTP/1.1" +:+ CRLF
                   +:+ header_lines (header_entries hs) +:+ CRLF in
  match write_flush (encode headerStr) w with
  | (Throw e, w) => (Throw e, w)
  | (Ret _, w) => (handshake_response key statusLine responseHeaders, w)
  end.

End Engine.

(** The invariant of the locals of the inbound loop: [payloadsLength] is
    the total length of the payloads in [frames]. *)
Definition lengths_agree (g : Inbound) : Prop :=
  payloadsLength g = Z.of_nat (length (joined (frames g))).

(** A socket as [acceptWebSocket] makes it, with the bytes [input] still to
    be read; [failing] says that its transport throws on a write. *)
Definition fresh_socket (input : list Z) (failing : bool) : WebSocketImpl :=
  mkSock false None input (mkWriter [] failing) [] false [].

(** Every entry of the send queue holds a promise that has been made.  This
    is so in every socket the code makes: the queue starts empty, [enqueue]
    pushes the promise it has just made, and nothing takes a promise away
    (lemmas [promises_made_nil] to [iteration_promises]). *)
Definition promises_made (ws : WebSocketImpl) : Prop :=
  Forall (fun e => (d e < length (deferreds ws))%nat) (sendQueue ws).

(** The bytes [writeFrame] hands to a working writer for [fr]: none when it
    throws on the mask. *)
Definition frame_wire (fr : WebSocketFrame) : list Z :=
  match writeFrame_header fr with Ret header => header | Throw _ => [] end.

(** What [writeFrame] on a working writer comes to for [fr], which is what
    [dequeue] settles the promise of the entry with. *)
Definition write_result (fr : WebSocketFrame) : Res unit :=
  match writeFrame_header fr with Ret _ => Ret tt | Throw e => Throw e end.

(** The writer once the frames of the entries [q] have been written, head
    first. *)
Definition written (q : list Entry) (w : BufWriter) : BufWriter :=
  foldl (fun w e => (writeFrame (frame e) w).2) w q.

(** ** Instances of the parameters

    The engine above is parametric in the text codec, the digest and the
    base64 encoder.  These instances make it run. *)

(** The char codes of a string. *)
Fixpoint char_codes (s : string) : list Z :=
  match s with
  | EmptyString => []
  | String c s => Z.of_N (N_of_ascii c) :: char_codes s
  end.

(** Modelled from the spec: [encode] of encoding/utf8.ts is not among the
    sources; the spec has reasons and text messages travel as UTF-8.  On a
    string of 8-bit characters that is one byte below 128 and two above. *)
Definition utf8_encode (s : string) : list Z :=
  concat (map (fun c => if decide (c < 128) then [c]
                        else [Z.lor 0xc0 (Z.shiftr c 6); Z.lor 0x80 (Z.land c 63)])
              (char_codes s)).

(** Modelled from the spec: [decode] of encoding/utf8.ts is not among the
    sources.  This one is UTF-8 on bytes below 128, which is all the
    examples below feed it; any other byte becomes a question mark. *)
Definition ascii_decode (bs : list Z) : string :=
  fromCharCode (map (fun b => if decide (b < 128) then b else 63) bs).

(** Modelled from the spec: [Sha1] of hash/sha1.ts is not among the sources;
    the spec names the digest of the handshake: SHA-1, here as FIPS 180-4
    has it, on 32-bit words kept in [Z]. *)
Module SHA1.
Definition w32 (x : Z) : Z := x mod 2 ^ 32.
Definition rotl (n x : Z) : Z := w32 (Z.lor (Z.shiftl x n) (Z.shiftr x (32 - n))).
Definition not32 (x : Z) : Z := Z.lxor x 0xffffffff.

(** The message followed by the bit 1, zeros up to 56 modulo 64, and the
    length in bits as 8 bytes. *)
Definition pad (msg : list Z) : list Z :=
  let n := Z.of_nat (length msg) in
  msg ++ [0x80] ++ replicate (Z.to_nat ((55 - n) mod 64)) 0
      ++ map (fun k : Z => Z.land (Z.shiftr (8 * n) (8 * (7 - k))) 255) [0; 1; 2; 3; 4; 5; 6; 7].

Fixpoint words (n : nat) (bs : list Z) : list Z :=
  match n with
  | O => []
  | S n => be_value (take 4 bs) :: words n (drop 4 bs)
  end.

(** The schedule, latest word first. *)
Fixpoint extend (n : nat) (ws : list Z) : list Z :=
  match n with
  | O => ws
  | S n =>
      let w k := default 0 (ws !! k) in
      extend n (rotl 1 (Z.lxor (Z.lxor (w 2%nat) (w 7%nat)) (Z.lxor (w 13%nat) (w 15%nat))) :: ws)
  end.

Definition round (st : Z * Z * Z * Z * Z) (tw : nat * Z) : Z * Z * Z * Z * Z :=
  let '(a, b, c, d, e) := st in
  let '(t, w) := tw in
  let '(f, k) :=
    if decide (t < 20)%nat then (Z.lor (Z.land b c) (Z.land (not32 b) d), 0x5a827999)
    else if decide (t < 40)%nat then (Z.lxor (Z.lxor b c) d, 0x6ed9eba1)
    else if decide (t < 60)%nat then
      (Z.lor (Z.lor (Z.land b c) (Z.land b d)) (Z.land c d), 0x8f1bbcdc)
    else (Z.lxor (Z.lxor b c) d, 0xca62c1d6) in
  (w32 (rotl 5 a + f + e + k + w), a, rotl 30 b, c, d).

Definition block (h : Z * Z * Z * Z * Z) (bs : list Z) : Z * Z * Z * Z * Z :=
  let ws := rev (extend 64 (rev (words 16 bs))) in
  let '(h0, h1, h2, h3, h4) := h in
  let '(a, b, c, d, e) := foldl round h (imap (fun t w => (t, w)) ws) in
  (w32 (h0 + a), w32 (h1 + b), w32 (h2 + c), w32 (h3 + d), w32 (h4 + e)).

Fixpoint blocks (n : nat) (h : Z * Z * Z * Z * Z) (bs : list Z) : Z * Z * Z * Z * Z :=
  match n with
  | O => h
  | S n => blocks n (block h (take 64 bs)) (drop 64 bs)
  end.

Definition word_bytes (x : Z) : list Z :=
  map (fun k : Z => Z.land (Z.shiftr x (8 * (3 - k))) 255) [0; 1; 2; 3].

Definition digest (msg : list Z) : list Z :=
  let bs := pad msg in
  let '(h0, h1, h2, h3, h4) :=
    blocks (length bs / 64) (0x67452301, 0xefcdab89, 0x98badcfe, 0x10325476, 0xc3d2e1f0) bs in
  word_bytes h0 ++ word_bytes h1 ++ word_bytes h2 ++ word_bytes h3 ++ word_bytes h4.
End SHA1.

(** Modelled from the spec: [new Sha1().update(s).digest()] of the absent
    hash/sha1.ts, the SHA-1 digest of the UTF-8 bytes of [s]. *)
Definition sha1 (s : string) : list Z := SHA1.digest (utf8_encode s).

(** Modelled from the spec: [btoa] is a function of the platform; the spec
    has the accept token base64-encoded (RFC 4648, with padding). *)
Module Base64.
Definition alphabet : string :=
  "ABCDEFGHIJKLMNOPQRSTUVWXYZabcdefghijklmnopqrstuvwxyz0123456789+/".

Definition digit (n : Z) : string :=
  match String.get (Z.to_nat n) alphabet with
  | Some c => String c EmptyString
  | None => EmptyString
  end.

Fixpoint groups (n : nat) (bs : list Z) : string :=
  match n with
  | O => EmptyString
  | S n =>
      match bs with
      | [] => EmptyString
      | [a] => digit (Z.shiftr a 2) +:+ digit (Z.shiftl (Z.land a 3) 4) +:+ "=="
      | [a; b] =>
          digit (Z.shiftr a 2)
          +:+ digit (Z.lor (Z.shiftl (Z.land a 3) 4) (Z.shiftr b 4))
          +:+ digit (Z.shiftl (Z.land b 15) 2) +:+ "="
      | a :: b :: c :: bs =>
          digit (Z.shiftr a 2)
          +:+ digit (Z.lor (Z.shiftl (Z.land a 3) 4) (Z.shiftr b 4))
          +:+ digit (Z.lor (Z.shiftl (Z.land b 15) 2) (Z.shiftr c 6))
          +:+ digit (Z.land c 63) +:+ groups n bs
      end
  end.

Definition encode (s : string) : string :=
  let bs := char_codes s in groups (S (length bs)) bs.
End Base64.

(** The frame [send(data)] queues on a socket whose mask is [mk]. *)
Definition message_frame (encode : string -> list Z) (mk : option (list Z))
    (data : WebSocketMessage) : WebSocketFrame :=
  match data with
  | MsgString s => mkFrame true OpCode.TextFrame mk (encode s)
  | MsgBytes b => mkFrame true OpCode.BinaryFrame mk b
  end.

(** The characters of a string. *)
Fixpoint chars (s : string) : list ascii :=
  match s with
  | EmptyString => []
  | String c s => c :: chars s
  end.

(** ** bytes/mod.ts *)

Module Bytes.

(** [copyBytes(src, dst, off)]: the contents of [dst] afterwards and the
    number of bytes copied. *)
Definition copyBytes (src dst : list Z) (off : Z) : Res (list Z * nat) :=
  let off := Z.to_nat (Z.max 0 (Z.min off (Z.of_nat (length dst)))) in
  let dstBytesAvailable := (length dst - off)%nat in
  let src := if decide (dstBytesAvailable < length src)%nat
             then take dstBytesAvailable src else src in
  match Uint8Array_set dst src off with
  | Ret dst => Ret (dst, length src)
  | Throw e => Throw e
  end.

(** [concat(origin, b)]. *)
Definition concat (origin b : list Z) : Res (list Z) :=
  match Uint8Array_new (Z.of_nat (length origin) + Z.of_nat (length b)) with
  | Throw e => Throw e
  | Ret output =>
      match Uint8Array_set output origin 0 with
      | Throw e => Throw e
      | Ret output => Uint8Array_set output b (length origin)
      end
  end.

End Bytes.

(** ** io/bufio.ts: BufWriter as the source has it *)

Module Bufio.

(** The [Deno.Writer] under a BufWriter.  [delivered] is what it has taken
    so far.  A call of its [write] may take only a part of the bytes:
    [caps] bounds what each of the next calls takes.  A call after these
    throws when [failing] is set, and takes everything otherwise: a
    transport that fails does so at any point, also in the middle of a
    frame.  What it does after it has thrown is of no account here, as a
    BufWriter keeps the exception and never calls it again. *)
Record Sink : Type := mkSink {
  delivered : list Z;
  caps : list nat;
  failing : bool
}.

(** [await writer.write(p)]: the number of bytes taken. *)
Definition Sink_write (p : list Z) (s : Sink) : Res nat * Sink :=
  match caps s with
  | k :: caps => (Ret (length (take k p)), mkSink (delivered s ++ take k p) caps (failing s))
  | [] =>
      if failing s then (Throw WriterFailed, s)
      else (Ret (length p), mkSink (delivered s ++ p) [] false)
  end.

(** The next call of [write] throws. *)
Definition throwing (s : Sink) : bool :=
  match caps s with [] => failing s | _ :: _ => false end.

(** [Deno.writeAll(w, arr)] of the runtime:
    [let nwritten = 0; while (nwritten < arr.length) nwritten += await w.write(arr.subarray(nwritten))].
    [fuel] bounds the number of turns; [None] is a loop cut short. *)
Fixpoint writeAll (fuel : nat) (arr : list Z) (s : Sink) : option (Res unit * Sink) :=
  match arr with
  | [] => Some (Ret tt, s)
  | _ =>
      match fuel with
      | O => None
      | S fuel =>
          match Sink_write arr s with
          | (Throw e, s) => Some (Throw e, s)
          | (Ret n, s) => writeAll fuel (drop n arr) s
          end
      end
  end.

(** [BufWriter] with the fields of [AbstractBufBase]. *)
Record BufWriter : Type := mkBufWriter {
  buf : list Z;
  usedBufferBytes : nat;
  err : option Error;
  writer : Sink
}.

(** [new BufWriter(writer, size)]. *)
Definition BufWriter_new (writer : Sink) (size : Z) : BufWriter :=
  let size := if decide (size <= 0) then 4096 else size in
  mkBufWriter (replicate (Z.to_nat size) 0) 0 None writer.

Definition available (b : BufWriter) : nat := (length (buf b) - usedBufferBytes b)%nat.

Definition buffered (b : BufWriter) : nat := usedBufferBytes b.

(** [flush()]. *)
Definition flush (fuel : nat) (b : BufWriter) : option (Res unit * BufWriter) :=
  match err b with
  | Some e => Some (Throw e, b)
  | None =>
      if decide (usedBufferBytes b = 0%nat) then Some (Ret tt, b)
      else
        match writeAll fuel (take (usedBufferBytes b) (buf b)) (writer b) with
        | None => None
        | Some (Throw e, s) => Some (Throw e, mkBufWriter (buf b) (usedBufferBytes b) (Some e) s)
        | Some (Ret _, s) => Some (Ret tt, mkBufWriter (replicate (length (buf b)) 0) 0 None s)
        end
  end.

(** The [while] loop of [write] and what follows it; [total] is
    [totalBytesWritten]. *)
Fixpoint write_loop (fuel : nat) (data : list Z) (total : nat) (b : BufWriter)
  : option (Res nat * BufWriter) :=
  if decide (available b < length data)%nat then
    match fuel with
    | O => None
    | S fuel' =>
        if decide (buffered b = 0%nat) then
          match Sink_write data (writer b) with
          | (Throw e, s) =>
              Some (Throw e, mkBufWriter (buf b) (usedBufferBytes b) (Some e) s)
          | (Ret numBytesWritten, s) =>
              write_loop fuel' (drop numBytesWritten data) (total + numBytesWritten)
                         (mkBufWriter (buf b) (usedBufferBytes b) (err b) s)
          end
        else
          match Bytes.copyBytes data (buf b) (Z.of_nat (usedBufferBytes b)) with
          | Throw e => Some (Throw e, b)
          | Ret (buf', numBytesWritten) =>
              match flush fuel (mkBufWriter buf' (usedBufferBytes b + numBytesWritten)
                                            (err b) (writer b)) with
              | None => None
              | Some (Throw e, b) => Some (Throw e, b)
              | Some (Ret _, b) =>
                  write_loop fuel' (drop numBytesWritten data) (total + numBytesWritten) b
              end
          end
    end
  else
    match Bytes.copyBytes data (buf b) (Z.of_nat (usedBufferBytes b)) with
    | Throw e => Some (Throw e, b)
    | Ret (buf', numBytesWritten) =>
        Some (Ret (total + numBytesWritten)%nat,
              mkBufWriter buf' (usedBufferBytes b + numBytesWritten) (err b) (writer b))
    end.

(** [write(data)]. *)
Definition write (fuel : nat) (data : list Z) (b : BufWriter) : option (Res nat * BufWriter) :=
  match err b with
  | Some e => Some (Throw e, b)
  | None =>
      if decide (length data = 0%nat) then Some (Ret 0%nat, b)
      else write_loop fuel data 0 b
  end.

(** [await w.write(data); await w.flush()], as [writeFrame] and the
    handshake do. *)
Definition write_then_flush (fuel : nat) (data : list Z) (b : BufWriter)
  : option (Res unit * BufWriter) :=
  match write fuel data b with
  | None => None
  | Some (Throw e, b) => Some (Throw e, b)
  | Some (Ret _, b) => flush fuel b
  end.

End Bufio.

(** What the writer of the connection model stands for: the bytes the
    transport has taken, and whether the next call throws. *)
Definition abstraction (b : Bufio.BufWriter) : BufWriter :=
  mkWriter (Bufio.delivered (Bufio.writer b))
           (Bufio.throwing (Bufio.writer b) || bool_decide (Bufio.err b <> None)).

(** A BufWriter between two frames: nothing is buffered, or it holds the
    exception of the transport. *)
Definition settled (b : Bufio.BufWriter) : Prop :=
  (Bufio.err b = None /\ Bufio.usedBufferBytes b = 0%nat)
  \/ Bufio.err b = Some WriterFailed.

(** ** io/bufio.ts: BufReader as the source has it *)

Module BufioReader.

(** The [Deno.Reader] under a BufReader: the chunks of bytes still to come.
    A call of [read] hands out bytes of the first chunk only, as many as
    fit; an empty chunk is a read of 0 bytes; after the last chunk the
    stream has ended. *)
Definition Source : Type := list (list Z).

(** [await rd.read(p)] with [p.byteLength = cap]: the bytes put into [p],
    or [None] for [null]. *)
Definition Source_read (cap : nat) (rd : Source) : option (list Z) * Source :=
  match rd with
  | [] => (None, [])
  | c :: rd => (Some (take cap c), if decide (length c <= cap)%nat then rd else drop cap c :: rd)
  end.

Inductive Exn : Type :=
| FullBuffer                      (* "bufio: tried to fill full buffer" *)
| NoProgress                      (* "No progress after 100 read() calls" *)
| PartialRead (partial : list Z). (* PartialReadError and its [partial] *)

Inductive Result (A : Type) : Type :=
| Ok (a : A)
| Err (e : Exn).
Arguments Ok {A} a.
Arguments Err {A} e.

Record BufReader : Type := mkBufReader {
  buf : list Z;
  rd : Source;
  r : nat;
  w : nat;
  eof : bool
}.

Definition MIN_BUF_SIZE : Z := 16.
Definition MAX_CONSECUTIVE_EMPTY_READS : nat := 100.

(** [new BufReader(rd, size)]. *)
Definition BufReader_new (rd : Source) (size : Z) : BufReader :=
  let size := if decide (size < MIN_BUF_SIZE) then MIN_BUF_SIZE else size in
  mkBufReader (replicate (Z.to_nat size) 0) rd 0 0 false.

(** The [for] loop of [_fill], [i] counting down. *)
Fixpoint fill_loop (i : nat) (b : BufReader) : Result unit * BufReader :=
  match i with
  | O => (Err NoProgress, b)
  | S i =>
      match Source_read (length (buf b) - w b) (rd b) with
      | (None, rd') => (Ok tt, mkBufReader (buf b) rd' (r b) (w b) true)
      | (Some rr, rd') =>
          let b' := mkBufReader (list_inserts (w b) rr (buf b)) rd' (r b)
                                (w b + length rr) (eof b) in
          if decide (0 < length rr)%nat then (Ok tt, b') else fill_loop i b'
      end
  end.

(** [_fill()]: [buf.copyWithin(0, r, w)] moves the unread bytes to the
    front. *)
Definition _fill (b : BufReader) : Result unit * BufReader :=
  let b := if decide (0 < r b)%nat
           then mkBufReader (take (w b - r b) (drop (r b) (buf b)) ++ drop (w b - r b) (buf b))
                            (rd b) 0 (w b - r b) (eof b)
           else b in
  if decide (length (buf b) <= w b)%nat then (Err FullBuffer, b)
  else fill_loop MAX_CONSECUTIVE_EMPTY_READS b.

(** [readByte()]: [Ok None] is [null].  [fuel] bounds the turns of the
    [while] loop; [None] is a loop cut short. *)
Fixpoint readByte (fuel : nat) (b : BufReader) : option (Result (option Z) * BufReader) :=
  if decide (r b = w b) then
    if eof b then Some (Ok None, b)
    else
      match fuel with
      | O => None
      | S fuel =>
          match _fill b with
          | (Err e, b) => Some (Err e, b)
          | (Ok _, b) => readByte fuel b
          end
      end
  else Some (Ok (Some (at_or_0 (buf b) (r b))),
             mkBufReader (buf b) (rd b) (r b + 1) (w b) (eof b)).

(** [read(p)] with [p.byteLength = n]: the bytes put at the front of [p],
    whose number is the value returned, or [None] for [null]. *)
Definition read (n : nat) (b : BufReader) : option (list Z) * BufReader :=
  let copy (b : BufReader) :=
    let copied := take n (take (w b - r b) (drop (r b) (buf b))) in
    (Some copied, mkBufReader (buf b) (rd b) (r b + length copied) (w b) (eof b)) in
  if decide (n = 0%nat) then (Some [], b)
  else if decide (r b = w b) then
    if decide (length (buf b) <= n)%nat then
      let '(rr, rd') := Source_read n (rd b) in
      (rr, mkBufReader (buf b) rd' (r b) (w b) (eof b))
    else
      match Source_read (length (buf b)) (rd b) with
      | (None, rd') => (None, mkBufReader (buf b) rd' 0 0 (eof b))
      | (Some rr, rd') =>
          if decide (length rr = 0%nat) then (Some [], mkBufReader (buf b) rd' 0 0 (eof b))
          else copy (mkBufReader (list_inserts 0 rr (buf b)) rd' 0 (length rr) (eof b))
      end
  else copy b.

(** [readFull(p)] with [p.length = n]: [acc] is [p.subarray(0, bytesRead)]. *)
Fixpoint readFull_loop (fuel n : nat) (acc : list Z) (b : BufReader)
  : option (Result (option (list Z)) * BufReader) :=
  if decide (length acc < n)%nat then
    match fuel with
    | O => None
    | S fuel =>
        match read (n - length acc) b with
        | (None, b) =>
            if decide (length acc = 0%nat) then Some (Ok None, b)
            else Some (Err (PartialRead acc), b)
        | (Some rr, b) => readFull_loop fuel n (acc ++ rr) b
        end
    end
  else Some (Ok (Some acc), b).

Definition readFull (fuel n : nat) (b : BufReader)
  : option (Result (option (list Z)) * BufReader) :=
  readFull_loop fuel n [] b.

(** The bytes a BufReader has still to hand out: those it holds, then those
    of its source. *)
Definition stream (b : BufReader) : list Z :=
  take (w b - r b) (drop (r b) (buf b)) ++ concat (rd b).

(** The state of a BufReader between two calls: the indices are in order
    within the buffer, which is not empty, [eof] is set only at the end of
    the source, and the source never reads 0 bytes. *)
Definition wf (b : BufReader) : Prop :=
  (r b <= w b <= length (buf b))%nat
  /\ (0 < length (buf b))%nat
  /\ (eof b = true -> rd b = [])
  /\ Forall (fun c => c <> []) (rd b).

End BufioReader.

(** ** The chat server, server.ts

    The sockets of the server are objects with an identity: [sockets] holds
    the state of each, and the array [users] holds identities, positions in
    [sockets].  One socket can be in [users] more than once, since
    [users.push(socket)] runs on every "open" event it sends. *)

(** [users = users.filter((user) => { try { user.send(text); return true; } catch { return false; } })]:
    the new [users] and the sockets afterwards.  [send] throws at once on a
    closed socket; the promise it returns otherwise is dropped.  [users]
    holds sockets of the server only; an identity without a socket, which
    does not occur, is skipped. *)
Fixpoint broadcast (encode : string -> list Z) (text : string) (users : list nat)
    (sockets : list WebSocketImpl) : list nat * list WebSocketImpl :=
  match users with
  | [] => ([], sockets)
  | user :: users =>
      match sockets !! user with
      | None => broadcast encode text users sockets
      | Some ws =>
          match send encode (MsgString text) ws with
          | (Throw _, ws) => broadcast encode text users (<[user := ws]> sockets)
          | (Ret _, ws) =>
              let '(kept, sockets) := broadcast encode text users (<[user := ws]> sockets) in
              (user :: kept, sockets)
          end
      end
  end.

(** Whether the socket [user] is open. *)
Definition is_open (sockets : list WebSocketImpl) (user : nat) : bool :=
  match sockets !! user with
  | Some ws => negb (_isClosed ws)
  | None => false
  end.

(** * Properties *)

(** ** Arithmetic of the header bytes *)

Lemma lor_shiftl_small (a b n : Z) :
  0 <= n -> 0 <= b < 2 ^ n -> Z.lor (Z.shiftl a n) b = a * 2 ^ n + b.
Proof.
  intros Hn Hb.
  rewrite <- Z.shiftl_mul_pow2 by lia.
  rewrite <- Z.lxor_lor, <- Z.add_nocarry_lxor; try reflexivity.
  all: apply Z.bits_inj'; intros m Hm; rewrite Z.land_spec, Z.bits_0;
    destruct (Z.ltb_spec m n);
    [ rewrite Z.shiftl_spec_low by lia; reflexivity
    | rewrite <- (Z.mod_small b (2 ^ n)) by lia;
      rewrite Z.mod_pow2_bits_high by lia; apply andb_false_r ].
Qed.

Lemma lor_128 (x : Z) : 0 <= x < 128 -> Z.lor 128 x = 128 + x.
Proof. intros H. change 128 with (Z.shiftl 1 7) at 1. rewrite lor_shiftl_small; lia. Qed.

Lemma be_value_sliceLongToBytes (n : Z) :
  0 <= n < 2 ^ 64 -> be_value (sliceLongToBytes n) = n.
Proof.
  intros Hn. unfold be_value, sliceLongToBytes. cbn [map fold_left].
  change 255 with (Z.ones 8).
  rewrite !Z.land_ones, !Z.shiftr_div_pow2 by lia.
  rewrite !lor_shiftl_small; try lia.
  all: try (apply Z.mod_pos_bound; lia).
  cbn. Z.div_mod_to_equations. lia.
Qed.

Lemma bytes_sliceLongToBytes (n : Z) : bytes (sliceLongToBytes n).
Proof.
  unfold sliceLongToBytes, bytes. cbn [map].
  repeat constructor; unfold is_byte; change 255 with (Z.ones 8);
    rewrite Z.land_ones by lia; apply Z.mod_pos_bound; lia.
Qed.

Lemma byte_wrap_id (b : Z) : is_byte b -> byte_wrap b = b.
Proof. unfold is_byte, byte_wrap. intros H. apply Z.mod_small. lia. Qed.

Lemma Uint8Array_of_bytes (l : list Z) : bytes l -> Uint8Array_of l = l.
Proof.
  unfold bytes, Uint8Array_of. induction 1 as [|b l Hb _ IH]; cbn; [done|].
  by rewrite byte_wrap_id, IH.
Qed.

(** ** Masking *)

Lemma mask_byte (m : list Z) (i : nat) : bytes m -> is_byte (at_or_0 m i).
Proof.
  intros Hm. unfold at_or_0. destruct (m !! i) as [b|] eqn:E; cbn.
  - eapply Forall_lookup_1; eauto.
  - unfold is_byte; lia.
Qed.

Lemma lxor_byte (a b : Z) : is_byte a -> is_byte b -> is_byte (Z.lxor a b).
Proof.
  unfold is_byte. intros Ha Hb.
  assert (0 <= Z.lxor a b) by (apply Z.lxor_nonneg; lia).
  split; [lia|].
  destruct (Z.eq_dec (Z.lxor a b) 0) as [->|Hne]; [lia|].
  apply Z.log2_lt_cancel. change (Z.log2 256) with 8.
  eapply Z.le_lt_trans; [apply Z.log2_lxor; lia|].
  assert (Z.log2 a < 8).
  { destruct (Z.eq_dec a 0) as [->|]; [cbn; lia|]. apply Z.log2_lt_pow2; lia. }
  assert (Z.log2 b < 8).
  { destruct (Z.eq_dec b 0) as [->|]; [cbn; lia|]. apply Z.log2_lt_pow2; lia. }
  lia.
Qed.

Lemma unmask_bytes (p : list Z) (mk : option (list Z)) :
  bytes p -> (forall m, mk = Some m -> bytes m) -> bytes (unmask p mk).
Proof.
  intros Hp Hm. destruct mk as [m|]; cbn; [|done].
  unfold bytes. apply Forall_lookup_2. intros i x.
  rewrite list_lookup_imap. destruct (p !! i) as [b|] eqn:E; cbn; [|done].
  intros [= <-]. unfold byte_wrap, is_byte. apply Z.mod_pos_bound. lia.
Qed.

(** Masking twice with the same key gives the payload back. *)
Lemma unmask_unmask (p m : list Z) :
  bytes p -> bytes m -> unmask (unmask p (Some m)) (Some m) = p.
Proof.
  intros Hp Hm. apply list_eq. intros i. cbn.
  rewrite !list_lookup_imap. destruct (p !! i) as [b|] eqn:E; cbn; [|done].
  f_equal.
  assert (is_byte b) by exact (Forall_lookup_1 _ _ _ _ Hp E).
  pose proof (mask_byte m (Z.to_nat (Z.land (Z.of_nat i) 3)) Hm) as Hk.
  rewrite (byte_wrap_id (Z.lxor b _)) by (by apply lxor_byte).
  rewrite Z.lxor_assoc, Z.lxor_nilpotent, Z.lxor_0_r. by apply byte_wrap_id.
Qed.

(** ** Reading a frame *)

Lemma readFull_app (p tl : list Z) : readFull (length p) (p ++ tl) = Got p tl.
Proof.
  unfold readFull. destruct p as [|b p]; [done|].
  repeat case_decide; try done.
  - rewrite length_app in *. cbn in *. lia.
  - by rewrite take_app_length, drop_app_length.
Qed.

Lemma readBigEndian_app (ext tl : list Z) :
  ext ≠ [] -> readBigEndian (length ext) (ext ++ tl) = Got (be_value ext) tl.
Proof.
  intros Hne. unfold readBigEndian.
  repeat case_decide.
  - destruct ext; done.
  - rewrite length_app in *. lia.
  - by rewrite take_app_length, drop_app_length.
Qed.

Lemma readShort_app (ext tl : list Z) :
  length ext = 2%nat -> readShort (ext ++ tl) = Got (be_value ext) tl.
Proof.
  intros H. unfold readShort. rewrite <- H. apply readBigEndian_app. by destruct ext.
Qed.

Lemma readLong_app (ext tl : list Z) :
  length ext = 8%nat -> readLong (ext ++ tl) = Got (be_value ext) tl.
Proof.
  intros H. unfold readLong. rewrite <- H. apply readBigEndian_app. by destruct ext.
Qed.

Lemma byte0_fields (fin : bool) (op : Z) :
  0 <= op < 16 ->
  Z.shiftr ((if fin then 128 else 0) + op) 4 = (if fin then 8 else 0)
  /\ Z.land ((if fin then 128 else 0) + op) 15 = op.
Proof.
  intros H. change 15 with (Z.ones 4).
  rewrite Z.shiftr_div_pow2, Z.land_ones by lia. change (2 ^ 4) with 16.
  destruct fin; split; Z.div_mod_to_equations; lia.
Qed.

Lemma byte1_fields (hm : bool) (len7 : Z) :
  0 <= len7 < 128 ->
  Z.shiftr ((if hm then 128 else 0) + len7) 7 = (if hm then 1 else 0)
  /\ Z.land ((if hm then 128 else 0) + len7) 127 = len7.
Proof.
  intros H. change 127 with (Z.ones 7).
  rewrite Z.shiftr_div_pow2, Z.land_ones by lia. change (2 ^ 7) with 128.
  destruct hm; split; Z.div_mod_to_equations; lia.
Qed.

(** [readFrame] accepts every frame laid out as RFC 6455 has it, whatever
    the FIN bit, the 4-bit opcode and the form of the length: [len7] is the
    7-bit indicator and [ext] the extended length after it. *)
Lemma readFrame_wire (fin : bool) (op len7 : Z) (mk : option (list Z))
    (ext p rest : list Z) :
  0 <= op < 16 ->
  (forall m, mk = Some m -> length m = 4%nat) ->
  (len7 = Z.of_nat (length p) /\ len7 < 126 /\ ext = [])
  \/ (len7 = 126 /\ length ext = 2%nat /\ be_value ext = Z.of_nat (length p))
  \/ (len7 = 127 /\ length ext = 8%nat /\ be_value ext = Z.of_nat (length p)) ->
  readFrame ([(if fin then 128 else 0) + op;
              (if mk is Some _ then 128 else 0) + len7]
               ++ ext ++ default [] mk ++ p ++ rest)
  = Ret (mkFrame fin op mk p, rest).
Proof.
  intros Hop Hmk Hlen.
  assert (0 <= len7 < 128) as Hl7 by lia.
  destruct (byte0_fields fin op Hop) as [E1 E2].
  destruct (byte1_fields (if mk is Some _ then true else false) len7 Hl7) as [E3 E4].
  assert ((if mk is Some _ then 128 else 0) = (if (if mk is Some _ then true else false) then 128 else 0))
    as Emk by (by destruct mk).
  unfold readFrame. cbn [app readByte]. rewrite Emk, E1, E2, E3, E4. clear E1 E2 E3 E4 Emk.
  assert (forall tl, readFull (Z.to_nat (Z.of_nat (length p))) (p ++ tl) = Got p tl) as Hp.
  { intros tl. rewrite Nat2Z.id. apply readFull_app. }
  assert (match (if decide ((if if mk is Some _ then true else false then 1 else 0) ≠ 0)
                 then match readFull 4 (default [] mk ++ p ++ rest) with
                      | Got m r => Got (Some m) r
                      | Null => Null
                      | Thrown e => Thrown e
                      end
                 else Got None (default [] mk ++ p ++ rest)) with
          | Got mask buf =>
              match readFull (Z.to_nat (Z.of_nat (length p))) buf with
              | Got payload buf => Ret (mkFrame fin op mask payload, buf)
              | Null => Throw AssertionFailed
              | Thrown err => Throw err
              end
          | Null => Throw AssertionFailed
          | Thrown err => Throw err
          end = Ret (mkFrame fin op mk p, rest)) as Htail.
  { destruct mk as [m|]; cbn [default]; cbv beta iota.
    - rewrite decide_True by lia. rewrite <- (Hmk m eq_refl), readFull_app.
      by rewrite Hp.
    - rewrite decide_False by lia. cbn [app]. by rewrite Hp. }
  destruct fin; rewrite ?(decide_True (P := 8 = 8)), ?(decide_False (P := 0 = 8)),
    ?(decide_True (P := 0 = 0)) by lia.
  all: destruct Hlen as [(-> & ? & ->) | [(-> & Hext & Hbe) | (-> & Hext & Hbe)]].
  all: try (rewrite decide_False by lia; rewrite decide_False by lia; cbn [app]; exact Htail).
  all: try (rewrite decide_True by lia; rewrite (readShort_app ext) by done;
            rewrite Hbe; exact Htail).
  all: rewrite decide_False by lia; rewrite decide_True by lia;
    rewrite (readLong_app ext) by done; rewrite Hbe; exact Htail.
Qed.

(** ** Writing a frame *)

Lemma writeFrame_header_layout (f : WebSocketFrame) :
  frame_ok f ->
  writeFrame_header f
  = Ret ([128 + opcode f;
          (if mask f is Some _ then 128 else 0) + (length_field (Z.of_nat (length (payload f)))).1]
           ++ (length_field (Z.of_nat (length (payload f)))).2
           ++ default [] (mask f) ++ unmask (payload f) (mask f)).
Proof.
  intros (Hop & Hp & Hm). unfold writeFrame_header, length_field.
  set (n := Z.of_nat (length (payload f))).
  assert (0 <= n) by lia.
  assert (byte_wrap (Z.lor 128 (opcode f)) = 128 + opcode f) as E0.
  { rewrite lor_128 by lia. apply byte_wrap_id. unfold is_byte. lia. }
  assert (forall x, 0 <= x < 128 ->
            byte_wrap (Z.lor (if mask f is Some _ then 128 else 0) x)
            = (if mask f is Some _ then 128 else 0) + x) as E1.
  { intros x Hx. destruct (mask f).
    - rewrite lor_128 by lia. apply byte_wrap_id. unfold is_byte. lia.
    - rewrite Z.lor_0_l. cbn. apply byte_wrap_id. unfold is_byte. lia. }
  assert ((if mask f is Some m then bool_decide (length m ≠ 4%nat) else false) = false) as ->.
  { destruct (mask f) as [m|] eqn:E; [|done].
    destruct (Hm m eq_refl) as [_ ->]. by apply bool_decide_eq_false_2; intros []. }
  repeat case_decide; cbn [fst snd Uint8Array_of map app].
  - rewrite E0, E1 by lia. by destruct (mask f).
  - rewrite E0, E1 by lia.
    assert (byte_wrap (Z.shiftr n 8) = n / 256) as ->.
    { rewrite Z.shiftr_div_pow2 by lia. change (2 ^ 8) with 256.
      apply byte_wrap_id. unfold is_byte. Z.div_mod_to_equations. lia. }
    assert (byte_wrap (Z.land n 255) = n mod 256) as ->.
    { change 255 with (Z.ones 8). rewrite Z.land_ones by lia. change (2 ^ 8) with 256.
      apply byte_wrap_id. unfold is_byte. Z.div_mod_to_equations. lia. }
    by destruct (mask f).
  - rewrite E0, E1 by lia.
    change (map byte_wrap (sliceLongToBytes n)) with (Uint8Array_of (sliceLongToBytes n)).
    rewrite Uint8Array_of_bytes by apply bytes_sliceLongToBytes.
    destruct (mask f); cbn [app]; by rewrite <- ?app_assoc.
Qed.

Lemma be_value_length_field (n : Z) :
  0 <= n < 2 ^ 64 ->
  let '(len7, ext) := length_field n in
  (len7 = n /\ len7 < 126 /\ ext = [])
  \/ (len7 = 126 /\ length ext = 2%nat /\ be_value ext = n)
  \/ (len7 = 127 /\ length ext = 8%nat /\ be_value ext = n).
Proof.
  intros Hn. unfold length_field. repeat case_decide.
  - left. done.
  - right; left. repeat split.
    unfold be_value. cbn [fold_left]. rewrite Z.shiftl_0_l, Z.lor_0_l.
    rewrite lor_shiftl_small by (try apply Z.mod_pos_bound; lia).
    change (2 ^ 8) with 256. Z.div_mod_to_equations. lia.
  - right; right. repeat split. by apply be_value_sliceLongToBytes.
Qed.

(** Reading back what [writeFrame] wrote gives the frame with its payload
    as it is on the wire, and always with the FIN bit set. *)
Lemma readFrame_writeFrame (f : WebSocketFrame) (rest : list Z) :
  frame_ok f ->
  Z.of_nat (length (payload f)) < 2 ^ 64 ->
  exists header,
    writeFrame_header f = Ret header
    /\ readFrame (header ++ rest)
       = Ret (mkFrame true (opcode f) (mask f) (unmask (payload f) (mask f)), rest).
Proof.
  intros Hok Hlen. eexists. split; [by apply writeFrame_header_layout|].
  destruct Hok as (Hop & Hp & Hm).
  pose proof (be_value_length_field (Z.of_nat (length (payload f)))) as Hlf.
  destruct (length_field _) as [len7 ext]. cbn [fst snd].
  rewrite <- !app_assoc.
  assert (length (unmask (payload f) (mask f)) = length (payload f)) as Hl.
  { destruct (mask f); cbn; [apply length_imap|done]. }
  rewrite <- Hl in Hlf.
  apply (readFrame_wire true (opcode f) len7 (mask f) ext); [done| |apply Hlf; lia].
  intros m Hmk. by destruct (Hm m Hmk).
Qed.

Lemma decode_writeFrame (f : WebSocketFrame) (rest : list Z) :
  frame_ok f ->
  Z.of_nat (length (payload f)) < 2 ^ 64 ->
  exists header,
    writeFrame_header f = Ret header
    /\ decode_frame (header ++ rest)
       = Ret (mkFrame true (opcode f) (mask f) (payload f), rest).
Proof.
  intros Hok Hlen.
  destruct (readFrame_writeFrame f rest Hok Hlen) as (header & Hw & Hr).
  exists header. split; [done|]. unfold decode_frame, unmasked. rewrite Hr. cbn.
  destruct Hok as (_ & Hp & Hm).
  destruct (mask f) as [m|] eqn:E; [|done].
  destruct (Hm m eq_refl) as [Hbm _].
  by rewrite (unmask_unmask (payload f) m Hp Hbm).
Qed.

(** C1.  The round trip holds up to the fin flag, which [writeFrame]
    writes as 1 whatever the frame says.  For every valid frame, with
    [isLastFrame] set or not (any 4-bit opcode, no mask or a mask of 4
    bytes), whose payload length is one of 0, 1, 125, 126, 65535, 65536:
    [writeFrame] accepts it, and decoding the bytes written ([readFrame],
    then [unmask]) gives the opcode, the mask and the payload of the frame
    as it was given to [writeFrame], with [isLastFrame] set.  So the frame
    comes back as it was exactly when it has [isLastFrame] set, and a frame
    that is not the last fragment of its message never does. *)
Theorem roundtrip_forces_fin (f : WebSocketFrame) (rest : list Z) :
  frame_ok f ->
  In (Z.of_nat (length (payload f))) [0; 1; 125; 126; 65535; 65536] ->
  exists header,
    writeFrame_header f = Ret header
    /\ decode_frame (header ++ rest)
       = Ret (mkFrame true (opcode f) (mask f) (payload f), rest)
    /\ (decode_frame (header ++ rest) = Ret (f, rest) <-> isLastFrame f = true).
Proof.
  intros Hok HL.
  assert (Z.of_nat (length (payload f)) < 2 ^ 64) as Hlen.
  { assert (65536 < 2 ^ 64) by reflexivity. cbn [In] in HL. intuition lia. }
  destruct (decode_writeFrame f rest Hok Hlen) as (header & Hw & Hd).
  exists header. split; [done|]. split; [done|].
  rewrite Hd. destruct f as [fin op mk p]. cbn [isLastFrame opcode mask payload].
  split; [by intros [= <-]|by intros ->].
Qed.

Lemma roundtrip_forces_fin_witness :
  let f := mkFrame false OpCode.TextFrame None [] in
  exists header,
    writeFrame_header f = Ret header
    /\ header = [0x81; 0x00]
    /\ decode_frame (header ++ []) = Ret (mkFrame true OpCode.TextFrame None [], [])
    /\ decode_frame (header ++ []) <> Ret (f, []).
Proof.
  intros f.
  destruct (roundtrip_forces_fin f []) as (header & Hw & Hd & Hiff).
  - unfold frame_ok, bytes, f, OpCode.TextFrame. cbn.
    split; [lia|]. split; [constructor|]. intros m [=].
  - cbn. tauto.
  - exists header. split; [exact Hw|]. split; [cbv in Hw; by injection Hw as <-|].
    split; [exact Hd|]. intros H. apply Hiff in H. discriminate H.
Defined.

(** C2.  For every frame [writeFrame] accepts, byte 0 of the output is
    [0x80 | opcode] kept to 8 bits: its bit 0x80 is set whatever the
    [isLastFrame] flag of the frame is, and for an opcode of 4 bits its low
    4 bits are the opcode. *)
Theorem writeFrame_byte0 (f : WebSocketFrame) (header : list Z) :
  writeFrame_header f = Ret header ->
  exists b0 tl,
    header = b0 :: tl
    /\ b0 = byte_wrap (Z.lor 0x80 (opcode f))
    /\ Z.testbit b0 7 = true
    /\ (0 <= opcode f < 16 -> Z.land b0 0x0f = opcode f /\ b0 = 0x80 + opcode f).
Proof.
  unfold writeFrame_header. intros Hw.
  destruct (match mask f with Some m => bool_decide (length m ≠ 4%nat) | None => false end);
    [done|].
  assert (exists tl, header = byte_wrap (Z.lor 0x80 (opcode f)) :: tl) as [tl ->].
  { injection Hw as <-. repeat case_decide; cbn [Uint8Array_of map app];
      destruct (mask f); cbn [app]; eauto. }
  eexists _, _. split; [done|]. split; [done|]. split.
  - unfold byte_wrap. change 256 with (2 ^ 8).
    rewrite Z.mod_pow2_bits_low by lia. rewrite Z.lor_spec. done.
  - intros Hop. rewrite lor_128 by lia.
    rewrite byte_wrap_id by (unfold is_byte; lia). split; [|done].
    apply (byte0_fields true (opcode f) Hop).
Qed.

Lemma writeFrame_byte0_witness :
  exists b0 tl,
    [0x81; 0x00] = b0 :: tl
    /\ b0 = byte_wrap (Z.lor 0x80 OpCode.TextFrame)
    /\ Z.testbit b0 7 = true
    /\ (0 <= OpCode.TextFrame < 16 -> Z.land b0 0x0f = OpCode.TextFrame /\ b0 = 0x80 + OpCode.TextFrame).
Proof.
  apply (writeFrame_byte0 (mkFrame false OpCode.TextFrame None []) [0x81; 0x00]).
  reflexivity.
Defined.

(** C3.  For every valid frame of 65535 payload bytes, [writeFrame] writes
    the indicator 127 and the length in 8 bytes, not the indicator 126 and
    2 bytes. *)
Theorem writeFrame_length_65535 (f : WebSocketFrame) :
  frame_ok f ->
  Z.of_nat (length (payload f)) = 65535 ->
  exists tl,
    writeFrame_header f
    = Ret ([0x80 + opcode f; (if mask f is Some _ then 0x80 else 0) + 127;
            0; 0; 0; 0; 0; 0; 0xff; 0xff] ++ tl).
Proof.
  intros Hok HL. rewrite (writeFrame_header_layout f Hok), HL.
  eexists. reflexivity.
Qed.

Lemma bytes_replicate (n : nat) (b : Z) : is_byte b -> bytes (replicate n b).
Proof. intros Hb. unfold bytes. apply Forall_replicate. done. Qed.

Lemma writeFrame_length_65535_witness :
  exists tl,
    writeFrame_header (mkFrame true OpCode.BinaryFrame None (replicate (Z.to_nat 65535) 0))
    = Ret ([0x80 + OpCode.BinaryFrame; 0 + 127; 0; 0; 0; 0; 0; 0; 0xff; 0xff] ++ tl).
Proof.
  apply (writeFrame_length_65535
           (mkFrame true OpCode.BinaryFrame None (replicate (Z.to_nat 65535) 0))).
  - unfold frame_ok, OpCode.BinaryFrame. cbn [opcode payload mask].
    split; [lia|]. split; [apply bytes_replicate; unfold is_byte; lia|]. intros m [=].
  - cbn [payload]. rewrite length_replicate. lia.
Defined.

(** The three forms of the length field as [writeFrame] chooses them: the
    length itself below 126, the indicator 126 and 2 bytes from 126 up to
    65534, the indicator 127 and 8 bytes from 65535 on. *)
Lemma writeFrame_length_forms (f : WebSocketFrame) :
  frame_ok f ->
  let n := Z.of_nat (length (payload f)) in
  let hasMask := if mask f is Some _ then 0x80 else 0 in
  let tl := default [] (mask f) ++ unmask (payload f) (mask f) in
  (n < 126 -> writeFrame_header f = Ret ([0x80 + opcode f; hasMask + n] ++ tl))
  /\ (126 <= n < 65535 ->
      writeFrame_header f
      = Ret ([0x80 + opcode f; hasMask + 126; n / 256; n mod 256] ++ tl)
      /\ be_value [n / 256; n mod 256] = n)
  /\ (65535 <= n ->
      writeFrame_header f
      = Ret ([0x80 + opcode f; hasMask + 127] ++ sliceLongToBytes n ++ tl)
      /\ (n < 2 ^ 64 -> be_value (sliceLongToBytes n) = n)).
Proof.
  intros Hok n hasMask tl. rewrite (writeFrame_header_layout f Hok).
  fold n. unfold length_field. split; [|split]; intros Hn.
  - rewrite decide_True by lia. done.
  - rewrite decide_False, decide_True by lia. split; [done|].
    pose proof (be_value_length_field n) as H. unfold length_field in H.
    rewrite decide_False, decide_True in H by lia.
    assert (65535 < 2 ^ 64) by reflexivity.
    destruct H as [H|[H|H]]; [lia|lia|tauto|lia].
  - rewrite !decide_False by lia. split; [done|].
    intros ?. apply be_value_sliceLongToBytes. lia.
Qed.

(** ** The send queue and the closed flag *)

Lemma ensureSocketClosed_isClosed (ws : WebSocketImpl) :
  _isClosed (ensureSocketClosed ws) = true.
Proof. unfold ensureSocketClosed. by destruct (_isClosed ws) eqn:E. Qed.

Lemma ensureSocketClosed_closed (ws : WebSocketImpl) :
  _isClosed ws = true -> ensureSocketClosed ws = ws.
Proof. unfold ensureSocketClosed. by intros ->. Qed.

Lemma ensureSocketClosed_out (ws : WebSocketImpl) :
  bufWriter (ensureSocketClosed ws) = bufWriter ws.
Proof. unfold ensureSocketClosed. by destruct (_isClosed ws). Qed.

Lemma enqueue_closed (fr : WebSocketFrame) (ws : WebSocketImpl) :
  _isClosed ws = true -> enqueue fr ws = (Throw ConnectionReset, ws).
Proof. unfold enqueue. by intros ->. Qed.

Lemma settle_fresh (ds : list (option (Res unit))) (r : Res unit) :
  settle (length ds) r (ds ++ [None]) = ds ++ [Some r].
Proof.
  unfold settle. rewrite list_lookup_middle by done.
  rewrite insert_app_r_alt by lia. by rewrite Nat.sub_diag.
Qed.

Lemma settle_length (i : nat) (r : Res unit) (ds : list (option (Res unit))) :
  length (settle i r ds) = length ds.
Proof. unfold settle. repeat case_match; rewrite ?length_insert; reflexivity. Qed.

Lemma settle_pending (i : nat) (r : Res unit) (ds : list (option (Res unit))) :
  ds !! i = Some None -> settle i r ds !! i = Some (Some r).
Proof.
  intros H. unfold settle. rewrite H. apply list_lookup_insert_eq.
  by apply lookup_lt_Some in H.
Qed.

Lemma settle_other (i j : nat) (r : Res unit) (ds : list (option (Res unit))) :
  i <> j -> settle i r ds !! j = ds !! j.
Proof.
  intros H. unfold settle. repeat case_match; try reflexivity.
  by apply list_lookup_insert_ne.
Qed.

Lemma settle_settled (i j : nat) (r r' : Res unit) (ds : list (option (Res unit))) :
  ds !! j = Some (Some r') -> settle i r ds !! j = Some (Some r').
Proof.
  intros H. destruct (decide (i = j)) as [->|Hne].
  - unfold settle. by rewrite H.
  - by rewrite settle_other.
Qed.

Lemma dequeue_loop_nil (n : nat) (ws : WebSocketImpl) :
  sendQueue ws = [] -> dequeue_loop n ws = ws.
Proof. intros H. destruct n; cbn; [done|]. by rewrite H. Qed.

Lemma writeFrame_working (fr : WebSocketFrame) (w : BufWriter) :
  broken w = false ->
  writeFrame fr w = (write_result fr, mkWriter (out w ++ frame_wire fr) false).
Proof.
  intros Hw. unfold writeFrame, write_result, frame_wire, write_flush.
  destruct (writeFrame_header fr) as [h|e]; rewrite ?Hw.
  - reflexivity.
  - rewrite app_nil_r. destruct w; cbn in *; congruence.
Qed.

(** What [writeFrame] throws: the exception of the writer, or the one of
    the mask check. *)
Lemma writeFrame_error (fr : WebSocketFrame) (w : BufWriter) (e : Error) :
  (writeFrame fr w).1 = Throw e ->
  (e = WriterFailed /\ broken w = true)
  \/ (exists m, mask fr = Some m /\ length m <> 4%nat /\ e = InvalidMask (length m)).
Proof.
  unfold writeFrame, writeFrame_header, write_flush.
  destruct (mask fr) as [m|] eqn:Hm; cbn [default].
  - case_bool_decide.
    + intros [= <-]. right. by exists m.
    + destruct (broken w); intros [= <-]. by left.
  - destruct (broken w); intros [= <-]. by left.
Qed.

Lemma written_cons (e : Entry) (q : list Entry) (w : BufWriter) :
  written (e :: q) w = written q (writeFrame (frame e) w).2.
Proof. reflexivity. Qed.

Lemma written_working (q : list Entry) (w : BufWriter) :
  broken w = false ->
  written q w = mkWriter (out w ++ concat (map (fun e => frame_wire (frame e)) q)) false.
Proof.
  revert w. induction q as [|e q IH]; intros w Hw.
  - cbn. rewrite app_nil_r. destruct w; cbn in *; congruence.
  - rewrite written_cons, writeFrame_working by done. cbn [snd map concat].
    rewrite IH by done. cbn [out]. by rewrite app_assoc.
Qed.

Lemma written_broken (q : list Entry) (w : BufWriter) :
  broken w = true -> written q w = w.
Proof.
  intros Hw. induction q as [|e q IH]; [done|]. rewrite written_cons.
  assert ((writeFrame (frame e) w).2 = w) as ->; [|exact IH].
  unfold writeFrame, write_flush. destruct (writeFrame_header (frame e)); [|done].
  by rewrite Hw.
Qed.

(** The [finally] chain of [dequeue] on an open socket, seen from the last
    entry of the queue: every entry before it is written, then the entry
    itself, and its promise is settled with the outcome of its own
    write. *)
Lemma dequeue_loop_last (q : list Entry) (e : Entry) (n : nat) (ws : WebSocketImpl) :
  sendQueue ws = q ++ [e] ->
  _isClosed ws = false ->
  (length q < n)%nat ->
  d e ∉ map d q ->
  deferreds ws !! d e = Some None ->
  exists ds,
    dequeue_loop n ws
    = mkSock (conn_closed ws) (sock_mask ws) (bufReader ws)
             (writeFrame (frame e) (written q (bufWriter ws))).2 [] false ds
    /\ ds !! d e = Some (Some (writeFrame (frame e) (written q (bufWriter ws))).1)
    /\ length ds = length (deferreds ws)
    /\ (q = [] -> ds = settle (d e) (writeFrame (frame e) (bufWriter ws)).1 (deferreds ws)).
Proof.
  revert n ws. induction q as [|e0 q IH]; intros n ws Hq Hopen Hn Hd Hp;
    (destruct n as [|n]; [cbn in Hn; lia|]); cbn [dequeue_loop]; rewrite Hq, Hopen;
    cbn [app tail]; rewrite ?written_cons.
  - change (written [] (bufWriter ws)) with (bufWriter ws).
    destruct (writeFrame (frame e) (bufWriter ws)) as [r w]. cbn [fst snd].
    rewrite dequeue_loop_nil by done. eexists. split; [reflexivity|].
    split; [by apply settle_pending|]. split; [apply settle_length|done].
  - destruct (writeFrame (frame e0) (bufWriter ws)) as [r0 w0] eqn:Hw0. cbn [snd].
    cbn [map] in Hd. apply not_elem_of_cons in Hd as [Hne Hd].
    destruct (IH n (mkSock (conn_closed ws) (sock_mask ws) (bufReader ws) w0 (q ++ [e])
                           false (settle (d e0) r0 (deferreds ws))))
      as (ds & -> & Hds & Hlen & _);
      [done|done|cbn in Hn; lia|done|cbn [deferreds]; by rewrite settle_other|].
    cbn [conn_closed sock_mask bufReader bufWriter deferreds] in *.
    exists ds. split; [done|]. split; [done|]. split; [by rewrite Hlen, settle_length|done].
Qed.

(** [promises_made] is an invariant of the socket: it holds when the queue
    is empty, as in a socket that has just been made, and every method and
    every turn of the inbound loop keeps it. *)
Lemma promises_made_nil (ws : WebSocketImpl) : sendQueue ws = [] -> promises_made ws.
Proof. intros H. unfold promises_made. rewrite H. constructor. Qed.

Lemma dequeue_loop_promises (n : nat) (ws : WebSocketImpl) :
  promises_made ws -> promises_made (dequeue_loop n ws).
Proof.
  revert ws. induction n as [|n IH]; intros ws Hpm; [done|].
  cbn [dequeue_loop]. destruct (sendQueue ws) as [|entry q] eqn:Hq; [done|].
  destruct (_isClosed ws); [done|].
  destruct (writeFrame (frame entry) (bufWriter ws)) as [r w]. apply IH.
  unfold promises_made in *. cbn [sendQueue deferreds]. rewrite settle_length.
  rewrite Hq in *. cbn [tail]. by inversion Hpm.
Qed.

Lemma enqueue_promises (fr : WebSocketFrame) (ws : WebSocketImpl) :
  promises_made ws -> promises_made (enqueue fr ws).2.
Proof.
  intros Hpm. unfold enqueue. destruct (_isClosed ws); [done|]. cbn [snd].
  set (ws1 := mkSock _ _ _ _ _ _ _).
  assert (promises_made ws1) as H1.
  { unfold promises_made, ws1 in *. cbn [sendQueue deferreds].
    rewrite length_app. cbn [length]. apply Forall_app. split.
    - eapply Forall_impl; [exact Hpm|]. cbn. intros; lia.
    - constructor; [cbn; lia|constructor]. }
  case_decide; [by apply dequeue_loop_promises|done].
Qed.

Lemma ensureSocketClosed_promises (ws : WebSocketImpl) :
  promises_made ws -> promises_made (ensureSocketClosed ws).
Proof.
  intros Hpm. unfold ensureSocketClosed. destruct (_isClosed ws); [done|].
  by apply promises_made_nil.
Qed.

Lemma await_enqueue_promises (fr : WebSocketFrame) (ws : WebSocketImpl) :
  promises_made ws -> promises_made (await_enqueue fr ws).2.
Proof.
  intros Hpm. unfold await_enqueue. pose proof (enqueue_promises fr ws Hpm) as H.
  destruct (enqueue fr ws) as [[i|e] ws1]; [|done]. by apply dequeue_loop_promises.
Qed.

Lemma close_promises (encode : string -> list Z) (code : Z) (reason : option string)
    (ws : WebSocketImpl) :
  promises_made ws -> promises_made (close encode code reason ws).2.
Proof.
  intros Hpm. unfold close.
  pose proof (await_enqueue_promises
                (mkFrame true OpCode.Close (sock_mask ws) (close_payload encode code reason))
                ws Hpm) as H.
  destruct (await_enqueue _ ws) as [[[]|e|] ws1]; cbn [snd] in *;
    first [done|by apply ensureSocketClosed_promises].
Qed.

Lemma iteration_promises (encode : string -> list Z) (decode : list Z -> string) (g : Inbound) :
  promises_made (sock g) -> promises_made (sock (iteration encode decode g).2).
Proof.
  intros Hpm. unfold iteration.
  destruct (readFrame (bufReader (sock g))) as [[fr rest]|e];
    [|by apply ensureSocketClosed_promises].
  cbv zeta. assert (promises_made (set_bufReader (sock g) rest)) as Hpm' by done.
  repeat case_decide.
  - destruct (isLastFrame _); [|done].
    by destruct (match Uint8Array_new _ with Ret _ => _ | Throw _ => _ end).
  - pose proof (close_promises encode
                  (Z.lor (Z.shiftl (at_or_0 (payload (unmasked fr)) 0) 8)
                         (at_or_0 (payload (unmasked fr)) 1))
                  (Some (decode (drop 2 (payload (unmasked fr)))))
                  _ Hpm') as Hc.
    by destruct (close _ _ _ _) as [[[]|e|] ws1].
  - pose proof (await_enqueue_promises
                  (mkFrame true OpCode.Pong None (payload (unmasked fr))) _ Hpm') as Hc.
    by destruct (await_enqueue _ _) as [[[]|e|] ws1].
  - done.
  - done.
Qed.

(** An awaited send on an open socket: the frames in flight are written,
    then the frame, and the caller gets the outcome of its own write. *)
Lemma await_enqueue_inflight (fr : WebSocketFrame) (ws : WebSocketImpl) :
  _isClosed ws = false ->
  promises_made ws ->
  exists ds,
    await_enqueue fr ws
    = (match (writeFrame fr (written (sendQueue ws) (bufWriter ws))).1 with
       | Ret _ => Done tt
       | Throw e => Failed e
       end,
       mkSock (conn_closed ws) (sock_mask ws) (bufReader ws)
              (writeFrame fr (written (sendQueue ws) (bufWriter ws))).2 [] false ds)
    /\ ds !! length (deferreds ws)
       = Some (Some (writeFrame fr (written (sendQueue ws) (bufWriter ws))).1)
    /\ length ds = S (length (deferreds ws))
    /\ (sendQueue ws = [] ->
        ds = deferreds ws ++ [Some (writeFrame fr (bufWriter ws)).1]).
Proof.
  intros Hopen Hpm. unfold await_enqueue, enqueue. rewrite Hopen.
  set (e := mkEntry (length (deferreds ws)) fr).
  set (ws1 := mkSock (conn_closed ws) (sock_mask ws) (bufReader ws) (bufWriter ws)
                     (sendQueue ws ++ [e]) false (deferreds ws ++ [None])).
  destruct (dequeue_loop_last (sendQueue ws) e (length (sendQueue ws ++ [e])) ws1)
    as (ds & Hdq & Hds & Hlen & Hnil).
  { done. } { done. } { rewrite length_app. cbn. lia. }
  { intros Hin. apply list_elem_of_fmap in Hin as (e' & Heq & Hin).
    unfold promises_made in Hpm. rewrite Forall_forall in Hpm.
    specialize (Hpm e' Hin). cbn in Heq. lia. }
  { cbn. by apply list_lookup_middle. }
  change (conn_closed ws1) with (conn_closed ws) in Hdq.
  change (sock_mask ws1) with (sock_mask ws) in Hdq.
  change (bufReader ws1) with (bufReader ws) in Hdq.
  change (bufWriter ws1) with (bufWriter ws) in Hdq, Hds, Hnil.
  change (frame e) with fr in Hdq, Hds, Hnil.
  change (d e) with (length (deferreds ws)) in Hds, Hnil.
  change (deferreds ws1) with (deferreds ws ++ [None]) in Hlen, Hnil.
  assert (dequeue ws1 = mkSock (conn_closed ws) (sock_mask ws) (bufReader ws)
            (writeFrame fr (written (sendQueue ws) (bufWriter ws))).2 [] false ds) as Hd1
    by exact Hdq.
  assert (dequeue (if decide (length (sendQueue ws1) = 1%nat) then dequeue ws1 else ws1)
          = dequeue ws1) as Hdd.
  { case_decide; [|done]. unfold dequeue at 1. rewrite dequeue_loop_nil; [done|].
    by rewrite Hd1. }
  exists ds. cbv zeta. rewrite Hdd, Hd1. unfold await. cbn [deferreds]. rewrite Hds.
  split; [by destruct (writeFrame fr _).1 as [[]|]|]. split; [done|].
  split; [rewrite Hlen, length_app; cbn; lia|].
  intros Hq. rewrite (Hnil Hq). by rewrite settle_fresh.
Qed.

(** On an open socket with nothing in flight, [enqueue] writes the frame at
    once and the promise it returns is settled with the outcome of the
    write. *)
Lemma await_enqueue_open (fr : WebSocketFrame) (ws : WebSocketImpl) :
  _isClosed ws = false ->
  sendQueue ws = [] ->
  await_enqueue fr ws
  = let '(r, w) := writeFrame fr (bufWriter ws) in
    (match r with Ret _ => Done tt | Throw e => Failed e end,
     mkSock (conn_closed ws) (sock_mask ws) (bufReader ws) w [] false
            (deferreds ws ++ [Some r])).
Proof.
  intros Hopen Hq.
  destruct (await_enqueue_inflight fr ws Hopen) as (ds & -> & _ & _ & Hds).
  { unfold promises_made. rewrite Hq. constructor. }
  rewrite (Hds Hq), Hq. cbn [written foldl].
  by destruct (writeFrame fr (bufWriter ws)) as [r w].
Qed.

Section SocketProperties.

Variable encode : string -> list Z.

(** Once [close] has completed, with or without an exception, the socket is
    closed. *)
Lemma close_completed_isClosed (code : Z) (reason : option string)
    (ws ws' : WebSocketImpl) (r : Awaited unit) :
  close encode code reason ws = (r, ws') -> r <> Pending -> _isClosed ws' = true.
Proof.
  unfold close. destruct (await_enqueue _ ws) as [[[]|e|] ws1]; intros [= <- <-] Hr;
    try done; apply ensureSocketClosed_isClosed.
Qed.

Lemma close_closed (code : Z) (reason : option string) (ws : WebSocketImpl) :
  _isClosed ws = true -> close encode code reason ws = (Failed ConnectionReset, ws).
Proof.
  intros Hc. unfold close, await_enqueue. rewrite enqueue_closed by done.
  by rewrite ensureSocketClosed_closed.
Qed.

(** C4.  Once [close] has completed on a socket, [send], [ping] and
    [enqueue] throw [ConnectionReset] and leave the socket as it is; a
    second [close] writes nothing and changes nothing either, but it is
    rejected with [ConnectionReset] as well. *)
Theorem closed_socket_rejects (code : Z) (reason : option string)
    (ws ws' : WebSocketImpl) (r : Awaited unit) :
  close encode code reason ws = (r, ws') ->
  r <> Pending ->
  (forall data, send encode data ws' = (Throw ConnectionReset, ws'))
  /\ (forall data, ping encode data ws' = (Throw ConnectionReset, ws'))
  /\ (forall fr, enqueue fr ws' = (Throw ConnectionReset, ws'))
  /\ (forall code' reason',
        close encode code' reason' ws' = (Failed ConnectionReset, ws')).
Proof.
  intros Hclose Hr.
  pose proof (close_completed_isClosed _ _ _ _ _ Hclose Hr) as Hc.
  repeat split; intros; unfold send, ping;
    auto using enqueue_closed, close_closed.
Qed.

End SocketProperties.

(** ** The inbound loop *)

Lemma joined_app (frs1 frs2 : list WebSocketFrame) :
  joined (frs1 ++ frs2) = joined frs1 ++ joined frs2.
Proof. unfold joined. by rewrite map_app, concat_app. Qed.

Lemma Uint8Array_set_zeros (pre p : list Z) (n : nat) :
  Uint8Array_set (pre ++ replicate (length p + n) 0) p (length pre)
  = Ret ((pre ++ p) ++ replicate n 0).
Proof.
  unfold Uint8Array_set. rewrite decide_True.
  2: { rewrite length_app, length_replicate. lia. }
  f_equal. rewrite <- (Nat.add_0_r (length pre)), list_inserts_app_r.
  rewrite replicate_add, list_inserts_0_r by (by rewrite length_replicate).
  by rewrite <- app_assoc.
Qed.

Lemma concat_frames_zeros (frs : list WebSocketFrame) (pre : list Z) :
  concat_frames frs (pre ++ replicate (length (joined frs)) 0) (length pre)
  = Ret (pre ++ joined frs).
Proof.
  revert pre. induction frs as [|fr frs IH]; intros pre.
  - cbn. by rewrite app_nil_r.
  - change (joined (fr :: frs)) with (payload fr ++ joined frs).
    rewrite length_app. cbn [concat_frames]. rewrite Uint8Array_set_zeros.
    rewrite <- length_app, IH. by rewrite <- app_assoc.
Qed.

(** With [payloadsLength] the total length of the payloads in [frames], the
    buffer the loop fills is the payloads one after the other. *)
Lemma concat_frames_joined (frs : list WebSocketFrame) :
  match Uint8Array_new (Z.of_nat (length (joined frs))) with
  | Ret concat => concat_frames frs concat 0
  | Throw e => Throw e
  end = Ret (joined frs).
Proof.
  unfold Uint8Array_new. rewrite decide_False by lia. rewrite Nat2Z.id.
  apply (concat_frames_zeros frs []).
Qed.

Lemma readFrame_opcode_any (b0 : Z) (tl : list Z) (fr : WebSocketFrame) (rest : list Z)
    (op : Z) :
  readFrame (b0 :: tl) = Ret (fr, rest) ->
  0 <= op < 16 ->
  opcode fr = Z.land b0 0x0f
  /\ readFrame ((if isLastFrame fr then 128 else 0) + op :: tl)
     = Ret (mkFrame (isLastFrame fr) op (mask fr) (payload fr), rest).
Proof.
  intros Hr Hop. destruct (byte0_fields (isLastFrame fr) op Hop) as [E1 E2].
  unfold readFrame in *. cbn [readByte] in *. rewrite E1, E2. clear E1 E2.
  repeat case_match; simplify_eq; cbn in *; try done; try lia.
Qed.

Lemma set_bufReader_id (ws : WebSocketImpl) : set_bufReader ws (bufReader ws) = ws.
Proof. by destruct ws. Qed.

Lemma reads_app (buf : list Z) (frs1 frs2 : list WebSocketFrame) (rest : list Z) :
  reads buf (frs1 ++ frs2) rest <-> exists mid, reads buf frs1 mid /\ reads mid frs2 rest.
Proof.
  revert buf. induction frs1 as [|fr frs1 IH]; intros buf; cbn.
  - split.
    + intros H. exists buf. split; [constructor|done].
    + intros (mid & H1 & H2). by inversion H1; subst.
  - split.
    + intros H. inversion H as [|? ? buf' ? ? Hr Hrest]; subst.
      apply IH in Hrest as (mid & H1 & H2). exists mid. split; [|done].
      by econstructor.
    + intros (mid & H1 & H2). inversion H1 as [|? ? buf' ? ? Hr Hrest]; subst.
      econstructor; [done|]. apply IH. eauto.
Qed.

Section InboundProperties.

Variable encode : string -> list Z.
Variable decode : list Z -> string.

(** A data frame that is not final is appended to [frames]. *)
Lemma iteration_data_more (g : Inbound) (fr : WebSocketFrame) (rest : list Z) :
  readFrame (bufReader (sock g)) = Ret (fr, rest) ->
  data_opcode fr ->
  isLastFrame fr = false ->
  iteration encode decode g
  = ([], Continue,
     mkInbound (set_bufReader (sock g) rest) (frames g ++ [unmasked fr])
               (payloadsLength g + Z.of_nat (length (payload (unmasked fr))))).
Proof.
  intros Hr Hop Hfin. unfold iteration. rewrite Hr. cbv zeta.
  rewrite decide_True by exact Hop.
  change (isLastFrame (unmasked fr)) with (isLastFrame fr). by rewrite Hfin.
Qed.

(** A final data frame completes the message: one event, and the locals are
    reset. *)
Lemma iteration_data_last (g : Inbound) (fr : WebSocketFrame) (rest : list Z) :
  readFrame (bufReader (sock g)) = Ret (fr, rest) ->
  data_opcode fr ->
  isLastFrame fr = true ->
  payloadsLength g = Z.of_nat (length (joined (frames g))) ->
  iteration encode decode g
  = ([message_event decode (default 0 (opcode <$> head (frames g ++ [unmasked fr])))
                    (joined (frames g ++ [unmasked fr]))],
     Continue, mkInbound (set_bufReader (sock g) rest) [] 0).
Proof.
  intros Hr Hop Hfin Hlen. unfold iteration. rewrite Hr. cbv zeta.
  rewrite decide_True by exact Hop.
  change (isLastFrame (unmasked fr)) with (isLastFrame fr). rewrite Hfin.
  assert (payloadsLength g + Z.of_nat (length (payload (unmasked fr)))
          = Z.of_nat (length (joined (frames g ++ [unmasked fr])))) as ->.
  { rewrite joined_app, length_app, Hlen.
    change (joined [unmasked fr]) with (payload (unmasked fr) ++ []).
    rewrite app_nil_r. lia. }
  by rewrite concat_frames_joined.
Qed.

Lemma iterate_add (n m : nat) (g : Inbound) :
  iterate encode decode (n + m) g
  = match iterate encode decode n g with
    | (evs, Continue, g1) => let '(evs', st, g2) := iterate encode decode m g1 in (evs ++ evs', st, g2)
    | r => r
    end.
Proof.
  revert g. induction n as [|n IH]; intros g; cbn [Nat.add iterate].
  - by destruct (iterate _ _ m g) as [[evs' st] g2].
  - destruct (_isClosed (sock g)); [done|].
    destruct (iteration _ _ g) as [[evs st] g1]. destruct st; try done.
    rewrite IH. destruct (iterate _ _ n g1) as [[evs1 st1] g2].
    destruct st1; try done.
    destruct (iterate _ _ m g2) as [[evs2 st2] g3]. by rewrite app_assoc.
Qed.

(** Fragments that are not final pile up in [frames] without any event. *)
Lemma iterate_fragments (frs : list WebSocketFrame) (g : Inbound) (rest : list Z) :
  _isClosed (sock g) = false ->
  reads (bufReader (sock g)) frs rest ->
  Forall (fun fr => data_opcode fr /\ isLastFrame fr = false) frs ->
  iterate encode decode (length frs) g
  = ([], Continue,
     mkInbound (set_bufReader (sock g) rest) (frames g ++ map unmasked frs)
               (payloadsLength g + Z.of_nat (length (joined (map unmasked frs))))).
Proof.
  revert g. induction frs as [|fr frs IH]; intros g Hopen Hreads Hall.
  - inversion Hreads; subst. cbn. rewrite set_bufReader_id, app_nil_r, Z.add_0_r.
    by destruct g.
  - inversion Hreads as [|? ? buf' ? ? Hr Hrest]; subst.
    apply Forall_cons in Hall as [[Hop Hfin] Hall].
    cbn [length iterate]. rewrite Hopen.
    rewrite (iteration_data_more g fr buf' Hr Hop Hfin).
    rewrite IH; [|done|done|done]. cbn [sock frames payloadsLength].
    f_equal. f_equal.
    + by rewrite <- app_assoc.
    + change (joined (map unmasked (fr :: frs)))
        with (payload (unmasked fr) ++ joined (map unmasked frs)).
      rewrite length_app. lia.
Qed.

(** C7.  A message split into fragments, a first frame Text or Binary
    without FIN, middle frames Continuation without FIN and a last frame
    Continuation with FIN, read by a loop that has no message pending: the
    turns that read the fragments yield exactly one event, with the payloads
    (unmasked) one after the other in the order read, decoded as text when
    the first frame is a text frame and only then, raw otherwise; the loop
    goes on with nothing pending. *)
Theorem fragments_reassemble (g : Inbound) (first last : WebSocketFrame)
    (middle : list WebSocketFrame) (rest : list Z) :
  _isClosed (sock g) = false ->
  frames g = [] ->
  payloadsLength g = 0 ->
  reads (bufReader (sock g)) (first :: middle ++ [last]) rest ->
  opcode first = OpCode.TextFrame \/ opcode first = OpCode.BinaryFrame ->
  isLastFrame first = false ->
  Forall (fun fr => opcode fr = OpCode.Continue /\ isLastFrame fr = false) middle ->
  opcode last = OpCode.Continue ->
  isLastFrame last = true ->
  let content := joined (map unmasked (first :: middle ++ [last])) in
  iterate encode decode (length (first :: middle ++ [last])) g
  = ([if decide (opcode first = OpCode.TextFrame)
      then EvString (decode content) else EvBytes content],
     Continue, mkInbound (set_bufReader (sock g) rest) [] 0).
Proof.
  intros Hopen Hfr Hlen Hreads Hfirst Hfin1 Hmid Hlast Hfin2 content.
  change (first :: middle ++ [last]) with ((first :: middle) ++ [last]) in *.
  apply reads_app in Hreads as (mid & Hinit & Hl).
  inversion Hl as [|? ? buf' ? ? Hr Hnil]; subst. inversion Hnil; subst.
  rewrite length_app, iterate_add.
  rewrite (iterate_fragments (first :: middle) g mid Hopen Hinit).
  2: { constructor.
       - split; [|done]. unfold data_opcode. tauto.
       - eapply Forall_impl; [exact Hmid|]. intros fr [Ho Hf]. split; [|done].
         unfold data_opcode. tauto. }
  cbn [length iterate sock _isClosed set_bufReader]. rewrite Hopen.
  rewrite (iteration_data_last _ last rest);
    cbn [sock set_bufReader bufReader frames payloadsLength].
  - rewrite Hfr. cbn [app map head fmap option_fmap option_map default].
    change (opcode (unmasked first)) with (opcode first).
    unfold message_event. subst content.
    rewrite map_app. cbn [map].
    change (unmasked first :: map unmasked middle ++ [unmasked last])
      with ((unmasked first :: map unmasked middle) ++ [unmasked last]).
    reflexivity.
  - exact Hr.
  - unfold data_opcode. tauto.
  - done.
  - rewrite Hfr, Hlen. cbn [app]. lia.
Qed.

(** C6.  While a message is pending, a Text or Binary frame is taken like a
    Continuation frame: without FIN its unmasked payload is appended to the
    pending fragments, with FIN it completes the message, whose kind is the
    one of the first pending fragment; no error is raised and the loop goes
    on. *)
Theorem data_frame_mid_message (g : Inbound) (fr : WebSocketFrame) (rest : list Z)
    (pending : WebSocketFrame) (more : list WebSocketFrame) :
  frames g = pending :: more ->
  payloadsLength g = Z.of_nat (length (joined (frames g))) ->
  readFrame (bufReader (sock g)) = Ret (fr, rest) ->
  data_opcode fr ->
  iteration encode decode g
  = if isLastFrame fr
    then ([message_event decode (opcode pending) (joined (frames g) ++ payload (unmasked fr))],
          Continue, mkInbound (set_bufReader (sock g) rest) [] 0)
    else ([], Continue,
          mkInbound (set_bufReader (sock g) rest) (frames g ++ [unmasked fr])
                    (payloadsLength g + Z.of_nat (length (payload (unmasked fr))))).
Proof.
  intros Hfr Hlen Hr Hop. destruct (isLastFrame fr) eqn:Hfin.
  - rewrite (iteration_data_last g fr rest Hr Hop Hfin Hlen).
    rewrite joined_app. change (joined [unmasked fr]) with (payload (unmasked fr) ++ []).
    rewrite app_nil_r, Hfr. reflexivity.
  - apply (iteration_data_more g fr rest Hr Hop Hfin).
Qed.

(** C10.  [readFrame] takes the low 4 bits of byte 0 as the opcode and
    accepts every value of them; a frame whose opcode is none of the six
    yields no event and no error, leaves [frames] and [payloadsLength] as
    they are and changes nothing in the socket but the position of the
    reader, and the loop reads the next frame. *)
Theorem unknown_opcode_ignored (g : Inbound) (b0 : Z) (tl : list Z)
    (fr : WebSocketFrame) (rest : list Z) :
  _isClosed (sock g) = false ->
  bufReader (sock g) = b0 :: tl ->
  readFrame (b0 :: tl) = Ret (fr, rest) ->
  ~ In (opcode fr) [OpCode.Continue; OpCode.TextFrame; OpCode.BinaryFrame;
                    OpCode.Close; OpCode.Ping; OpCode.Pong] ->
  opcode fr = Z.land b0 0x0f
  /\ (forall op, 0 <= op < 16 ->
       readFrame ((if isLastFrame fr then 128 else 0) + op :: tl)
       = Ret (mkFrame (isLastFrame fr) op (mask fr) (payload fr), rest))
  /\ iteration encode decode g
     = ([], Continue, mkInbound (set_bufReader (sock g) rest) (frames g) (payloadsLength g))
  /\ (forall n, iterate encode decode (S n) g
                = iterate encode decode n
                    (mkInbound (set_bufReader (sock g) rest) (frames g) (payloadsLength g))).
Proof.
  intros Hopen Hbuf Hr Hop.
  assert (iteration encode decode g
          = ([], Continue,
             mkInbound (set_bufReader (sock g) rest) (frames g) (payloadsLength g))) as Hit.
  { unfold iteration. rewrite Hbuf, Hr. cbv zeta.
    change (opcode (unmasked fr)) with (opcode fr). cbn [In] in Hop.
    unfold data_opcode. change (opcode (unmasked fr)) with (opcode fr).
    repeat (rewrite decide_False by (intuition congruence)). reflexivity. }
  split; [|split; [|split]].
  - apply (readFrame_opcode_any b0 tl fr rest 0 Hr). lia.
  - intros op Hrange. by apply (readFrame_opcode_any b0 tl fr rest op Hr).
  - exact Hit.
  - intros n. cbn [iterate]. rewrite Hopen, Hit.
    by destruct (iterate encode decode n _) as [[evs st] g2].
Qed.

Lemma writeFrame_header_accepts (fr : WebSocketFrame) :
  (forall m, mask fr = Some m -> length m = 4%nat) ->
  exists header, writeFrame_header fr = Ret header.
Proof.
  intros Hm. unfold writeFrame_header.
  assert ((if mask fr is Some m then bool_decide (length m ≠ 4%nat) else false) = false) as ->.
  { destruct (mask fr) as [m|] eqn:E; [|done].
    rewrite (Hm m eq_refl). by apply bool_decide_eq_false_2; intros []. }
  eauto.
Qed.

Lemma writeFrame_writes (fr : WebSocketFrame) (w : BufWriter) (header : list Z) :
  writeFrame_header fr = Ret header ->
  writeFrame fr w
  = if broken w then (Throw WriterFailed, w) else (Ret tt, mkWriter (out w ++ header) false).
Proof. intros H. unfold writeFrame, write_flush. by rewrite H. Qed.

(** [close] on an open socket with nothing in flight: the Close frame is
    written at once, and the socket is closed whatever the write came to. *)
Lemma close_open (code : Z) (reason : option string) (ws : WebSocketImpl) :
  _isClosed ws = false ->
  sendQueue ws = [] ->
  close encode code reason ws
  = let '(r, w) := writeFrame (mkFrame true OpCode.Close (sock_mask ws)
                                       (close_payload encode code reason)) (bufWriter ws) in
    (match r with Ret _ => Done tt | Throw e => Failed e end,
     mkSock true (sock_mask ws) (bufReader ws) w [] true (deferreds ws ++ [Some r])).
Proof.
  intros Hopen Hq. unfold close. rewrite await_enqueue_open by done.
  destruct (writeFrame _ (bufWriter ws)) as [[[]|e] w]; reflexivity.
Qed.


(** C5.  A Close frame read by the loop.  The status code is
    [payload[0] << 8 | payload[1]] and the reason the decoded text of the
    bytes from index 2 on: with at least 2 bytes of payload the code is the
    first two bytes big-endian; with an empty payload the code is 0 and the
    reason is the decoded text of no bytes.  The turn yields no other event
    than the close event with this code and reason, and it does yield it
    when the Close frame that [close] sends in return is written. *)
Theorem close_frame_event (g : Inbound) (fr : WebSocketFrame) (rest : list Z) :
  readFrame (bufReader (sock g)) = Ret (fr, rest) ->
  opcode fr = OpCode.Close ->
  let p := payload (unmasked fr) in
  let code := Z.lor (Z.shiftl (at_or_0 p 0) 8) (at_or_0 p 1) in
  let reason := decode (drop 2 p) in
  ((iteration encode decode g).1.1 = [EvClose code reason]
   \/ (iteration encode decode g).1.1 = [])
  /\ (_isClosed (sock g) = false ->
      sendQueue (sock g) = [] ->
      broken (bufWriter (sock g)) = false ->
      (forall m, sock_mask (sock g) = Some m -> length m = 4%nat) ->
      (iteration encode decode g).1 = ([EvClose code reason], Finished)
      /\ _isClosed (sock (iteration encode decode g).2) = true)
  /\ (forall b0 b1 tl, p = b0 :: b1 :: tl -> is_byte b0 -> is_byte b1 ->
        code = 256 * b0 + b1 /\ reason = decode tl)
  /\ (p = [] -> code = 0 /\ reason = decode []).
Proof.
  intros Hr Hop p code reason.
  assert (iteration encode decode g
          = match close encode code (Some reason) (set_bufReader (sock g) rest) with
            | (Done _, ws) =>
                ([EvClose code reason], Finished, mkInbound ws (frames g) (payloadsLength g))
            | (Failed e, ws) => ([], Raised e, mkInbound ws (frames g) (payloadsLength g))
            | (Pending, ws) => ([], Blocked, mkInbound ws (frames g) (payloadsLength g))
            end) as Hit.
  { unfold iteration. rewrite Hr. cbv zeta.
    change (opcode (unmasked fr)) with (opcode fr). rewrite Hop.
    rewrite decide_False by (unfold OpCode.Close, OpCode.TextFrame, OpCode.BinaryFrame,
                               OpCode.Continue; lia).
    rewrite decide_True by done. reflexivity. }
  split; [|split; [|split]].
  - rewrite Hit. destruct (close _ _ _ _) as [[[]|e|] ws]; cbn; tauto.
  - intros Hopen Hq Hw Hm. rewrite Hit, close_open by done.
    destruct (writeFrame_header_accepts
                (mkFrame true OpCode.Close (sock_mask (set_bufReader (sock g) rest))
                         (close_payload encode code (Some reason)))) as [header Hh];
      [exact Hm|].
    rewrite (writeFrame_writes _ _ header Hh). cbn [bufWriter set_bufReader].
    rewrite Hw. split; reflexivity.
  - intros b0 b1 tl Hp Hb0 Hb1. subst code reason. rewrite Hp. cbn [drop].
    change (at_or_0 (b0 :: b1 :: tl) 0) with b0.
    change (at_or_0 (b0 :: b1 :: tl) 1) with b1.
    split; [|done]. unfold is_byte in *.
    rewrite lor_shiftl_small by lia. change (2 ^ 8) with 256. lia.
  - intros Hp. subst code reason. rewrite Hp. done.
Qed.

End InboundProperties.

(** ** The handshake *)

Section HandshakeProperties.

Variable encode : string -> list Z.
Variable sha1_digest : string -> list Z.
Variable btoa : string -> string.

Lemma acceptable_false (req : ServerRequest) :
  headers req !! "sec-websocket-key" = None
  \/ headers req !! "sec-websocket-key" = Some ""
  \/ headers req !! "upgrade" = None
  \/ (exists u, headers req !! "upgrade" = Some u /\ toLowerCase u <> "websocket") ->
  acceptable req = false.
Proof.
  unfold acceptable. intros [H|[H|[H|(u & H & Hu)]]].
  - rewrite H. by repeat case_match.
  - rewrite H. by repeat case_match.
  - by rewrite H.
  - rewrite H. rewrite (bool_decide_eq_false_2 _ Hu). by rewrite orb_true_r.
Qed.

Lemma status_line_101 :
  match_status_line "HTTP/1.1 101 Switching Protocols" = Some ("HTTP/1.1", "101").
Proof. reflexivity. Qed.

(** C8.  For every key K the token is
    [btoa(String.fromCharCode(...sha1(K + "258EAFA5-E914-47DA-95CA-C5AB0DC85B11")))].
    The server puts exactly this value under [sec-websocket-accept] in the
    response it writes for an acceptable request with key K; the client that
    has sent the key K accepts the answer when the header it reads back is
    this value and throws otherwise.  A request without an [upgrade] header
    equal to websocket up to case, or without a non-empty
    [sec-websocket-key], is rejected and the writer is left as it was. *)
Theorem accept_token_agrees (req : ServerRequest) (K : string) (url : URL)
    (hs : gmap string string) (js : list nat) (w : BufWriter)
    (rh : gmap string string) :
  let token := btoa (fromCharCode (sha1_digest (K +:+ "258EAFA5-E914-47DA-95CA-C5AB0DC85B11"))) in
  createSecAccept sha1_digest btoa K = token
  /\ (acceptable req = true ->
      headers req !! "sec-websocket-key" = Some K ->
      broken (r_bufWriter req) = false ->
      let w' := mkWriter
                  (out (r_bufWriter req)
                   ++ encode ("HTTP/1.1 101 Switching Protocols" +:+ CRLF
                              +:+ "content-length: 0" +:+ CRLF
                              +:+ header_lines [("connection", "Upgrade");
                                                ("sec-websocket-accept", token);
                                                ("upgrade", "websocket")]
                              +:+ CRLF))
                  false in
      acceptWebSocket encode sha1_digest btoa req
      = (Ret (mkSock false None (r_bufReader req) w' [] false []), w'))
  /\ (createSecKey btoa js = K ->
      broken w = false ->
      (handshake encode sha1_digest btoa url hs js w
                 (Some "HTTP/1.1 101 Switching Protocols") (Some rh)).1
      = if decide (rh !! "sec-websocket-accept" = Some token)
        then Ret tt else Throw UnexpectedSecAccept)
  /\ (headers req !! "sec-websocket-key" = None
      \/ headers req !! "sec-websocket-key" = Some ""
      \/ headers req !! "upgrade" = None
      \/ (exists u, headers req !! "upgrade" = Some u /\ toLowerCase u <> "websocket") ->
      acceptWebSocket encode sha1_digest btoa req = (Throw NotAcceptable, r_bufWriter req)).
Proof.
  intros token. split; [reflexivity|]. split; [|split].
  - intros Hacc Hkey Hw w'. unfold acceptWebSocket. rewrite Hacc, Hkey.
    unfold writeResponse_101, write_flush. rewrite Hw. reflexivity.
  - intros HK Hw. unfold handshake, write_flush. rewrite Hw. cbn [fst].
    unfold handshake_response. rewrite status_line_101, HK.
    cbn [negb orb bool_decide].
    rewrite (bool_decide_eq_true_2 ("HTTP/1.1" = "HTTP/1.1")) by done.
    rewrite (bool_decide_eq_true_2 ("101" = "101")) by done.
    cbn [negb orb]. fold token.
    change (createSecAccept sha1_digest btoa K) with token.
    case_decide as Hd.
    + rewrite bool_decide_eq_false_2; [done|]. intros Hne. by apply Hne.
    + by rewrite bool_decide_eq_true_2.
  - intros Hbad. unfold acceptWebSocket. by rewrite (acceptable_false req Hbad).
Qed.

End HandshakeProperties.

(** ** The loop comes to an end *)

Lemma readFull_shrinks (n : nat) (buf p rest : list Z) :
  readFull n buf = Got p rest -> (length rest <= length buf)%nat.
Proof.
  unfold readFull. repeat case_decide; intros [= <- <-]; [done|].
  rewrite length_drop. lia.
Qed.

Lemma readBigEndian_shrinks (n : nat) (buf : list Z) (v : Z) (rest : list Z) :
  readBigEndian n buf = Got v rest -> (length rest <= length buf)%nat.
Proof.
  unfold readBigEndian. repeat case_decide; intros [= <- <-].
  rewrite length_drop. lia.
Qed.

(** A frame takes at least its two header bytes out of the reader. *)
Lemma readFrame_consumes (buf : list Z) (fr : WebSocketFrame) (rest : list Z) :
  readFrame buf = Ret (fr, rest) -> (length rest + 2 <= length buf)%nat.
Proof.
  unfold readFrame. destruct buf as [|b0 [|b1 buf]]; cbn [readByte]; try done.
  { by repeat case_match. }
  intros H. cbn [length].
  repeat match type of H with
         | context [match ?x with _ => _ end] => destruct x eqn:?; try done
         end.
  all: repeat case_decide; repeat case_match; simplify_eq.
  all: repeat match goal with
         | H : readFull _ _ = Got _ _ |- _ => apply readFull_shrinks in H
         | H : readShort _ = Got _ _ |- _ => apply readBigEndian_shrinks in H
         | H : readLong _ = Got _ _ |- _ => apply readBigEndian_shrinks in H
         end.
  all: lia.
Qed.

Lemma dequeue_loop_bufReader (n : nat) (ws : WebSocketImpl) :
  bufReader (dequeue_loop n ws) = bufReader ws.
Proof.
  revert ws. induction n as [|n IH]; intros ws; cbn [dequeue_loop]; [done|].
  destruct (sendQueue ws); [done|]. destruct (_isClosed ws); [done|].
  destruct (writeFrame _ _). by rewrite IH.
Qed.

Lemma await_enqueue_bufReader (fr : WebSocketFrame) (ws : WebSocketImpl) :
  bufReader (await_enqueue fr ws).2 = bufReader ws.
Proof.
  unfold await_enqueue, enqueue. destruct (_isClosed ws); [done|]. cbv zeta. cbn [snd].
  unfold dequeue at 1. rewrite dequeue_loop_bufReader.
  case_decide; [|done]. unfold dequeue. by rewrite dequeue_loop_bufReader.
Qed.

Section Termination.

Variable encode : string -> list Z.
Variable decode : list Z -> string.

Lemma iteration_Continue (g g' : Inbound) (evs : list WebSocketEvent) :
  iteration encode decode g = (evs, Continue, g') ->
  (length (bufReader (sock g')) + 2 <= length (bufReader (sock g)))%nat.
Proof.
  unfold iteration. destruct (readFrame (bufReader (sock g))) as [[fr rest]|e] eqn:Hr; [|done].
  apply readFrame_consumes in Hr. cbv zeta.
  pose proof (await_enqueue_bufReader (mkFrame true OpCode.Pong None (payload (unmasked fr)))
                (set_bufReader (sock g) rest)) as Hq.
  repeat case_match; intros [= <- <-]; cbn [sock bufReader set_bufReader] in *;
    simplify_eq; cbn [snd] in *; lia.
Qed.

Lemma iterate_ends (n : nat) (g : Inbound) :
  (length (bufReader (sock g)) < 2 * n)%nat ->
  (iterate encode decode n g).1.2 <> Continue.
Proof.
  revert g. induction n as [|n IH]; intros g Hn; [lia|]. cbn [iterate].
  destruct (_isClosed (sock g)); [done|].
  destruct (iteration encode decode g) as [[evs st] g1] eqn:Hit.
  destruct st; try done.
  apply iteration_Continue in Hit.
  specialize (IH g1 ltac:(lia)).
  by destruct (iterate encode decode n g1) as [[evs' st'] g2].
Qed.

(** The inbound loop always ends on a finite stream: [asyncIterator] runs
    enough turns to see it finish, throw, or block. *)
Theorem asyncIterator_ends (ws : WebSocketImpl) :
  (asyncIterator encode decode ws).1.2 <> Continue.
Proof. unfold asyncIterator. apply iterate_ends. cbn. lia. Qed.

Lemma iteration_lengths_agree (g : Inbound) :
  lengths_agree g -> lengths_agree (iteration encode decode g).2.
Proof.
  unfold lengths_agree, iteration. intros Hg.
  destruct (readFrame (bufReader (sock g))) as [[fr rest]|e]; [|done].
  cbv zeta. repeat case_match; cbn [snd frames payloadsLength]; try done.
  all: rewrite joined_app, length_app, Hg;
    change (joined [unmasked fr]) with (payload (unmasked fr) ++ []);
    rewrite app_nil_r; lia.
Qed.

(** A promise that is pending, or settled with the outcome of a write, is
    so after the queue has been written as well. *)
Lemma dequeue_loop_settles (n : nat) (ws : WebSocketImpl) (i : nat) :
  deferreds ws !! i = Some None
  \/ (exists fr w, deferreds ws !! i = Some (Some (writeFrame fr w).1)) ->
  deferreds (dequeue_loop n ws) !! i = Some None
  \/ (exists fr w, deferreds (dequeue_loop n ws) !! i = Some (Some (writeFrame fr w).1)).
Proof.
  revert ws. induction n as [|n IH]; intros ws H; cbn [dequeue_loop]; [done|].
  destruct (sendQueue ws) as [|e q]; [done|]. destruct (_isClosed ws); [done|].
  destruct (writeFrame (frame e) (bufWriter ws)) as [r w] eqn:Hw.
  apply IH. cbn [deferreds]. destruct H as [H|(f & w' & H)].
  - destruct (decide (d e = i)) as [<-|Hne].
    + right. exists (frame e), (bufWriter ws). rewrite Hw. by apply settle_pending.
    + left. by rewrite settle_other.
  - right. exists f, w'. by apply settle_settled.
Qed.

Lemma await_enqueue_errors (fr : WebSocketFrame) (ws ws' : WebSocketImpl) (e : Error) :
  await_enqueue fr ws = (Failed e, ws') ->
  e = ConnectionReset \/ e = WriterFailed \/ exists n, e = InvalidMask n.
Proof.
  destruct (_isClosed ws) eqn:Hc.
  { unfold await_enqueue. rewrite enqueue_closed by done. intros [= <- _]. by left. }
  unfold await_enqueue, enqueue. rewrite Hc. cbv zeta.
  set (ws1 := mkSock _ _ _ _ _ _ _).
  set (X := if decide (length (sendQueue ws1) = 1%nat) then dequeue ws1 else ws1).
  assert (deferreds ws1 !! length (deferreds ws) = Some None) as H1
    by (cbn; by apply list_lookup_middle).
  assert (deferreds X !! length (deferreds ws) = Some None
          \/ exists f w, deferreds X !! length (deferreds ws) = Some (Some (writeFrame f w).1))
    as HX.
  { unfold X. case_decide; [|by left]. apply dequeue_loop_settles. by left. }
  apply (dequeue_loop_settles (length (sendQueue X))) in HX.
  unfold dequeue, await. destruct HX as [->|(f & w & ->)]; [done|].
  destruct (writeFrame f w).1 as [[]|e'] eqn:He; [done|]. intros [= <- _].
  apply writeFrame_error in He as [[-> _]|(m & _ & _ & ->)]; eauto.
Qed.

(** The buffer the loop allocates for a complete message always has room
    for its fragments: no turn throws [RangeError]. *)
Lemma iteration_no_RangeError (g : Inbound) :
  lengths_agree g -> (iteration encode decode g).1.2 <> Raised RangeError.
Proof.
  intros Hg. unfold iteration.
  destruct (readFrame (bufReader (sock g))) as [[fr rest]|e] eqn:Hr; [|done].
  cbv zeta. case_decide as Hdata.
  - destruct (isLastFrame (unmasked fr)) eqn:Hfin; [|done].
    pose proof (iteration_data_last encode decode g fr rest Hr Hdata Hfin Hg) as Hit.
    unfold iteration in Hit. rewrite Hr in Hit. cbv zeta in Hit.
    rewrite decide_True, Hfin in Hit by done. rewrite Hit. done.
  - case_decide.
    { unfold close.
      destruct (await_enqueue _ _) as [[[]|e|] ws1] eqn:Hq; cbn; try done.
      apply await_enqueue_errors in Hq as [->|[->|[n ->]]]; done. }
    case_decide.
    { destruct (await_enqueue _ _) as [[[]|e|] ws1] eqn:Hq; cbn; try done.
      apply await_enqueue_errors in Hq as [->|[->|[n ->]]]; done. }
    by case_decide.
Qed.

Theorem iterate_no_RangeError (n : nat) (g : Inbound) :
  lengths_agree g -> (iterate encode decode n g).1.2 <> Raised RangeError.
Proof.
  revert g. induction n as [|n IH]; intros g Hg; [done|]. cbn [iterate].
  destruct (_isClosed (sock g)); [done|].
  pose proof (iteration_no_RangeError g Hg) as Hno.
  pose proof (iteration_lengths_agree g Hg) as Hg1.
  destruct (iteration encode decode g) as [[evs st] g1]. cbn [fst snd] in *.
  destruct st; try done.
  specialize (IH g1 Hg1).
  by destruct (iterate encode decode n g1) as [[evs' st'] g2].
Qed.

End Termination.

(** * Examples, witnesses and counterexamples *)

(** The two scenarios of the specification. *)
Example decode_hello :
  decode_frame [0x81; 0x05; 72; 101; 108; 108; 111]
  = Ret (mkFrame true OpCode.TextFrame None [72; 101; 108; 108; 111], []).
Proof. reflexivity. Qed.

Example encode_close_bye :
  writeFrame_header (mkFrame true OpCode.Close None (close_payload utf8_encode 1000 (Some "bye")))
  = Ret [0x88; 0x05; 0x03; 0xe8; 98; 121; 101].
Proof. reflexivity. Qed.

(** The sample handshake of RFC 6455, section 1.3. *)
Example sample_accept_token :
  createSecAccept sha1 Base64.encode "dGhlIHNhbXBsZSBub25jZQ==" = "s3pPLMBiTxaQ9kYGzzhZRbK+xOo=".
Proof. vm_compute. reflexivity. Qed.

(** C4, counterexample: the first [close] on a fresh socket succeeds and
    writes the Close frame; the second one writes nothing but it is rejected
    with [ConnectionReset], it is not a silent no-op. *)
Lemma second_close_is_rejected :
  let ws := fresh_socket [] false in
  let ws' := (close utf8_encode 1000 None ws).2 in
  (close utf8_encode 1000 None ws).1 = Done tt
  /\ out (bufWriter ws') = [0x88; 0x02; 0x03; 0xe8]
  /\ close utf8_encode 1000 None ws' = (Failed ConnectionReset, ws')
  /\ (close utf8_encode 1000 None ws').1 <> Done tt.
Proof. vm_compute. repeat split; discriminate. Qed.

Lemma closed_socket_rejects_witness :
  let ws' := mkSock true None [] (mkWriter [0x88; 0x02; 0x03; 0xe8] false) [] true
                    [Some (Ret tt)] in
  (forall data, send utf8_encode data ws' = (Throw ConnectionReset, ws'))
  /\ (forall data, ping utf8_encode data ws' = (Throw ConnectionReset, ws'))
  /\ (forall fr, enqueue fr ws' = (Throw ConnectionReset, ws'))
  /\ (forall code' reason',
        close utf8_encode code' reason' ws' = (Failed ConnectionReset, ws')).
Proof.
  apply (closed_socket_rejects utf8_encode 1000 None (fresh_socket [] false) _ (Done tt)).
  - reflexivity.
  - discriminate.
Defined.

(** C5, counterexample: a Close frame without payload gives a close event
    that carries the status code 0. *)
Lemma close_without_payload_has_code :
  exists ev,
    (asyncIterator utf8_encode ascii_decode (fresh_socket [0x88; 0x00] false)).1.1 = [ev]
    /\ ev = EvClose 0 ""
    /\ isWebSocketCloseEvent ev = true
    /\ event_code ev <> None.
Proof. exists (EvClose 0 ""). vm_compute. repeat split; discriminate. Qed.

Lemma close_frame_event_witness :
  let g := mkInbound (fresh_socket [0x88; 0x05; 0x03; 0xe8; 98; 121; 101] false) [] 0 in
  ((iteration utf8_encode ascii_decode g).1.1 = [EvClose 1000 "bye"]
   \/ (iteration utf8_encode ascii_decode g).1.1 = [])
  /\ (iteration utf8_encode ascii_decode g).1 = ([EvClose 1000 "bye"], Finished)
  /\ _isClosed (sock (iteration utf8_encode ascii_decode g).2) = true
  /\ (1000 = 256 * 3 + 232 /\ "bye" = ascii_decode [98; 121; 101]).
Proof.
  pose proof (close_frame_event utf8_encode ascii_decode
                (mkInbound (fresh_socket [0x88; 0x05; 0x03; 0xe8; 98; 121; 101] false) [] 0)
                (mkFrame true OpCode.Close None [0x03; 0xe8; 98; 121; 101]) []
                eq_refl eq_refl) as (H1 & H2 & H3 & _).
  split; [exact H1|].
  destruct (H2 eq_refl eq_refl eq_refl ltac:(intros m [=])) as [H2a H2b].
  split; [exact H2a|]. split; [exact H2b|].
  apply (H3 0x03 0xe8 [98; 121; 101] eq_refl); unfold is_byte; lia.
Defined.

(** C6, counterexample: a text frame that arrives while a message is
    pending is neither refused nor a failure; its payload is joined to the
    pending one and the loop goes on. *)
Lemma text_frame_mid_message_accumulated :
  iterate utf8_encode ascii_decode 2
          (mkInbound (fresh_socket [0x01; 1; 97; 0x81; 1; 98] false) [] 0)
  = ([EvString "ab"], Continue, mkInbound (fresh_socket [] false) [] 0).
Proof. reflexivity. Qed.

Lemma data_frame_mid_message_witness :
  let pending := mkFrame false OpCode.TextFrame None [97] in
  iteration utf8_encode ascii_decode
            (mkInbound (fresh_socket [0x82; 1; 98] false) [pending] 1)
  = ([EvString "ab"], Continue, mkInbound (fresh_socket [] false) [] 0).
Proof.
  exact (data_frame_mid_message utf8_encode ascii_decode
           (mkInbound (fresh_socket [0x82; 1; 98] false)
                      [mkFrame false OpCode.TextFrame None [97]] 1)
           (mkFrame true OpCode.BinaryFrame None [98]) []
           (mkFrame false OpCode.TextFrame None [97]) []
           eq_refl eq_refl eq_refl (or_intror (or_introl eq_refl))).
Defined.

Lemma fragments_reassemble_witness :
  iterate utf8_encode ascii_decode 3
          (mkInbound (fresh_socket [0x01; 2; 72; 101; 0x00; 1; 108; 0x80; 2; 108; 111; 0x8a; 0]
                                   false) [] 0)
  = ([EvString "Hello"], Continue, mkInbound (fresh_socket [0x8a; 0] false) [] 0).
Proof.
  apply (fragments_reassemble utf8_encode ascii_decode
           (mkInbound (fresh_socket [0x01; 2; 72; 101; 0x00; 1; 108; 0x80; 2; 108; 111; 0x8a; 0]
                                    false) [] 0)
           (mkFrame false OpCode.TextFrame None [72; 101])
           (mkFrame true OpCode.Continue None [108; 111])
           [mkFrame false OpCode.Continue None [108]] [0x8a; 0]).
  - reflexivity.
  - reflexivity.
  - reflexivity.
  - repeat (eapply reads_cons; [reflexivity|]). apply reads_nil.
  - left. reflexivity.
  - reflexivity.
  - repeat constructor.
  - reflexivity.
  - reflexivity.
Defined.



Lemma unknown_opcode_ignored_witness :
  let g := mkInbound (fresh_socket [0x83; 0x00; 0x8a; 0x00] false) [] 0 in
  let g' := mkInbound (fresh_socket [0x8a; 0x00] false) [] 0 in
  3 = Z.land 0x83 0x0f
  /\ (forall op, 0 <= op < 16 ->
       readFrame (128 + op :: [0x00; 0x8a; 0x00]) = Ret (mkFrame true op None [], [0x8a; 0x00]))
  /\ iteration utf8_encode ascii_decode g = ([], Continue, g')
  /\ (forall n, iterate utf8_encode ascii_decode (S n) g
                = iterate utf8_encode ascii_decode n g').
Proof.
  apply (unknown_opcode_ignored utf8_encode ascii_decode
           (mkInbound (fresh_socket [0x83; 0x00; 0x8a; 0x00] false) [] 0)
           0x83 [0x00; 0x8a; 0x00] (mkFrame true 3 None []) [0x8a; 0x00]).
  - reflexivity.
  - reflexivity.
  - reflexivity.
  - cbv. intuition discriminate.
Defined.

Lemma accept_token_agrees_witness :
  let K := "YWJjZGVmZ2hpamtsbW5vcA==" in
  let token := "en5EY9fYIrPHGucGLD6Dk/EXON4=" in
  let js := [0; 1; 2; 3; 4; 5; 6; 7; 8; 9; 10; 11; 12; 13; 14; 15]%nat in
  let good := mkRequest (<["upgrade" := "WebSocket"]> (<["sec-websocket-key" := K]> ∅))
                        [] (mkWriter [] false) in
  let bad := mkRequest (<["upgrade" := "websocket"]> ∅) [] (mkWriter [] false) in
  createSecAccept sha1 Base64.encode K = token
  /\ (acceptWebSocket utf8_encode sha1 Base64.encode good).1
     = Ret (mkSock false None [] (acceptWebSocket utf8_encode sha1 Base64.encode good).2
                   [] false [])
  /\ out (acceptWebSocket utf8_encode sha1 Base64.encode good).2
     = utf8_encode ("HTTP/1.1 101 Switching Protocols" +:+ CRLF
                    +:+ "content-length: 0" +:+ CRLF
                    +:+ "connection: Upgrade" +:+ CRLF
                    +:+ "sec-websocket-accept: " +:+ token +:+ CRLF
                    +:+ "upgrade: websocket" +:+ CRLF +:+ CRLF)
  /\ (handshake utf8_encode sha1 Base64.encode (mkURL "example.com" "/chat" "") ∅ js
                (mkWriter [] false) (Some "HTTP/1.1 101 Switching Protocols")
                (Some {["sec-websocket-accept" := token]})).1
     = Ret tt
  /\ acceptWebSocket utf8_encode sha1 Base64.encode bad
     = (Throw NotAcceptable, mkWriter [] false).
Proof.
  intros K token js good bad.
  destruct (accept_token_agrees utf8_encode sha1 Base64.encode good K
              (mkURL "example.com" "/chat" "") ∅ js (mkWriter [] false)
              {["sec-websocket-accept" := token]}) as (H1 & H2 & H3 & _).
  destruct (accept_token_agrees utf8_encode sha1 Base64.encode bad K
              (mkURL "example.com" "/chat" "") ∅ js (mkWriter [] false)
              {["sec-websocket-accept" := token]}) as (_ & _ & _ & H4).
  assert (Base64.encode (fromCharCode (sha1 (K +:+ "258EAFA5-E914-47DA-95CA-C5AB0DC85B11")))
          = token) as Htoken by (vm_compute; reflexivity).
  rewrite Htoken in H1, H2, H3.
  split; [exact H1|].
  specialize (H2 ltac:(vm_compute; reflexivity) ltac:(vm_compute; reflexivity) eq_refl).
  cbv zeta in H2. rewrite H2. cbn [fst snd out].
  split; [reflexivity|]. split; [vm_compute; reflexivity|].
  split.
  - rewrite (H3 ltac:(vm_compute; reflexivity) eq_refl).
    rewrite decide_True; [reflexivity|]. vm_compute. reflexivity.
  - apply H4. left. vm_compute. reflexivity.
Defined.

(** * Further properties of the code *)

(** ** The frame codec *)

(** X1.  Masking is its own inverse: for payload and key bytes, whatever
    the length of the key, [unmask] keeps the length, gives bytes again, and
    applied twice with the same key gives the payload back. *)
Theorem masking_is_self_inverse (p m : list Z) :
  bytes p -> bytes m ->
  length (unmask p (Some m)) = length p
  /\ bytes (unmask p (Some m))
  /\ unmask (unmask p (Some m)) (Some m) = p.
Proof.
  intros Hp Hm. split; [apply length_imap|]. split.
  - apply unmask_bytes; [done|]. by intros m' [= <-].
  - by apply unmask_unmask.
Qed.

Lemma masking_is_self_inverse_witness :
  length (unmask [72; 105] (Some [1; 2; 3; 4])) = 2%nat
  /\ bytes (unmask [72; 105] (Some [1; 2; 3; 4]))
  /\ unmask (unmask [72; 105] (Some [1; 2; 3; 4])) (Some [1; 2; 3; 4]) = [72; 105].
Proof.
  apply (masking_is_self_inverse [72; 105] [1; 2; 3; 4]);
    unfold bytes, is_byte; repeat constructor; lia.
Defined.

Lemma byte_cases (P : Z -> Prop) `{!forall b, Decision (P b)} :
  bool_decide (Forall P (seqZ 0 256)) = true -> forall b, is_byte b -> P b.
Proof.
  intros Hall b Hb. apply bool_decide_eq_true_1 in Hall.
  rewrite Forall_seqZ in Hall. apply Hall. unfold is_byte in Hb. lia.
Qed.

Lemma byte0_nibble (b : Z) :
  is_byte b ->
  (Z.shiftr b 4 = 8 /\ Z.land b 0x70 = 0 /\ Z.testbit b 7 = true)
  \/ (Z.shiftr b 4 = 0 /\ Z.land b 0x70 = 0 /\ Z.testbit b 7 = false)
  \/ (Z.shiftr b 4 <> 8 /\ Z.shiftr b 4 <> 0 /\ Z.land b 0x70 <> 0).
Proof.
  revert b.
  refine (byte_cases
            (fun b => (Z.shiftr b 4 = 8 /\ Z.land b 0x70 = 0 /\ Z.testbit b 7 = true)
                      \/ (Z.shiftr b 4 = 0 /\ Z.land b 0x70 = 0 /\ Z.testbit b 7 = false)
                      \/ (Z.shiftr b 4 <> 8 /\ Z.shiftr b 4 <> 0 /\ Z.land b 0x70 <> 0)) _).
  vm_compute. reflexivity.
Qed.

(** X2.  The reserved bits of byte 0.  A first byte with one of the bits
    0x40, 0x20, 0x10 set makes [readFrame] throw "invalid signature",
    whatever follows; when [readFrame] returns a frame the three bits were
    clear, [isLastFrame] is bit 0x80 and the opcode is the low 4 bits. *)
Theorem reserved_bits_rejected (b : Z) (tl : list Z) :
  is_byte b ->
  (Z.land b 0x70 <> 0 -> readFrame (b :: tl) = Throw InvalidSignature)
  /\ (forall fr rest, readFrame (b :: tl) = Ret (fr, rest) ->
        Z.land b 0x70 = 0 /\ isLastFrame fr = Z.testbit b 7 /\ opcode fr = Z.land b 0x0f).
Proof.
  intros Hb. unfold readFrame. cbn [readByte].
  destruct (byte0_nibble b Hb) as [(E & R & T)|[(E & R & T)|(E1 & E2 & R)]].
  - rewrite E, T. split; [done|]. intros fr rest H.
    rewrite decide_True in H by done.
    repeat case_match; simplify_eq; done.
  - rewrite E, T. split; [done|]. intros fr rest H.
    rewrite decide_False, decide_True in H by done.
    repeat case_match; simplify_eq; done.
  - rewrite !decide_False by done. split; [done|]. intros fr rest [=].
Qed.

Lemma reserved_bits_rejected_witness :
  (Z.land 0xc1 0x70 <> 0 -> readFrame (0xc1 :: [0x00]) = Throw InvalidSignature)
  /\ (forall fr rest, readFrame (0xc1 :: [0x00]) = Ret (fr, rest) ->
        Z.land 0xc1 0x70 = 0 /\ isLastFrame fr = Z.testbit 0xc1 7 /\ opcode fr = Z.land 0xc1 0x0f).
Proof. apply (reserved_bits_rejected 0xc1 [0x00]). unfold is_byte. lia. Defined.

Lemma readFull_more (n : nat) (buf p rest extra : list Z) :
  readFull n buf = Got p rest -> readFull n (buf ++ extra) = Got p (rest ++ extra).
Proof.
  unfold readFull. case_decide; [by intros [= <- <-]|].
  case_decide; [done|]. case_decide; [done|]. intros [= <- <-].
  rewrite decide_False by (by destruct buf).
  rewrite decide_False by (rewrite length_app; lia).
  by rewrite take_app_le, drop_app_le by lia.
Qed.

Lemma readBigEndian_more (n : nat) (buf : list Z) (v : Z) (rest extra : list Z) :
  readBigEndian n buf = Got v rest ->
  readBigEndian n (buf ++ extra) = Got v (rest ++ extra).
Proof.
  unfold readBigEndian. case_decide; [done|]. case_decide; [done|]. intros [= <- <-].
  rewrite decide_False by (by destruct buf).
  rewrite decide_False by (rewrite length_app; lia).
  by rewrite take_app_le, drop_app_le by lia.
Qed.

(** What [readFrame] returns depends only on the bytes it takes: bytes that
    arrive behind the frame stay behind it. *)
Lemma readFrame_more (buf : list Z) (fr : WebSocketFrame) (rest extra : list Z) :
  readFrame buf = Ret (fr, rest) -> readFrame (buf ++ extra) = Ret (fr, rest ++ extra).
Proof.
  unfold readFrame. destruct buf as [|b0 [|b1 buf]]; cbn [readByte app]; try done.
  { by repeat case_match. }
  intros H.
  destruct (if decide (Z.shiftr b0 4 = 8) then _ else _) as [fin|e]; [|done].
  destruct (if decide (Z.land b1 127 = 126) then readShort buf else _)
    as [len r1| |e] eqn:E1; try done.
  assert ((if decide (Z.land b1 127 = 126) then readShort (buf ++ extra)
           else if decide (Z.land b1 127 = 127) then readLong (buf ++ extra)
                else Got (Z.land b1 127) (buf ++ extra)) = Got len (r1 ++ extra)) as ->.
  { repeat case_decide; simplify_eq; try done; by apply readBigEndian_more. }
  destruct (if decide (Z.shiftr b1 7 ≠ 0) then _ else _) as [mk r2| |e] eqn:E2; try done.
  assert ((if decide (Z.shiftr b1 7 ≠ 0)
           then match readFull 4 (r1 ++ extra) with
                | Got m r => Got (Some m) r
                | Null => Null
                | Thrown e => Thrown e
                end
           else Got None (r1 ++ extra)) = Got mk (r2 ++ extra)) as ->.
  { case_decide; simplify_eq; [|done].
    destruct (readFull 4 r1) as [m r| |e] eqn:E3; simplify_eq.
    by rewrite (readFull_more _ _ _ _ extra E3). }
  destruct (readFull (Z.to_nat len) r2) as [p r3| |e] eqn:E3; try done.
  rewrite (readFull_more _ _ _ _ extra E3). by simplify_eq.
Qed.

Lemma readFull_Thrown (n : nat) (buf : list Z) (e : Error) :
  readFull n buf = Thrown e -> e = PartialReadError.
Proof. unfold readFull. repeat case_decide; by intros [= <-]. Qed.

Lemma readBigEndian_Thrown (n : nat) (buf : list Z) (e : Error) :
  readBigEndian n buf = Thrown e -> e = UnexpectedEof.
Proof. unfold readBigEndian. repeat case_decide; by intros [= <-]. Qed.

(** What [readFrame] throws: "invalid signature" only for a first byte whose
    high half is neither 0 nor 8, else a failure to read on. *)
Lemma readFrame_errors (buf : list Z) (e : Error) :
  readFrame buf = Throw e ->
  (e = InvalidSignature
   /\ exists b0 tl, buf = b0 :: tl /\ Z.shiftr b0 4 <> 8 /\ Z.shiftr b0 4 <> 0)
  \/ e = AssertionFailed \/ e = PartialReadError \/ e = UnexpectedEof.
Proof.
  unfold readFrame. destruct buf as [|b0 buf]; cbn [readByte].
  { intros [= <-]. tauto. }
  destruct (decide (Z.shiftr b0 4 = 8)) as [E8|E8].
  2: destruct (decide (Z.shiftr b0 4 = 0)) as [E0|E0].
  3: { intros [= <-]. left. eauto 10. }
  all: destruct buf as [|b1 buf]; cbn [readByte]; [intros [= <-]; tauto|].
  all: destruct (if decide (Z.land b1 127 = 126) then readShort buf else _)
         as [len r1| |e1] eqn:E1; [|intros [= <-]; tauto|].
  all: try (intros [= <-]; repeat case_decide; simplify_eq;
            apply readBigEndian_Thrown in E1 as ->; tauto).
  all: destruct (if decide (Z.shiftr b1 7 ≠ 0) then _ else _)
         as [mk r2| |e2] eqn:E2; [|intros [= <-]; tauto|].
  all: try (intros [= <-]; case_decide; simplify_eq;
            destruct (readFull 4 r1) as [m r| |e3] eqn:E3; simplify_eq;
            apply readFull_Thrown in E3 as ->; tauto).
  all: destruct (readFull (Z.to_nat len) r2) as [p r3| |e3] eqn:E3;
    intros [= <-]; try tauto.
  all: apply readFull_Thrown in E3 as ->; tauto.
Qed.

(** X3.  A frame cut short is never taken for a frame: when the stream ends
    anywhere inside the bytes that [writeFrame] wrote for a valid frame,
    [readFrame] throws, and what it throws is an end-of-stream failure, not
    "invalid signature". *)
Theorem truncated_frame_rejected (f : WebSocketFrame) (header cut lost : list Z) :
  frame_ok f ->
  Z.of_nat (length (payload f)) < 2 ^ 64 ->
  writeFrame_header f = Ret header ->
  header = cut ++ lost ->
  lost <> [] ->
  exists e, readFrame cut = Throw e
            /\ (e = AssertionFailed \/ e = PartialReadError \/ e = UnexpectedEof).
Proof.
  intros Hok Hlen Hw Hcut Hlost.
  destruct (readFrame_writeFrame f [] Hok Hlen) as (header' & Hw' & Hr).
  rewrite Hw in Hw'. injection Hw' as <-. rewrite app_nil_r, Hcut in Hr.
  destruct (readFrame cut) as [[fr rest]|e] eqn:E.
  - apply (readFrame_more _ _ _ lost) in E. rewrite Hr in E.
    injection E as _ Hnil. symmetry in Hnil. apply app_eq_nil in Hnil as [_ ?]. done.
  - exists e. split; [done|].
    destruct (readFrame_errors _ _ E) as [(_ & b0 & tl & -> & E8 & E0)|H]; [|done].
    exfalso. unfold readFrame in Hr. cbn [readByte app] in Hr.
    by rewrite !decide_False in Hr by done.
Qed.

Lemma truncated_frame_rejected_witness :
  exists e, readFrame [0x81; 0x05; 72; 101] = Throw e
            /\ (e = AssertionFailed \/ e = PartialReadError \/ e = UnexpectedEof).
Proof.
  apply (truncated_frame_rejected
           (mkFrame true OpCode.TextFrame None [72; 101; 108; 108; 111])
           [0x81; 0x05; 72; 101; 108; 108; 111] [0x81; 0x05; 72; 101] [108; 108; 111]).
  - unfold frame_ok, bytes, is_byte, OpCode.TextFrame. cbn.
    split; [lia|]. split; [repeat constructor; lia|]. intros m [=].
  - cbn. lia.
  - reflexivity.
  - reflexivity.
  - discriminate.
Defined.

Lemma readFull_Got (n : nat) (buf p rest : list Z) :
  readFull n buf = Got p rest -> buf = p ++ rest /\ length p = n.
Proof.
  unfold readFull. case_decide; [intros [= <- <-]; by subst|].
  case_decide; [done|]. case_decide; [done|]. intros [= <- <-].
  rewrite take_drop, length_take. split; [done|lia].
Qed.

Lemma readBigEndian_Got (n : nat) (buf : list Z) (v : Z) (rest : list Z) :
  readBigEndian n buf = Got v rest ->
  exists ext, buf = ext ++ rest /\ length ext = n /\ v = be_value ext.
Proof.
  unfold readBigEndian. case_decide; [done|]. case_decide; [done|]. intros [= <- <-].
  exists (take n buf). rewrite take_drop, length_take. repeat split; lia.
Qed.

(** X4.  What [readFrame] returns from a stream of bytes is a frame as the
    frame type has it: an opcode of 4 bits, a payload of bytes, and no mask
    or a mask of exactly 4 bytes.  The bytes it leaves are the end of the
    stream, untouched, after at least the 2 header bytes and the payload;
    and [writeFrame] never refuses such a frame. *)
Theorem readFrame_well_formed (buf : list Z) (fr : WebSocketFrame) (rest : list Z) :
  bytes buf ->
  readFrame buf = Ret (fr, rest) ->
  frame_ok fr
  /\ bytes rest
  /\ (exists used, buf = used ++ rest /\ (2 + length (payload fr) <= length used)%nat)
  /\ (exists header, writeFrame_header fr = Ret header).
Proof.
  intros Hb. unfold readFrame.
  destruct buf as [|b0 [|b1 buf]]; cbn [readByte]; try done.
  { by repeat case_match. }
  intros H.
  destruct (if decide (Z.shiftr b0 4 = 8) then _ else _) as [fin|e]; [|done].
  destruct (if decide (Z.land b1 127 = 126) then readShort buf else _)
    as [len r1| |e] eqn:E1; try done.
  destruct (if decide (Z.shiftr b1 7 ≠ 0) then _ else _) as [mk r2| |e] eqn:E2; try done.
  destruct (readFull (Z.to_nat len) r2) as [p r3| |e] eqn:E3; try done.
  injection H as <- <-.
  assert (exists ext, buf = ext ++ r1) as [ext Hext].
  { destruct (decide (Z.land b1 127 = 126));
      [apply readBigEndian_Got in E1 as (ext & -> & _); eauto|].
    destruct (decide (Z.land b1 127 = 127));
      [apply readBigEndian_Got in E1 as (ext & -> & _); eauto|].
    injection E1 as _ <-. by exists []. }
  assert (exists ml, r1 = ml ++ r2
                     /\ (mk = None \/ mk = Some ml /\ length ml = 4%nat)) as (ml & Hml & Hmk).
  { case_decide; simplify_eq; [|exists []; tauto].
    destruct (readFull 4 r1) as [m r| |e] eqn:E4; simplify_eq.
    apply readFull_Got in E4 as [-> ?]. exists m. tauto. }
  apply readFull_Got in E3 as [Hp Hlp].
  subst buf r1 r2. unfold bytes in *.
  apply Forall_cons in Hb as [_ Hb]. apply Forall_cons in Hb as [_ Hb].
  apply Forall_app in Hb as [_ Hb]. apply Forall_app in Hb as [Hbm Hb].
  apply Forall_app in Hb as [Hbp Hbr].
  assert (frame_ok (mkFrame fin (Z.land b0 15) mk p)) as Hok.
  { unfold frame_ok, bytes. cbn [opcode payload mask]. split.
    - change 15 with (Z.ones 4). rewrite Z.land_ones by lia. apply Z.mod_pos_bound. lia.
    - split; [done|]. intros m ->. destruct Hmk as [?|[[= <-] ?]]; done. }
  split; [done|]. split; [done|]. split.
  - exists (b0 :: b1 :: ext ++ ml ++ p). split.
    + cbn. by rewrite <- !app_assoc.
    + cbn [payload length]. rewrite !length_app. lia.
  - apply writeFrame_header_accepts. intros m Hm. by destruct (proj2 (proj2 Hok) m Hm).
Qed.

Lemma readFrame_well_formed_witness :
  let fr := mkFrame true OpCode.TextFrame (Some [1; 2; 3; 4]) [73] in
  frame_ok fr
  /\ bytes [0x88; 0x00]
  /\ (exists used, [0x81; 0x81; 1; 2; 3; 4; 73; 0x88; 0x00] = used ++ [0x88; 0x00]
                   /\ (2 + length (payload fr) <= length used)%nat)
  /\ (exists header, writeFrame_header fr = Ret header).
Proof.
  apply (readFrame_well_formed [0x81; 0x81; 1; 2; 3; 4; 73; 0x88; 0x00]).
  - unfold bytes, is_byte. repeat constructor; lia.
  - reflexivity.
Defined.

(** X5.  [writeFrame] checks the mask before anything reaches the writer: a
    mask that is not 4 bytes long makes it throw the invalid-mask error
    with the length of the mask, whatever the writer, and nothing has been
    written then.  It throws nothing else of its own: any other exception
    is the one of the writer.  When it succeeds the mask was absent or 4
    bytes long and the bytes of the frame, and nothing else, have been
    added to what the writer has sent; and a frame with such a mask is
    written whenever the writer works. *)
Theorem writeFrame_outcome (fr : WebSocketFrame) (w : BufWriter) :
  (forall m, mask fr = Some m -> length m <> 4%nat ->
     writeFrame fr w = (Throw (InvalidMask (length m)), w))
  /\ (forall w', writeFrame fr w = (Ret tt, w') ->
        (forall m, mask fr = Some m -> length m = 4%nat)
        /\ exists header, writeFrame_header fr = Ret header
                          /\ w' = mkWriter (out w ++ header) false)
  /\ (forall e w', writeFrame fr w = (Throw e, w') ->
        e = WriterFailed
        \/ exists m, mask fr = Some m /\ length m <> 4%nat
                     /\ e = InvalidMask (length m) /\ w' = w)
  /\ ((forall m, mask fr = Some m -> length m = 4%nat) ->
      broken w = false ->
      exists w', writeFrame fr w = (Ret tt, w')).
Proof.
  unfold writeFrame, write_flush.
  destruct (writeFrame_header fr) as [header|e0] eqn:Hh.
  - assert (forall m, mask fr = Some m -> length m = 4%nat) as Hm.
    { intros m Hm. unfold writeFrame_header in Hh. rewrite Hm in Hh.
      destruct (bool_decide (length m ≠ 4%nat)) eqn:E; [done|].
      apply bool_decide_eq_false_1 in E. by destruct (decide (length m = 4%nat)). }
    split; [|split; [|split]].
    + intros m Hmk Hl. by specialize (Hm m Hmk).
    + destruct (broken w); intros w' [= <-]. eauto.
    + destruct (broken w); intros e w' [= <- <-]. by left.
    + intros _ ->. eauto.
  - assert (exists m, mask fr = Some m /\ length m <> 4%nat /\ e0 = InvalidMask (length m))
      as (m & Hm & Hl & ->).
    { unfold writeFrame_header in Hh. destruct (mask fr) as [m|]; [|done].
      destruct (bool_decide (length m ≠ 4%nat)) eqn:E; [|done].
      apply bool_decide_eq_true_1 in E. injection Hh as <-. eauto. }
    split; [|split; [|split]].
    + intros m' Hmk _. by simplify_eq.
    + by intros w' [=].
    + intros e w' [= <- <-]. right. eauto.
    + intros H. by specialize (H m Hm).
Qed.

Lemma writeFrame_outcome_witness :
  writeFrame (mkFrame true OpCode.TextFrame (Some [1; 2; 3]) [72]) (mkWriter [9] false)
  = (Throw (InvalidMask 3), mkWriter [9] false)
  /\ (exists w', writeFrame (mkFrame true OpCode.TextFrame None [72]) (mkWriter [9] false)
                 = (Ret tt, w')).
Proof.
  split.
  - destruct (writeFrame_outcome (mkFrame true OpCode.TextFrame (Some [1; 2; 3]) [72])
                (mkWriter [9] false)) as (H & _).
    exact (H [1; 2; 3] eq_refl ltac:(discriminate)).
  - destruct (writeFrame_outcome (mkFrame true OpCode.TextFrame None [72])
                (mkWriter [9] false)) as (_ & _ & _ & H).
    apply H; [intros m [=]|reflexivity].
Defined.

(** X6.  The length of what [writeFrame] writes: the payload, 2 header bytes,
    2 more for a payload of 126 to 65534 bytes or 8 more from 65535 bytes
    on, and the 4 bytes of the mask when there is one. *)
Theorem writeFrame_overhead (f : WebSocketFrame) (header : list Z) :
  writeFrame_header f = Ret header ->
  let n := Z.of_nat (length (payload f)) in
  Z.of_nat (length header)
  = n + (if decide (n < 126) then 2 else if decide (n < 65535) then 4 else 10)
      + (if mask f is Some _ then 4 else 0).
Proof.
  unfold writeFrame_header. intros H.
  destruct (mask f) as [m|] eqn:Hm.
  - destruct (bool_decide (length m ≠ 4%nat)) eqn:E; [done|].
    apply bool_decide_eq_false_1 in E.
    assert (length m = 4%nat) as Hl by (by destruct (decide (length m = 4%nat))).
    injection H as <-. cbv zeta.
    repeat case_decide; rewrite !length_app, length_imap, Hl; cbn [length]; lia.
  - injection H as <-. cbv zeta.
    repeat case_decide; rewrite !length_app; cbn [length]; lia.
Qed.

Lemma writeFrame_overhead_witness :
  Z.of_nat (length [0x81; 0x81; 1; 2; 3; 4; 73])
  = 1 + (if decide (1 < 126) then 2 else if decide (1 < 65535) then 4 else 10) + 4.
Proof.
  exact (writeFrame_overhead (mkFrame true OpCode.TextFrame (Some [1; 2; 3; 4]) [72])
           [0x81; 0x81; 1; 2; 3; 4; 73] eq_refl).
Defined.

(** ** The send queue *)

Lemma dequeue_loop_drains (n : nat) (ws : WebSocketImpl) :
  (length (sendQueue ws) <= n)%nat ->
  _isClosed ws = false ->
  broken (bufWriter ws) = false ->
  let ws' := dequeue_loop n ws in
  sendQueue ws' = []
  /\ bufWriter ws'
     = mkWriter (out (bufWriter ws) ++ concat (map (fun e => frame_wire (frame e)) (sendQueue ws)))
                false
  /\ _isClosed ws' = false
  /\ conn_closed ws' = conn_closed ws
  /\ sock_mask ws' = sock_mask ws
  /\ length (deferreds ws') = length (deferreds ws)
  /\ (forall i, i ∉ map d (sendQueue ws) -> deferreds ws' !! i = deferreds ws !! i)
  /\ (forall i r, deferreds ws !! i = Some (Some r) -> deferreds ws' !! i = Some (Some r))
  /\ (NoDup (map d (sendQueue ws)) ->
      forall e, e ∈ sendQueue ws -> deferreds ws !! d e = Some None ->
                deferreds ws' !! d e = Some (Some (write_result (frame e)))).
Proof.
  revert ws. induction n as [|n IH]; intros ws Hn Hopen Hw; cbn zeta.
  - destruct (sendQueue ws) as [|e q] eqn:Hq; [|cbn in Hn; lia].
    cbn. rewrite Hq, app_nil_r. repeat split; try done.
    + destruct (bufWriter ws); cbn in *; congruence.
    + intros _ e He. by apply elem_of_nil in He.
  - cbn [dequeue_loop]. destruct (sendQueue ws) as [|e q] eqn:Hq.
    + cbn. rewrite app_nil_r. repeat split; try done.
      * destruct (bufWriter ws); cbn in *; congruence.
      * intros _ e He. by apply elem_of_nil in He.
    + rewrite Hopen, (writeFrame_working _ _ Hw). cbn [tail].
      set (ws1 := mkSock _ _ _ _ _ _ _).
      destruct (IH ws1) as (Hq' & Hw' & Hc' & Hcc & Hm & Hlen & Hout & Hkeep & Hset).
      { cbn. cbn in Hn. lia. } { done. } { done. }
      cbn [ws1 sendQueue bufWriter out deferreds conn_closed sock_mask] in *.
      split; [done|]. split; [|split; [done|]].
      { rewrite Hw'. cbn [map concat]. by rewrite app_assoc. }
      split; [done|]. split; [done|]. split; [by rewrite Hlen, settle_length|].
      split; [|split].
      * intros i Hi. cbn [map] in Hi. rewrite not_elem_of_cons in Hi.
        destruct Hi as [Hne Hi]. rewrite (Hout i Hi). by apply settle_other.
      * intros i r Hi. apply Hkeep. by apply settle_settled.
      * intros Hnd e' He' Hpend. cbn [map] in Hnd. apply NoDup_cons in Hnd as [Hnotin Hnd].
        apply elem_of_cons in He' as [->|He'].
        -- rewrite (Hout (d e) Hnotin). by apply settle_pending.
        -- apply (Hset Hnd e' He'). rewrite settle_other; [done|].
           intros Heq. apply Hnotin. rewrite Heq. by apply (list_elem_of_fmap_2 d).
Qed.



Lemma fold_reject_length (q : list Entry) (ds : list (option (Res unit))) :
  length (foldl (fun ds e => settle (d e) (Throw ConnectionReset) ds) ds q) = length ds.
Proof.
  revert ds. induction q as [|e q IH]; intros ds; cbn; [done|].
  by rewrite IH, settle_length.
Qed.

Lemma fold_reject_settled (q : list Entry) (ds : list (option (Res unit))) (i : nat)
    (r : Res unit) :
  ds !! i = Some (Some r) ->
  foldl (fun ds e => settle (d e) (Throw ConnectionReset) ds) ds q !! i = Some (Some r).
Proof.
  revert ds. induction q as [|e q IH]; intros ds H; cbn; [done|].
  apply IH. by apply settle_settled.
Qed.

Lemma fold_reject_other (q : list Entry) (ds : list (option (Res unit))) (i : nat) :
  i ∉ map d q ->
  foldl (fun ds e => settle (d e) (Throw ConnectionReset) ds) ds q !! i = ds !! i.
Proof.
  revert ds. induction q as [|e q IH]; intros ds H; cbn; [done|].
  cbn [map] in H. apply not_elem_of_cons in H as [Hne H].
  rewrite (IH _ H). by apply settle_other.
Qed.

Lemma fold_reject_pending (q : list Entry) (ds : list (option (Res unit))) (e : Entry) :
  e ∈ q -> ds !! d e = Some None ->
  foldl (fun ds e => settle (d e) (Throw ConnectionReset) ds) ds q !! d e
  = Some (Some (Throw ConnectionReset)).
Proof.
  revert ds. induction q as [|e' q IH]; intros ds He Hp; [by apply elem_of_nil in He|].
  cbn. destruct (decide (d e' = d e)) as [Heq|Hne].
  - apply fold_reject_settled. rewrite Heq. by apply settle_pending.
  - apply elem_of_cons in He as [->|He]; [done|].
    apply IH; [done|]. by rewrite settle_other.
Qed.

(** X9.  [ensureSocketClosed] marks the socket closed and never touches the
    writer or the reader; a second call changes nothing.  On a socket that
    was open it closes the connection, empties the send queue and rejects
    every promise still pending in the queue with ConnectionReset, while
    promises already settled and promises outside the queue keep their
    state. *)
Theorem ensureSocketClosed_effect (ws : WebSocketImpl) :
  let ws' := ensureSocketClosed ws in
  _isClosed ws' = true
  /\ ensureSocketClosed ws' = ws'
  /\ bufWriter ws' = bufWriter ws
  /\ bufReader ws' = bufReader ws
  /\ (_isClosed ws = false ->
      conn_closed ws' = true
      /\ sendQueue ws' = []
      /\ (forall e, e ∈ sendQueue ws -> deferreds ws !! d e = Some None ->
                    deferreds ws' !! d e = Some (Some (Throw ConnectionReset)))
      /\ (forall i r, deferreds ws !! i = Some (Some r) ->
                      deferreds ws' !! i = Some (Some r))
      /\ (forall i, i ∉ map d (sendQueue ws) -> deferreds ws' !! i = deferreds ws !! i)).
Proof.
  cbn zeta. unfold ensureSocketClosed.
  destruct (_isClosed ws) eqn:Hc.
  - rewrite Hc. repeat split; try done.
  - cbn. repeat split; try done.
    + intros e He Hp. by apply fold_reject_pending.
    + intros i r Hi. by apply fold_reject_settled.
    + intros i Hi. by apply fold_reject_other.
Qed.

Lemma ensureSocketClosed_effect_witness :
  let ws := mkSock false None [1] (mkWriter [7] false)
                   [mkEntry 1 (mkFrame true OpCode.TextFrame None [104])]
                   false [Some (Ret tt); None] in
  sendQueue (ensureSocketClosed ws) = []
  /\ deferreds (ensureSocketClosed ws) = [Some (Ret tt); Some (Throw ConnectionReset)].
Proof.
  intros ws.
  destruct (ensureSocketClosed_effect ws) as (_ & _ & _ & _ & H).
  destruct (H eq_refl) as (_ & H2 & _). split; [exact H2|reflexivity].
Defined.

(** ** Two sockets talking *)

Section Exchange.

Variable encode : string -> list Z.
Variable decode : list Z -> string.

Lemma enqueue_open (fr : WebSocketFrame) (ws : WebSocketImpl) :
  _isClosed ws = false ->
  sendQueue ws = [] ->
  broken (bufWriter ws) = false ->
  enqueue fr ws
  = (Ret (length (deferreds ws)),
     mkSock (conn_closed ws) (sock_mask ws) (bufReader ws)
            (mkWriter (out (bufWriter ws) ++ frame_wire fr) false) [] false
            (deferreds ws ++ [Some (write_result fr)])).
Proof.
  intros Hopen Hq Hw. unfold enqueue. rewrite Hopen, Hq. cbn [app length].
  rewrite decide_True by done. unfold dequeue.
  cbn [sendQueue length dequeue_loop _isClosed frame d bufWriter deferreds conn_closed
       sock_mask bufReader tail].
  rewrite (writeFrame_working _ _ Hw). cbn [dequeue_loop]. by rewrite settle_fresh.
Qed.

Lemma send_open (data : WebSocketMessage) (ws : WebSocketImpl) :
  _isClosed ws = false ->
  sendQueue ws = [] ->
  broken (bufWriter ws) = false ->
  send encode data ws
  = (Ret (length (deferreds ws)),
     mkSock (conn_closed ws) (sock_mask ws) (bufReader ws)
            (mkWriter (out (bufWriter ws)
                       ++ frame_wire (message_frame encode (sock_mask ws) data)) false)
            [] false
            (deferreds ws ++ [Some (write_result (message_frame encode (sock_mask ws) data))])).
Proof.
  intros Hopen Hq Hw. unfold send. rewrite enqueue_open by done. by destruct data.
Qed.

(** X10.  Messages sent one after the other on an open socket with a
    working writer and nothing in flight reach the transport in the order of
    the calls, each as one frame, and nothing else is written: the transport
    holds what it held, then the wire bytes of the frame of each message.
    Every call makes one promise, settled with the outcome of its own write,
    and leaves the queue empty and the socket open. *)
Theorem sends_in_order (datas : list WebSocketMessage) (ws : WebSocketImpl) :
  _isClosed ws = false ->
  sendQueue ws = [] ->
  broken (bufWriter ws) = false ->
  let ws' := foldl (fun ws data => (send encode data ws).2) ws datas in
  bufWriter ws'
  = mkWriter (out (bufWriter ws)
              ++ concat (map (fun data => frame_wire (message_frame encode (sock_mask ws) data))
                             datas))
             false
  /\ deferreds ws'
     = deferreds ws
       ++ map (fun data => Some (write_result (message_frame encode (sock_mask ws) data))) datas
  /\ sendQueue ws' = []
  /\ _isClosed ws' = false
  /\ bufReader ws' = bufReader ws.
Proof.
  revert ws. induction datas as [|data datas IH]; intros ws Hopen Hq Hw; cbn zeta.
  - cbn. rewrite !app_nil_r. repeat split; try done.
    destruct (bufWriter ws); cbn in *; congruence.
  - cbn [foldl]. rewrite send_open by done. cbn [snd].
    set (ws1 := mkSock _ _ _ _ _ _ _).
    destruct (IH ws1) as (H1 & H2 & H3 & H4 & H5); [done..|].
    cbn [ws1 bufWriter out deferreds sock_mask bufReader] in *.
    rewrite H1, H2. cbn [map concat]. rewrite <- !app_assoc. done.
Qed.


Lemma iteration_Close (g : Inbound) (fr : WebSocketFrame) (rest : list Z) :
  readFrame (bufReader (sock g)) = Ret (fr, rest) ->
  opcode fr = OpCode.Close ->
  iteration encode decode g
  = let p := payload (unmasked fr) in
    let code := Z.lor (Z.shiftl (at_or_0 p 0) 8) (at_or_0 p 1) in
    let reason := decode (drop 2 p) in
    match close encode code (Some reason) (set_bufReader (sock g) rest) with
    | (Done _, ws) => ([EvClose code reason], Finished, mkInbound ws (frames g) (payloadsLength g))
    | (Failed e, ws) => ([], Raised e, mkInbound ws (frames g) (payloadsLength g))
    | (Pending, ws) => ([], Blocked, mkInbound ws (frames g) (payloadsLength g))
    end.
Proof.
  intros Hr Hop. unfold iteration. rewrite Hr. cbv zeta.
  change (opcode (unmasked fr)) with (opcode fr). rewrite Hop.
  rewrite decide_False by (unfold OpCode.Close, OpCode.TextFrame, OpCode.BinaryFrame,
                             OpCode.Continue; lia).
  rewrite decide_True by done. reflexivity.
Qed.

Lemma iteration_Ping (g : Inbound) (fr : WebSocketFrame) (rest : list Z) :
  readFrame (bufReader (sock g)) = Ret (fr, rest) ->
  opcode fr = OpCode.Ping ->
  iteration encode decode g
  = match await_enqueue (mkFrame true OpCode.Pong None (payload (unmasked fr)))
                        (set_bufReader (sock g) rest) with
    | (Done _, ws) =>
        ([EvPing (payload (unmasked fr))], Continue, mkInbound ws (frames g) (payloadsLength g))
    | (Failed e, ws) => ([], Raised e, mkInbound ws (frames g) (payloadsLength g))
    | (Pending, ws) => ([], Blocked, mkInbound ws (frames g) (payloadsLength g))
    end.
Proof.
  intros Hr Hop. unfold iteration. rewrite Hr. cbv zeta.
  change (opcode (unmasked fr)) with (opcode fr). rewrite Hop.
  rewrite decide_False by (unfold OpCode.Ping, OpCode.TextFrame, OpCode.BinaryFrame,
                             OpCode.Continue; lia).
  rewrite decide_False by (unfold OpCode.Ping, OpCode.Close; lia).
  rewrite decide_True by done. reflexivity.
Qed.

Lemma iteration_Pong (g : Inbound) (fr : WebSocketFrame) (rest : list Z) :
  readFrame (bufReader (sock g)) = Ret (fr, rest) ->
  opcode fr = OpCode.Pong ->
  iteration encode decode g
  = ([EvPong (payload (unmasked fr))], Continue,
     mkInbound (set_bufReader (sock g) rest) (frames g) (payloadsLength g)).
Proof.
  intros Hr Hop. unfold iteration. rewrite Hr. cbv zeta.
  change (opcode (unmasked fr)) with (opcode fr). rewrite Hop.
  rewrite decide_False by (unfold OpCode.Pong, OpCode.TextFrame, OpCode.BinaryFrame,
                             OpCode.Continue; lia).
  rewrite decide_False by (unfold OpCode.Pong, OpCode.Close; lia).
  rewrite decide_False by (unfold OpCode.Pong, OpCode.Ping; lia).
  rewrite decide_True by done. reflexivity.
Qed.

(** What the peer reads back from the wire bytes of a well-formed frame. *)
Lemma frame_wire_read (f : WebSocketFrame) (rest : list Z) :
  frame_ok f ->
  Z.of_nat (length (payload f)) < 2 ^ 64 ->
  exists fr,
    writeFrame_header f = Ret (frame_wire f)
    /\ readFrame (frame_wire f ++ rest) = Ret (fr, rest)
    /\ opcode fr = opcode f
    /\ isLastFrame fr = true
    /\ unmasked fr = mkFrame true (opcode f) (mask f) (payload f).
Proof.
  intros Hok Hlen.
  destruct (readFrame_writeFrame f rest Hok Hlen) as (header & Hh & Hr).
  eexists. unfold frame_wire. rewrite Hh. split; [done|]. split; [exact Hr|].
  split; [done|]. split; [done|].
  unfold unmasked. cbn [isLastFrame opcode mask payload]. f_equal.
  destruct Hok as (_ & Hp & Hm). destruct (mask f) as [m|]; [|done].
  apply unmask_unmask; [done|]. by apply (Hm m).
Qed.

(** X11.  What [send] writes is what the peer's loop reads: the bytes that
    a successful [send(data)] adds to the transport, read by the inbound
    loop of any socket before a message has begun, make one turn that
    yields exactly one event, the bytes of [data] for binary data and the
    decoded text of its encoding for a string, whatever follows on the wire
    and whether or not the sender masks. *)
Theorem send_received (data : WebSocketMessage) (ws : WebSocketImpl) :
  _isClosed ws = false ->
  sendQueue ws = [] ->
  broken (bufWriter ws) = false ->
  frame_ok (message_frame encode (sock_mask ws) data) ->
  Z.of_nat (length (payload (message_frame encode (sock_mask ws) data))) < 2 ^ 64 ->
  exists wire,
    bufWriter (send encode data ws).2 = mkWriter (out (bufWriter ws) ++ wire) false
    /\ await (length (deferreds ws)) (send encode data ws).2 = Done tt
    /\ forall g rest,
         bufReader (sock g) = wire ++ rest ->
         frames g = [] ->
         payloadsLength g = 0 ->
         iteration encode decode g
         = ([match data with
             | MsgString s => EvString (decode (encode s))
             | MsgBytes b => EvBytes b
             end],
            Continue, mkInbound (set_bufReader (sock g) rest) [] 0).
Proof.
  intros Hopen Hq Hw Hok Hlen.
  exists (frame_wire (message_frame encode (sock_mask ws) data)).
  rewrite send_open by done. cbn [snd bufWriter]. split; [done|]. split.
  { unfold await. cbn [deferreds]. rewrite list_lookup_middle by done.
    unfold write_result.
    destruct (frame_wire_read _ [] Hok Hlen) as (fr & -> & _). done. }
  intros g rest Hbuf Hfr Hpl.
  destruct (frame_wire_read _ rest Hok Hlen) as (fr & _ & Hr & Hop & Hfin & Hun).
  rewrite <- Hbuf in Hr.
  rewrite (iteration_data_last encode decode g fr rest Hr); [| |done|by rewrite Hpl, Hfr].
  - rewrite Hfr, Hun. cbn [app head fmap option_fmap option_map default opcode].
    unfold joined. cbn [map concat payload]. rewrite app_nil_r.
    unfold message_event. destruct data; cbn [message_frame opcode payload].
    + by rewrite decide_True.
    + rewrite decide_False; [done|]. cbv. discriminate.
  - unfold data_opcode. rewrite Hop. destruct data; cbn; auto.
Qed.


Lemma close_code_wire (code : Z) (tl : list Z) :
  let p := Uint8Array_of [Z.shiftr (code mod 2 ^ 32) 8; Z.land code 0x00ff] ++ tl in
  Z.lor (Z.shiftl (at_or_0 p 0) 8) (at_or_0 p 1) = code mod 65536 /\ drop 2 p = tl.
Proof.
  cbn. split; [|done].
  unfold byte_wrap. rewrite lor_shiftl_small; [|lia|].
  - rewrite Z.shiftr_div_pow2 by lia. change 255 with (Z.ones 8).
    rewrite Z.land_ones by lia. Z.div_mod_to_equations. lia.
  - Z.div_mod_to_equations. lia.
Qed.

Lemma close_payload_bytes (code : Z) (reason : option string) :
  (forall r, reason = Some r -> bytes (encode r)) ->
  bytes (close_payload encode code reason).
Proof.
  intros Hr.
  assert (bytes (Uint8Array_of [Z.shiftr (code mod 2 ^ 32) 8; Z.land code 0x00ff])) as Hh.
  { repeat constructor; unfold byte_wrap; Z.div_mod_to_equations; lia. }
  unfold close_payload. destruct reason as [[|c s]|]; try done.
  apply Forall_app. split; [done|]. by apply Hr.
Qed.

(** [close] on an open socket: the frames in flight are written, then the
    Close frame, and the socket is closed whatever the write came to. *)
Lemma close_inflight (code : Z) (reason : option string) (ws : WebSocketImpl) :
  _isClosed ws = false ->
  promises_made ws ->
  let fr := mkFrame true OpCode.Close (sock_mask ws) (close_payload encode code reason) in
  exists ds,
    close encode code reason ws
    = (match (writeFrame fr (written (sendQueue ws) (bufWriter ws))).1 with
       | Ret _ => Done tt
       | Throw e => Failed e
       end,
       mkSock true (sock_mask ws) (bufReader ws)
              (writeFrame fr (written (sendQueue ws) (bufWriter ws))).2 [] true ds).
Proof.
  intros Hopen Hpm fr. unfold close. fold fr.
  destruct (await_enqueue_inflight fr ws Hopen Hpm) as (ds & -> & _).
  exists ds. by destruct (writeFrame fr _).1 as [[]|e].
Qed.


(** X7.  Frames written one after the other are read back one by one.  For
    valid frames with [isLastFrame] set and payloads of fewer than 2^64
    bytes, of any length otherwise, [writeFrame] accepts each of them, and
    [readFrame] called again and again on the bytes written, whatever
    follows them, returns as many frames and leaves what follows; unmasking
    each of them, as the inbound loop does, gives the frames that were
    written, in order. *)
Theorem frames_back_to_back (frs : list WebSocketFrame) (rest : list Z) :
  Forall (fun f => frame_ok f /\ isLastFrame f = true
                   /\ Z.of_nat (length (payload f)) < 2 ^ 64) frs ->
  Forall (fun f => writeFrame_header f = Ret (frame_wire f)) frs
  /\ exists got,
       reads (concat (map frame_wire frs) ++ rest) got rest
       /\ map unmasked got = frs.
Proof.
  induction 1 as [|f frs (Hok & Hfin & Hlen) _ [IHw (got & IHr & IHu)]].
  - split; [constructor|]. exists []. split; [apply reads_nil|done].
  - cbn [map concat]. rewrite <- app_assoc.
    destruct (frame_wire_read f (concat (map frame_wire frs) ++ rest) Hok Hlen)
      as (fr & Hw & Hr & _ & _ & Hun).
    split; [by constructor|]. exists (fr :: got). split.
    + by eapply reads_cons.
    + cbn [map]. rewrite Hun, IHu. f_equal. destruct f; cbn in *. by subst.
Qed.

End Exchange.

Lemma sends_in_order_witness :
  let ws := mkSock false None [] (mkWriter [7] false) [] false [] in
  bufWriter (foldl (fun ws data => (send utf8_encode data ws).2) ws
                   [MsgString "hi"; MsgBytes [1; 2; 3]])
  = mkWriter [7; 0x81; 2; 104; 105; 0x82; 3; 1; 2; 3] false.
Proof.
  intros ws.
  destruct (sends_in_order utf8_encode [MsgString "hi"; MsgBytes [1; 2; 3]] ws
              eq_refl eq_refl eq_refl) as (H & _).
  exact H.
Defined.

Lemma send_received_witness :
  let ws := mkSock false (Some [1; 2; 3; 4]) [] (mkWriter [] false) [] false [] in
  exists wire,
    bufWriter (send utf8_encode (MsgString "hi") ws).2 = mkWriter wire false
    /\ iteration utf8_encode ascii_decode (mkInbound (fresh_socket (wire ++ [0x8a; 0]) false) [] 0)
       = ([EvString "hi"], Continue, mkInbound (fresh_socket [0x8a; 0] false) [] 0).
Proof.
  intros ws.
  destruct (send_received utf8_encode ascii_decode (MsgString "hi") ws
              eq_refl eq_refl eq_refl) as (wire & Hw & _ & Hit).
  - split; [cbn; unfold OpCode.TextFrame; lia|].
    split; [repeat constructor; unfold is_byte; lia|].
    intros m [= <-]. split; [repeat constructor; unfold is_byte; lia|reflexivity].
  - vm_compute. reflexivity.
  - exists wire. split; [exact Hw|].
    exact (Hit (mkInbound (fresh_socket (wire ++ [0x8a; 0]) false) [] 0) [0x8a; 0]
               eq_refl eq_refl eq_refl).
Defined.



Lemma frames_back_to_back_witness :
  exists got,
    reads (concat (map frame_wire [mkFrame true OpCode.TextFrame (Some [1; 2; 3; 4]) [104; 105];
                                   mkFrame true OpCode.Ping None []]) ++ [7])
          got [7]
    /\ map unmasked got = [mkFrame true OpCode.TextFrame (Some [1; 2; 3; 4]) [104; 105];
                           mkFrame true OpCode.Ping None []].
Proof.
  refine (proj2 (frames_back_to_back
                   [mkFrame true OpCode.TextFrame (Some [1; 2; 3; 4]) [104; 105];
                    mkFrame true OpCode.Ping None []] [7] _)).
  apply Forall_cons. split.
  { split; [|split; [reflexivity|by vm_compute]].
    split; [unfold OpCode.TextFrame; cbn; lia|].
    split; [repeat constructor; unfold is_byte; lia|].
    intros m [= <-]. split; [repeat constructor; unfold is_byte; lia|reflexivity]. }
  apply Forall_cons. split; [|constructor].
  split; [|split; [reflexivity|by vm_compute]].
  split; [unfold OpCode.Ping; cbn; lia|]. split; [constructor|]. intros m [=].
Defined.

(** ** The inbound loop as a whole *)

Section Loop.

Variable encode : string -> list Z.
Variable decode : list Z -> string.

Lemma close_errors (code : Z) (reason : option string) (ws ws' : WebSocketImpl) (e : Error) :
  close encode code reason ws = (Failed e, ws') ->
  e = ConnectionReset \/ e = WriterFailed \/ exists n, e = InvalidMask n.
Proof.
  unfold close. destruct (await_enqueue _ ws) as [[[]|e'|] ws1] eqn:Ha; intros [= <- _].
  by apply await_enqueue_errors in Ha.
Qed.

(** What one turn on an open socket yields and how it ends. *)
Lemma iteration_outcome (g g' : Inbound) (evs : list WebSocketEvent) (st : Step) :
  _isClosed (sock g) = false ->
  lengths_agree g ->
  iteration encode decode g = (evs, st, g') ->
  (st = Finished -> _isClosed (sock g') = true)
  /\ (forall e, st = Raised e ->
        e = ConnectionReset \/ e = WriterFailed \/ exists n, e = InvalidMask n)
  /\ (evs = []
      \/ exists ev, evs = [ev]
                    /\ if isWebSocketCloseEvent ev then st = Finished else st = Continue).
Proof.
  intros Hopen Hla Hit.
  pose proof (iteration_no_RangeError encode decode g Hla) as Hnr. rewrite Hit in Hnr.
  cbn in Hnr. revert Hit Hnr. unfold iteration.
  destruct (readFrame (bufReader (sock g))) as [[fr rest]|e].
  2: { intros [= <- <- <-] _. cbn. split; [intros _; apply ensureSocketClosed_isClosed|].
       split; [done|by left]. }
  cbv zeta. case_decide.
  { destruct (isLastFrame (unmasked fr)).
    - destruct (match Uint8Array_new _ with Ret c => _ | Throw e => Throw e end) as [c|e] eqn:Hc.
      + intros [= <- <- <-] _. split; [done|]. split; [done|]. right. eexists. split; [done|].
        unfold message_event. by case_decide.
      + intros [= <- <- <-] Hnr. exfalso. apply Hnr. f_equal.
        revert Hc. unfold Uint8Array_new. case_decide; [by intros [= <-]|].
        generalize (replicate
                      (Z.to_nat (payloadsLength g + Z.of_nat (length (payload (unmasked fr))))) 0).
        generalize 0%nat. induction (frames g ++ [unmasked fr]) as [|f fs IH]; intros o c;
          cbn; [done|].
        unfold Uint8Array_set at 1. case_decide; [apply IH|by intros [= <-]].
    - intros [= <- <- <-] _. split; [done|]. split; [done|]. by left. }
  case_decide.
  { match goal with |- context [close encode ?c ?r ?w] =>
      destruct (close encode c r w) as [[[]|e|] ws1] eqn:Hc end;
      intros [= <- <- <-] _.
    - split; [intros _; by eapply close_completed_isClosed|]. split; [done|].
      right. eexists. split; [done|]. done.
    - split; [done|]. split; [|by left]. intros e' [= <-].
      by apply close_errors in Hc.
    - split; [done|]. split; [done|]. by left. }
  case_decide.
  { match goal with |- context [await_enqueue ?f ?w] =>
      destruct (await_enqueue f w) as [[[]|e|] ws1] eqn:Hc end;
      intros [= <- <- <-] _.
    - split; [done|]. split; [done|]. right. eexists. split; [done|]. done.
    - split; [done|]. split; [|by left]. intros e' [= <-].
      by apply await_enqueue_errors in Hc.
    - split; [done|]. split; [done|]. by left. }
  case_decide; intros [= <- <- <-] _.
  - split; [done|]. split; [done|]. right. eexists. split; [done|]. done.
  - split; [done|]. split; [done|]. by left.
Qed.

Lemma iterate_outcome (n : nat) (g : Inbound) :
  lengths_agree g ->
  let '(evs, st, g') := iterate encode decode n g in
  (st = Finished -> _isClosed (sock g') = true)
  /\ (forall e, st = Raised e ->
        e = ConnectionReset \/ e = WriterFailed \/ exists n, e = InvalidMask n)
  /\ (forall i ev, evs !! i = Some ev -> isWebSocketCloseEvent ev = true ->
        S i = length evs /\ st = Finished).
Proof.
  revert g. induction n as [|n IH]; intros g Hla; cbn [iterate].
  - split; [done|]. split; [done|]. intros i ev Hi. by rewrite lookup_nil in Hi.
  - destruct (_isClosed (sock g)) eqn:Hopen.
    { split; [done|]. split; [done|]. intros i ev Hi. by rewrite lookup_nil in Hi. }
    pose proof (iteration_lengths_agree encode decode g Hla) as Hla'.
    destruct (iteration encode decode g) as [[evs st] g1] eqn:Hit.
    destruct (iteration_outcome g g1 evs st Hopen Hla Hit) as (Hfin & Hraise & Hev).
    cbn [snd] in Hla'.
    assert (Hone : forall i ev, evs !! i = Some ev -> isWebSocketCloseEvent ev = true ->
                                S i = length evs /\ st = Finished).
    { intros i ev Hi Hcl. destruct Hev as [->|(ev' & -> & Hst)]; [by rewrite lookup_nil in Hi|].
      destruct i as [|i]; [|by destruct i]. injection Hi as ->.
      by rewrite Hcl in Hst. }
    destruct st; try done.
    specialize (IH g1 Hla').
    destruct (iterate encode decode n g1) as [[evs' st'] g2].
    destruct IH as (Hfin' & Hraise' & Hev').
    split; [done|]. split.
    + done.
    + intros i ev Hi Hcl. apply lookup_app_Some in Hi as [Hi|[Hge Hi]].
      * by destruct (Hone i ev Hi Hcl).
      * destruct (Hev' _ ev Hi Hcl) as [Hlen ->]. split; [|done].
        rewrite length_app. lia.
Qed.

(** X14.  When the inbound loop finishes (rather than throwing or waiting
    for a write), the socket is closed: the loop test failed, a read
    failed and [ensureSocketClosed] ran, or a Close frame was answered by
    [close]. *)
Theorem loop_finished_closed (ws : WebSocketImpl) :
  (asyncIterator encode decode ws).1.2 = Finished ->
  _isClosed (sock (asyncIterator encode decode ws).2) = true.
Proof.
  unfold asyncIterator.
  pose proof (iterate_outcome (S (length (bufReader ws))) (mkInbound ws [] 0) eq_refl) as H.
  destruct (iterate _ _ _ _) as [[evs st] g]. cbn. apply H.
Qed.

(** X15.  A close event is the last thing the inbound loop yields: no event
    follows it, so there is at most one, and the loop has finished. *)
Theorem close_event_is_last (ws : WebSocketImpl) (i : nat) (ev : WebSocketEvent) :
  (asyncIterator encode decode ws).1.1 !! i = Some ev ->
  isWebSocketCloseEvent ev = true ->
  S i = length (asyncIterator encode decode ws).1.1
  /\ (asyncIterator encode decode ws).1.2 = Finished.
Proof.
  unfold asyncIterator.
  pose proof (iterate_outcome (S (length (bufReader ws))) (mkInbound ws [] 0) eq_refl) as H.
  destruct (iterate _ _ _ _) as [[evs st] g]. cbn. apply H.
Qed.

(** X16.  The inbound loop throws only what the awaited write of a Pong or
    of the reply to a Close frame ends with: the error of the transport,
    the invalid-mask error of [writeFrame], or ConnectionReset.  Nothing
    that arrives makes it throw: a read that fails or a frame that is
    malformed ends the loop without an exception, and putting the
    fragments of a message together never throws. *)
Theorem loop_errors (ws : WebSocketImpl) (e : Error) :
  (asyncIterator encode decode ws).1.2 = Raised e ->
  e = ConnectionReset \/ e = WriterFailed \/ exists n, e = InvalidMask n.
Proof.
  unfold asyncIterator.
  pose proof (iterate_outcome (S (length (bufReader ws))) (mkInbound ws [] 0) eq_refl) as H.
  destruct (iterate _ _ _ _) as [[evs st] g]. cbn. apply H.
Qed.

(** X17.  After [closeForce] the socket is silent: nothing was written, a
    second call changes nothing, the inbound loop yields nothing and
    finishes at once, and [send], [ping] and [close] throw
    ConnectionReset without touching the socket. *)
Theorem closeForce_silences (ws : WebSocketImpl) :
  let ws' := closeForce ws in
  bufWriter ws' = bufWriter ws
  /\ closeForce ws' = ws'
  /\ asyncIterator encode decode ws' = ([], Finished, mkInbound ws' [] 0)
  /\ (forall data, send encode data ws' = (Throw ConnectionReset, ws'))
  /\ (forall data, ping encode data ws' = (Throw ConnectionReset, ws'))
  /\ (forall code reason, close encode code reason ws' = (Failed ConnectionReset, ws')).
Proof.
  cbn zeta. unfold closeForce.
  pose proof (ensureSocketClosed_isClosed ws) as Hc.
  split; [apply ensureSocketClosed_out|].
  split; [by apply ensureSocketClosed_closed|].
  split; [unfold asyncIterator; cbn [iterate sock]; by rewrite Hc|].
  split; [intros data; unfold send; by apply enqueue_closed|].
  split; [intros data; unfold ping; by apply enqueue_closed|].
  intros code reason. by apply close_closed.
Qed.

(** X18.  A Pong frame that arrives between the fragments of a message is
    reported at once and does not disturb the message: the three turns
    yield the pong event, then the message made of both fragments, text or
    binary by the opcode of the first fragment. *)
Theorem pong_between_fragments (g : Inbound) (f1 pg f2 : WebSocketFrame) (rest : list Z) :
  _isClosed (sock g) = false ->
  frames g = [] ->
  payloadsLength g = 0 ->
  reads (bufReader (sock g)) [f1; pg; f2] rest ->
  data_opcode f1 -> isLastFrame f1 = false ->
  opcode pg = OpCode.Pong ->
  data_opcode f2 -> isLastFrame f2 = true ->
  iterate encode decode 3 g
  = ([EvPong (payload (unmasked pg));
      message_event decode (opcode f1) (payload (unmasked f1) ++ payload (unmasked f2))],
     Continue, mkInbound (set_bufReader (sock g) rest) [] 0).
Proof.
  intros Hopen Hfr Hpl Hreads Hd1 Hl1 Hpg Hd2 Hl2.
  inversion Hreads as [|? ? b1 ? ? Hr1 Hreads1]; subst.
  inversion Hreads1 as [|? ? b2 ? ? Hr2 Hreads2]; subst.
  inversion Hreads2 as [|? ? b3 ? ? Hr3 Hreads3]; subst.
  inversion Hreads3; subst.
  cbn [iterate]. rewrite Hopen.
  rewrite (iteration_data_more encode decode g f1 b1 Hr1 Hd1 Hl1).
  cbn [sock set_bufReader _isClosed]. rewrite Hopen.
  rewrite (iteration_Pong encode decode _ pg b2); [|exact Hr2|exact Hpg].
  cbn [sock set_bufReader _isClosed frames payloadsLength bufReader]. rewrite Hopen.
  rewrite (iteration_data_last encode decode _ f2 rest); [|exact Hr3|exact Hd2|exact Hl2|].
  - cbn [sock set_bufReader frames]. rewrite Hfr. cbn [app head fmap option_fmap option_map default].
    change (opcode (unmasked f1)) with (opcode f1).
    unfold joined. cbn [map concat]. by rewrite app_nil_r.
  - cbn [frames payloadsLength]. rewrite Hfr, Hpl. unfold joined. cbn [app map concat].
    rewrite app_nil_r. done.
Qed.

Lemma iterate_stable (n m : nat) (g : Inbound) :
  (iterate encode decode n g).1.2 <> Continue ->
  iterate encode decode (n + m) g = iterate encode decode n g.
Proof.
  intros H. rewrite iterate_add. destruct (iterate encode decode n g) as [[evs st] g1].
  by destruct st.
Qed.

(** X19.  The inbound loop ends, and its outcome does not depend on how
    many turns it is given: one turn for every two bytes still to read,
    and one more, are enough for it to finish, throw or wait for a write,
    and with that many turns or more the events, the outcome and the state
    are always the same. *)
Theorem loop_needs_no_more_turns (ws : WebSocketImpl) (n : nat) :
  (length (bufReader ws) < 2 * n)%nat ->
  iterate encode decode n (mkInbound ws [] 0) = asyncIterator encode decode ws
  /\ (iterate encode decode n (mkInbound ws [] 0)).1.2 <> Continue.
Proof.
  intros Hn. unfold asyncIterator.
  pose proof (iterate_ends encode decode n (mkInbound ws [] 0) Hn) as Hend.
  pose proof (iterate_ends encode decode (S (length (bufReader ws))) (mkInbound ws [] 0)) as Hend'.
  split; [|done].
  destruct (decide (n <= S (length (bufReader ws)))%nat) as [Hle|Hgt].
  - replace (S (length (bufReader ws))) with (n + (S (length (bufReader ws)) - n))%nat by lia.
    by rewrite iterate_stable.
  - replace n with (S (length (bufReader ws)) + (n - S (length (bufReader ws))))%nat at 1 by lia.
    rewrite iterate_stable; [done|]. apply Hend'. cbn. lia.
Qed.

End Loop.

Lemma loop_finished_closed_witness :
  _isClosed (sock (asyncIterator utf8_encode ascii_decode
                     (fresh_socket [0x81; 1; 104; 0x88; 2; 3; 233] false)).2) = true.
Proof.
  apply (loop_finished_closed utf8_encode ascii_decode
           (fresh_socket [0x81; 1; 104; 0x88; 2; 3; 233] false)).
  vm_compute. reflexivity.
Defined.

Lemma close_event_is_last_witness :
  2%nat = length (asyncIterator utf8_encode ascii_decode
                    (fresh_socket [0x81; 1; 104; 0x88; 2; 3; 233; 0x81; 1; 105] false)).1.1
  /\ (asyncIterator utf8_encode ascii_decode
        (fresh_socket [0x81; 1; 104; 0x88; 2; 3; 233; 0x81; 1; 105] false)).1.2 = Finished.
Proof.
  apply (close_event_is_last utf8_encode ascii_decode
           (fresh_socket [0x81; 1; 104; 0x88; 2; 3; 233; 0x81; 1; 105] false)
           1%nat (EvClose 1001 "")).
  - vm_compute. reflexivity.
  - reflexivity.
Defined.

Lemma loop_errors_witness :
  (asyncIterator utf8_encode ascii_decode
     (mkSock false (Some [1; 2]) [0x88; 0] (mkWriter [] false) [] false [])).1.2
  = Raised (InvalidMask 2)
  /\ (InvalidMask 2 = ConnectionReset \/ InvalidMask 2 = WriterFailed
      \/ exists n, InvalidMask 2 = InvalidMask n).
Proof.
  split; [reflexivity|].
  apply (loop_errors utf8_encode ascii_decode
           (mkSock false (Some [1; 2]) [0x88; 0] (mkWriter [] false) [] false [])
           (InvalidMask 2)).
  reflexivity.
Defined.

Lemma pong_between_fragments_witness :
  iterate utf8_encode ascii_decode 3
          (mkInbound (fresh_socket [0x01; 1; 104; 0x8a; 1; 7; 0x80; 1; 105] false) [] 0)
  = ([EvPong [7]; EvString "hi"], Continue, mkInbound (fresh_socket [] false) [] 0).
Proof.
  apply (pong_between_fragments utf8_encode ascii_decode
           (mkInbound (fresh_socket [0x01; 1; 104; 0x8a; 1; 7; 0x80; 1; 105] false) [] 0)
           (mkFrame false OpCode.TextFrame None [104])
           (mkFrame true OpCode.Pong None [7])
           (mkFrame true OpCode.Continue None [105]) []).
  - reflexivity.
  - reflexivity.
  - reflexivity.
  - repeat (eapply reads_cons; [reflexivity|]). apply reads_nil.
  - left. reflexivity.
  - reflexivity.
  - reflexivity.
  - right. right. reflexivity.
  - reflexivity.
Defined.

Lemma loop_needs_no_more_turns_witness :
  iterate utf8_encode ascii_decode 2 (mkInbound (fresh_socket [0x81; 1; 104] false) [] 0)
  = asyncIterator utf8_encode ascii_decode (fresh_socket [0x81; 1; 104] false)
  /\ (iterate utf8_encode ascii_decode 2
               (mkInbound (fresh_socket [0x81; 1; 104] false) [] 0)).1.2 <> Continue.
Proof.
  apply (loop_needs_no_more_turns utf8_encode ascii_decode (fresh_socket [0x81; 1; 104] false) 2).
  cbn. lia.
Defined.

(** ** The opening handshake *)

Lemma span_nonspace_app (s a b : string) :
  span_nonspace s = (a, b) -> s = a +:+ b.
Proof.
  revert a b. induction s as [|c s IH]; intros a b; cbn.
  - by intros [= <- <-].
  - destruct (is_space c); [by intros [= <- <-]|].
    destruct (span_nonspace s) as [a' b']. intros [= <- <-].
    change (String c a' +:+ b') with (String c (a' +:+ b')). f_equal. by apply IH.
Qed.

Lemma match_status_line_101 (line : string) :
  match_status_line line = Some ("HTTP/1.1", "101")
  <-> exists rest, line = "HTTP/1.1 101 " +:+ rest.
Proof.
  split.
  - unfold match_status_line.
    destruct (span_nonspace line) as [v r] eqn:H1. apply span_nonspace_app in H1.
    destruct v as [|c v]; [done|]. destruct r as [|sp r]; [done|].
    destruct sp as [[] [] [] [] [] [] [] []]; try done.
    destruct (span_nonspace r) as [st r'] eqn:H2. apply span_nonspace_app in H2.
    destruct st as [|c' st]; [done|]. destruct r' as [|sp r']; [done|].
    destruct sp as [[] [] [] [] [] [] [] []]; try done.
    intros [= -> -> -> ->]. exists r'. rewrite H1, H2. reflexivity.
  - intros [rest ->]. reflexivity.
Qed.

Lemma chars_app (a b : string) : chars (a +:+ b) = chars a ++ chars b.
Proof.
  induction a as [|c a IH]; [done|].
  change (String c a +:+ b) with (String c (a +:+ b)). cbn. by rewrite IH.
Qed.

Lemma length_chars (s : string) : String.length s = length (chars s).
Proof. induction s as [|c s IH]; cbn; [done|]. by rewrite IH. Qed.

Section Handshake.

Variable encode : string -> list Z.
Variable sha1_digest : string -> list Z.
Variable btoa : string -> string.

(** X20.  [handshake] succeeds exactly when the request could be written,
    the status line begins with [HTTP/1.1 101 ] and the response carries
    the accept token of the key that was sent.  With a writer that throws
    it throws the transport error without looking at the response.  With a
    writer that works the request is written in any case; a missing status
    line gives UnexpectedEof, and so do missing headers after a status line
    that begins with [HTTP/1.1 101 ]; the only other errors are the three
    handshake errors. *)
Theorem handshake_outcome (url : URL) (hs : gmap string string) (js : list nat)
    (w : BufWriter) (statusLine : option string) (rh : option (gmap string string)) :
  let r := handshake encode sha1_digest btoa url hs js w statusLine rh in
  (r.1 = Ret tt
   <-> broken w = false
       /\ (exists rest, statusLine = Some ("HTTP/1.1 101 " +:+ rest))
       /\ (exists h, rh = Some h
                     /\ h !! "sec-websocket-accept"
                        = Some (createSecAccept sha1_digest btoa (createSecKey btoa js))))
  /\ (broken w = true -> r = (Throw WriterFailed, w))
  /\ (broken w = false ->
      (exists request, r.2 = mkWriter (out w ++ encode request) false)
      /\ (statusLine = None -> r.1 = Throw UnexpectedEof)
      /\ ((exists rest, statusLine = Some ("HTTP/1.1 101 " +:+ rest)) -> rh = None ->
          r.1 = Throw UnexpectedEof)
      /\ (forall e, r.1 = Throw e ->
            e = UnexpectedEof \/ e = InvalidStatusLine \/ e = HandshakeRejected
            \/ e = UnexpectedSecAccept)).
Proof.
  cbn zeta. unfold handshake, write_flush.
  destruct (broken w) eqn:Hw.
  { cbn. split; [|split; [done|done]]. split; [done|]. by intros [[=] _]. }
  cbn [fst snd]. split; [|split; [done|]].
  - unfold handshake_response. split.
    + intros H. split; [done|].
      destruct statusLine as [line|]; [|done].
      destruct (match_status_line line) as [[v c]|] eqn:Hm; [|done].
      repeat case_bool_decide; cbn in H; try done. subst v c.
      apply match_status_line_101 in Hm as [rest ->].
      split; [by exists rest|].
      destruct rh as [h|]; [|done]. exists h. split; [done|].
      case_bool_decide as Hs; [done|]. first [done|by apply dec_stable in Hs].
    + intros (_ & [rest ->] & h & -> & Hh).
      assert (match_status_line ("HTTP/1.1 101 " +:+ rest) = Some ("HTTP/1.1", "101")) as ->.
      { apply match_status_line_101. by exists rest. }
      cbv beta iota. rewrite !bool_decide_eq_true_2 by done. cbn [negb orb].
      rewrite bool_decide_eq_false_2; [done|]. intros Hn. by apply Hn.
  - intros _. split; [eexists; reflexivity|]. split; [by intros ->|]. split.
    + intros [rest ->] ->. unfold handshake_response.
      assert (match_status_line ("HTTP/1.1 101 " +:+ rest) = Some ("HTTP/1.1", "101")) as ->.
      { apply match_status_line_101. by exists rest. }
      cbv beta iota. by rewrite !bool_decide_eq_true_2 by done.
    + intros e. unfold handshake_response.
      destruct statusLine as [line|]; [|intros [= <-]; auto].
      destruct (match_status_line line) as [[v c]|]; [|intros [= <-]; auto].
      destruct (negb _ || negb _); [intros [= <-]; auto|].
      destruct rh as [h|]; [|intros [= <-]; auto].
      case_bool_decide; [intros [= <-]; auto|done].
Qed.

Lemma acceptable_true (req : ServerRequest) :
  acceptable req = true
  <-> (exists u, headers req !! "upgrade" = Some u /\ toLowerCase u = "websocket")
      /\ (exists k, headers req !! "sec-websocket-key" = Some k /\ k <> "").
Proof.
  unfold acceptable. split.
  - destruct (headers req !! "upgrade") as [u|]; [|done].
    case_bool_decide as Hu; [done|]. cbn [orb].
    case_bool_decide as Hl; [|done]. cbn [negb].
    destruct (headers req !! "sec-websocket-key") as [k|]; [|done].
    intros Hk. apply bool_decide_eq_true in Hk.
    split; [by exists u|]. exists k. split; [done|]. intros ->. cbn in Hk. lia.
  - intros [(u & -> & Hu) (k & -> & Hk)].
    rewrite (bool_decide_eq_false_2 (u = ""))
      by (intros ->; cbn in Hu; discriminate).
    rewrite (bool_decide_eq_true_2 _ Hu). cbn.
    apply bool_decide_eq_true. destruct k; [done|cbn; lia].
Qed.

(** X21.  [acceptWebSocket] returns a socket exactly for a request that has
    an [upgrade] header equal to [websocket] in any letter case and a
    non-empty [sec-websocket-key], on a writer that works.  The socket is
    open, sends without mask, has nothing queued and reads and writes
    through the reader and the writer of the request, on which the
    response has been written.  A request without such headers gets the
    exception of a request that is not acceptable, before anything is
    written; for a request with them the only exception is the one of the
    transport: the exception for a key that was not provided is never
    thrown. *)
Theorem acceptWebSocket_outcome (req : ServerRequest) :
  let r := acceptWebSocket encode sha1_digest btoa req in
  let wanted :=
    (exists u, headers req !! "upgrade" = Some u /\ toLowerCase u = "websocket")
    /\ (exists k, headers req !! "sec-websocket-key" = Some k /\ k <> "") in
  ((exists ws, r.1 = Ret ws) <-> wanted /\ broken (r_bufWriter req) = false)
  /\ (forall ws, r.1 = Ret ws ->
        ws = mkSock false None (r_bufReader req) r.2 [] false []
        /\ exists response, out r.2 = out (r_bufWriter req) ++ encode response)
  /\ (~ wanted -> r = (Throw NotAcceptable, r_bufWriter req))
  /\ (forall e, r.1 = Throw e ->
        (e = NotAcceptable /\ ~ wanted) \/ (e = WriterFailed /\ wanted)).
Proof.
  cbn zeta. pose proof (acceptable_true req) as Hacc.
  unfold acceptWebSocket, writeResponse_101, write_flush.
  destruct (acceptable req) eqn:Ha.
  - assert (Hw := proj1 Hacc eq_refl). destruct Hw as [Hu (k & Hk & Hne)].
    rewrite Hk. destruct (broken (r_bufWriter req)) eqn:Hb; cbn [fst snd].
    + split; [split; [by intros [ws [=]]|by intros [_ [=]]]|].
      split; [done|]. split.
      * intros Hn. exfalso. apply Hn. split; [done|]. by exists k.
      * intros e [= <-]. right. split; [done|]. split; [done|]. by exists k.
    + split; [split; [intros _; split; [split; [done|by exists k]|done]|by eexists]|].
      split; [|split; [|done]].
      * intros ws [= <-]. split; [done|]. eexists. reflexivity.
      * intros Hn. exfalso. apply Hn. split; [done|]. by exists k.
  - cbn [fst snd]. assert (Hn : ~ ((exists u, headers req !! "upgrade" = Some u
                                               /\ toLowerCase u = "websocket")
                 /\ (exists k, headers req !! "sec-websocket-key" = Some k /\ k <> ""))).
    { intros H. apply Hacc in H. congruence. }
    split; [split; [by intros [ws [=]]|by intros [H _]]|].
    split; [done|]. split; [done|]. intros e [= <-]. by left.
Qed.

(** X22.  A socket made by [acceptWebSocket] sends in the clear: what
    [send] adds to the transport is a header whose first byte is FIN with
    the opcode of the kind of data (1 for text, 2 for binary), whose second
    byte has the mask bit clear, followed by the length extension and the
    payload itself, with no mask key. *)
Theorem accepted_socket_sends_in_clear (req : ServerRequest) (ws : WebSocketImpl)
    (w : BufWriter) (data : WebSocketMessage) :
  acceptWebSocket encode sha1_digest btoa req = (Ret ws, w) ->
  let P := match data with MsgString s => encode s | MsgBytes b => b end in
  bytes P ->
  exists b1 ext,
    bufWriter (send encode data ws).2
    = mkWriter (out w
                ++ [128 + match data with MsgString _ => 1 | MsgBytes _ => 2 end; b1]
                ++ ext ++ P) false
    /\ Z.testbit b1 7 = false
    /\ (length ext = 0 \/ length ext = 2 \/ length ext = 8)%nat.
Proof.
  intros Hacc P HP.
  assert (ws = mkSock false None (r_bufReader req) w [] false [] /\ broken w = false)
    as [-> Hw].
  { revert Hacc. unfold acceptWebSocket, writeResponse_101, write_flush.
    destruct (acceptable req); [|done].
    destruct (headers req !! "sec-websocket-key"); [|done].
    destruct (broken (r_bufWriter req)); [done|]. by intros [= <- <-]. }
  rewrite send_open by done. cbn [snd bufWriter sock_mask out].
  set (f := message_frame encode None data).
  assert (Hok : frame_ok f).
  { split; [destruct data; cbn; unfold OpCode.TextFrame, OpCode.BinaryFrame; lia|].
    split; [by destruct data|]. by destruct data. }
  unfold frame_wire. rewrite (writeFrame_header_layout f Hok).
  assert (mask f = None) as -> by by destruct data.
  assert (payload f = P) as -> by by destruct data.
  assert (opcode f = match data with MsgString _ => 1 | MsgBytes _ => 2 end) as ->
    by by destruct data.
  cbn [default unmask app].
  exists (0 + (length_field (Z.of_nat (length P))).1), (length_field (Z.of_nat (length P))).2.
  split; [done|]. unfold length_field.
  repeat case_decide; cbn [fst snd length]; (split; [|auto]).
  - apply Z.bits_above_log2; [lia|].
    destruct (decide (Z.of_nat (length P) = 0)) as [->|]; [done|].
    apply Z.log2_lt_pow2; lia.
  - reflexivity.
  - reflexivity.
Qed.

(** X23.  [createSecKey] encodes a string of exactly 16 characters, each of
    them one of [kSecChars], whatever the 16 indices below the length of
    [kSecChars] are that the random draws give. *)
Theorem createSecKey_shape (js : list nat) :
  length js = 16%nat ->
  Forall (fun j => j < String.length kSecChars)%nat js ->
  exists key,
    createSecKey btoa js = btoa key
    /\ String.length key = 16%nat
    /\ Forall (fun c => c ∈ chars kSecChars) (chars key).
Proof.
  intros Hlen Hjs. unfold createSecKey. eexists. split; [reflexivity|].
  rewrite firstn_all2 by lia.
  assert (forall acc,
            String.length (foldl (fun key j =>
                                    key +:+ match String.get j kSecChars with
                                            | Some c => String c EmptyString
                                            | None => EmptyString
                                            end) acc js)
            = (String.length acc + length js)%nat
            /\ (Forall (fun c => c ∈ chars kSecChars) (chars acc) ->
                Forall (fun c => c ∈ chars kSecChars)
                       (chars (foldl (fun key j =>
                                        key +:+ match String.get j kSecChars with
                                                | Some c => String c EmptyString
                                                | None => EmptyString
                                                end) acc js)))) as H.
  { clear Hlen. induction Hjs as [|j js Hj Hjs IH]; intros acc; cbn [foldl length].
    - split; [lia|done].
    - destruct (IH (acc +:+ match String.get j kSecChars with
                            | Some c => String c EmptyString
                            | None => EmptyString
                            end)) as [IH1 IH2].
      assert (exists c, String.get j kSecChars = Some c /\ c ∈ chars kSecChars) as (c & Hc & Hin).
      { clear -Hj. revert j Hj. generalize kSecChars. intros s. induction s as [|a s IH]; intros j Hj.
        - cbn in Hj. lia.
        - destruct j as [|j]; cbn.
          + exists a. split; [done|]. apply elem_of_cons. by left.
          + destruct (IH j) as (c & Hc & Hin); [cbn in Hj; lia|].
            exists c. split; [done|]. apply elem_of_cons. by right. }
      rewrite Hc in *. split.
      + rewrite IH1, !length_chars, chars_app, length_app. cbn. lia.
      + intros Hacc. apply IH2. rewrite chars_app. apply Forall_app. split; [done|].
        cbn. constructor; [done|constructor]. }
  destruct (H EmptyString) as [H1 H2]. split.
  - rewrite H1, Hlen. reflexivity.
  - apply H2. constructor.
Qed.

End Handshake.

Lemma handshake_outcome_witness :
  (handshake utf8_encode sha1 Base64.encode (mkURL "example.com" "/chat" "") ∅
             [0; 1; 2; 3; 4; 5; 6; 7; 8; 9; 10; 11; 12; 13; 14; 15]%nat (mkWriter [] true)
             (Some "HTTP/1.1 101 Switching Protocols") (Some ∅))
  = (Throw WriterFailed, mkWriter [] true).
Proof.
  destruct (handshake_outcome utf8_encode sha1 Base64.encode (mkURL "example.com" "/chat" "") ∅
              [0; 1; 2; 3; 4; 5; 6; 7; 8; 9; 10; 11; 12; 13; 14; 15]%nat (mkWriter [] true)
              (Some "HTTP/1.1 101 Switching Protocols") (Some ∅)) as (_ & H & _).
  exact (H eq_refl).
Defined.

Lemma acceptWebSocket_outcome_witness :
  let req := mkRequest {[ "upgrade" := "WebSocket" ]} [] (mkWriter [] false) in
  acceptWebSocket utf8_encode sha1 Base64.encode req = (Throw NotAcceptable, mkWriter [] false).
Proof.
  intros req.
  destruct (acceptWebSocket_outcome utf8_encode sha1 Base64.encode req) as (_ & _ & H & _).
  apply H. intros [_ (k & Hk & _)]. discriminate Hk.
Defined.

Lemma accepted_socket_sends_in_clear_witness :
  exists b1 ext,
    bufWriter (send (fun _ => []) (MsgBytes [1; 2; 3])
                    (mkSock false None [] (mkWriter [] false) [] false [])).2
    = mkWriter ([] ++ [128 + 2; b1] ++ ext ++ [1; 2; 3]) false
    /\ Z.testbit b1 7 = false
    /\ (length ext = 0 \/ length ext = 2 \/ length ext = 8)%nat.
Proof.
  refine (accepted_socket_sends_in_clear (fun _ => []) (fun _ => []) (fun _ => EmptyString)
            (mkRequest {[ "upgrade" := "websocket"; "sec-websocket-key" := "abc" ]} []
                       (mkWriter [] false))
            (mkSock false None [] (mkWriter [] false) [] false [])
            (mkWriter [] false) (MsgBytes [1; 2; 3]) _ _).
  - vm_compute. reflexivity.
  - repeat constructor; unfold is_byte; lia.
Defined.

Lemma createSecKey_shape_witness :
  exists key,
    createSecKey Base64.encode [0; 1; 2; 3; 4; 5; 6; 7; 8; 9; 10; 11; 12; 13; 14; 55]%nat
    = Base64.encode key
    /\ String.length key = 16%nat
    /\ Forall (fun c => c ∈ chars kSecChars) (chars key).
Proof.
  apply (createSecKey_shape Base64.encode
           [0; 1; 2; 3; 4; 5; 6; 7; 8; 9; 10; 11; 12; 13; 14; 55]%nat).
  - reflexivity.
  - repeat constructor; cbn; lia.
Defined.

(** ** bytes/mod.ts and the BufWriter of io/bufio.ts *)

Lemma list_inserts_splice (i : nat) (k l : list Z) :
  (i + length k <= length l)%nat ->
  list_inserts i k l = take i l ++ k ++ drop (i + length k) l.
Proof.
  intros H.
  rewrite <- (take_drop i l) at 1.
  rewrite <- (take_drop (length k) (drop i l)) at 1.
  replace i with (length (take i l) + 0)%nat at 1 by (rewrite length_take; lia).
  rewrite list_inserts_app_r, list_inserts_0_r.
  - by rewrite drop_drop.
  - rewrite length_take, length_drop. lia.
Qed.

Lemma copyBytes_value (src dst : list Z) (off : Z) :
  let o := Z.to_nat (Z.max 0 (Z.min off (Z.of_nat (length dst)))) in
  let n := (length src `min` (length dst - o))%nat in
  Bytes.copyBytes src dst off = Ret (take o dst ++ take n src ++ drop (o + n) dst, n).
Proof.
  cbn zeta. set (o := Z.to_nat _). assert (Ho : (o <= length dst)%nat) by (unfold o; lia).
  unfold Bytes.copyBytes. fold o.
  case_decide as Hfit.
  - unfold Uint8Array_set. rewrite decide_True by (rewrite length_take; lia).
    rewrite list_inserts_splice by (rewrite length_take; lia).
    rewrite length_take.
    rewrite (Nat.min_l (length dst - o) (length src)) by lia.
    by rewrite (Nat.min_r (length src) (length dst - o)) by lia.
  - unfold Uint8Array_set. rewrite decide_True by lia.
    rewrite list_inserts_splice by lia.
    rewrite (Nat.min_l (length src)) by lia. by rewrite firstn_all.
Qed.

(** X24.  [copyBytes] never throws: it copies the bytes of [src] that fit
    into [dst] from the offset on, the offset being brought into the range
    of [dst] first, leaves the rest of [dst] as it was, keeps its length,
    and returns the number of bytes copied. *)
Theorem copyBytes_copies_what_fits (src dst : list Z) (off : Z) :
  let o := Z.to_nat (Z.max 0 (Z.min off (Z.of_nat (length dst)))) in
  let n := (length src `min` (length dst - o))%nat in
  exists dst',
    Bytes.copyBytes src dst off = Ret (dst', n)
    /\ length dst' = length dst
    /\ take o dst' = take o dst
    /\ take n (drop o dst') = take n src
    /\ drop (o + n) dst' = drop (o + n) dst.
Proof.
  cbn zeta. rewrite copyBytes_value. eexists. split; [reflexivity|].
  set (o := Z.to_nat _). assert (Ho : (o <= length dst)%nat) by (unfold o; lia).
  set (n := (length src `min` (length dst - o))%nat).
  assert (Hlo : length (take o dst) = o) by (rewrite length_take; lia).
  assert (Hln : length (take n src) = n) by (rewrite length_take; lia).
  split; [rewrite !length_app, Hlo, Hln, length_drop; lia|].
  split; [by rewrite take_app_length'|].
  split.
  - rewrite drop_app_length' by done. by rewrite take_app_length'.
  - rewrite drop_app_add' by done. by rewrite drop_app_length'.
Qed.

(** X25.  [concat] never throws and returns the bytes of its first
    argument followed by those of the second: the [header ++ payload] of
    the frame encoder. *)
Theorem concat_appends (origin b : list Z) : Bytes.concat origin b = Ret (origin ++ b).
Proof.
  unfold Bytes.concat, Uint8Array_new. rewrite decide_False by lia.
  rewrite <- Nat2Z.inj_add, Nat2Z.id.
  pose proof (Uint8Array_set_zeros [] origin (length b)) as H1. cbn [app length] in H1.
  rewrite H1.
  pose proof (Uint8Array_set_zeros origin b 0) as H2. rewrite Nat.add_0_r in H2.
  rewrite H2. cbn. by rewrite app_nil_r.
Qed.

Lemma drop_length_take (k : nat) (l : list Z) : drop (length (take k l)) l = drop k l.
Proof.
  rewrite length_take. destruct (decide (k <= length l)%nat).
  - by rewrite Nat.min_l.
  - rewrite Nat.min_r by lia. by rewrite !drop_ge by lia.
Qed.

Lemma Sink_write_working (p : list Z) (s : Bufio.Sink) :
  Bufio.failing s = false ->
  Bufio.Sink_write p s
  = match Bufio.caps s with
    | [] => (Ret (length p), Bufio.mkSink (Bufio.delivered s ++ p) [] false)
    | k :: caps =>
        (Ret (length (take k p)), Bufio.mkSink (Bufio.delivered s ++ take k p) caps false)
    end.
Proof. intros Hf. unfold Bufio.Sink_write. rewrite Hf. by destruct (Bufio.caps s). Qed.

Lemma writeAll_ok (fuel : nat) (arr : list Z) (s : Bufio.Sink) :
  Bufio.failing s = false ->
  (length (Bufio.caps s) < fuel)%nat ->
  exists cs,
    Bufio.writeAll fuel arr s = Some (Ret tt, Bufio.mkSink (Bufio.delivered s ++ arr) cs false)
    /\ (length cs <= length (Bufio.caps s))%nat.
Proof.
  revert arr s. induction fuel as [|fuel IH]; intros arr s Hf Hfuel; [lia|].
  destruct arr as [|a arr].
  { exists (Bufio.caps s). split; [|done]. cbn. rewrite app_nil_r.
    destruct s; cbn in *; by subst. }
  cbn [Bufio.writeAll]. rewrite Sink_write_working by done.
  destruct (Bufio.caps s) as [|k cs] eqn:Hc.
  - rewrite drop_all. exists []. split; [|done]. by destruct fuel.
  - rewrite drop_length_take.
    destruct (IH (drop k (a :: arr)) (Bufio.mkSink (Bufio.delivered s ++ take k (a :: arr)) cs false))
      as (cs' & -> & Hle); [done|cbn in *; lia|].
    exists cs'. cbn [Bufio.delivered Bufio.caps length] in *. rewrite <- app_assoc, take_drop.
    split; [done|lia].
Qed.

Lemma writeAll_run (fuel : nat) (arr : list Z) (s : Bufio.Sink) :
  (length (Bufio.caps s) < fuel)%nat ->
  exists r s',
    Bufio.writeAll fuel arr s = Some (r, s')
    /\ Bufio.failing s' = Bufio.failing s
    /\ (length (Bufio.caps s') <= length (Bufio.caps s))%nat
    /\ ((r = Ret tt /\ Bufio.delivered s' = Bufio.delivered s ++ arr)
        \/ (r = Throw WriterFailed /\ Bufio.failing s = true
            /\ exists p q,
                 Bufio.delivered s' = Bufio.delivered s ++ p /\ arr = p ++ q /\ q <> [])).
Proof.
  revert arr s. induction fuel as [|fuel IH]; intros arr s Hfuel; [lia|].
  destruct arr as [|a arr].
  { exists (Ret tt), s. cbn. rewrite app_nil_r. auto 6. }
  cbn [Bufio.writeAll]. unfold Bufio.Sink_write.
  destruct (Bufio.caps s) as [|k cs] eqn:Hc.
  - destruct (Bufio.failing s) eqn:Hf.
    + exists (Throw WriterFailed), s. rewrite Hc.
      split; [done|]. split; [done|]. split; [done|]. right. split; [done|]. split; [done|].
      exists [], (a :: arr). by rewrite app_nil_r.
    + rewrite drop_all. eexists (Ret tt), _. split; [by destruct fuel|]. cbn. auto.
  - rewrite drop_length_take.
    destruct (IH (drop k (a :: arr))
                 (Bufio.mkSink (Bufio.delivered s ++ take k (a :: arr)) cs (Bufio.failing s)))
      as (r & s' & -> & Hf' & Hc' & H); [cbn in *; lia|].
    exists r, s'. split; [done|].
    cbn [Bufio.delivered Bufio.caps Bufio.failing length] in *.
    split; [done|]. split; [lia|].
    destruct H as [[-> Hd]|(-> & Hf & p & q & Hd & Hs & Hq)].
    + left. split; [done|]. by rewrite Hd, <- app_assoc, take_drop.
    + right. split; [done|]. split; [done|].
      exists (take k (a :: arr) ++ p), q. rewrite Hd, <- !app_assoc.
      split; [done|]. split; [|done]. by rewrite <- Hs, take_drop.
Qed.

Lemma flush_run (fuel : nat) (b : Bufio.BufWriter) :
  Bufio.err b = None ->
  (length (Bufio.caps (Bufio.writer b)) < fuel)%nat ->
  exists r b',
    Bufio.flush fuel b = Some (r, b')
    /\ Bufio.failing (Bufio.writer b') = Bufio.failing (Bufio.writer b)
    /\ ((r = Ret tt /\ Bufio.err b' = None /\ Bufio.usedBufferBytes b' = 0%nat
         /\ Bufio.delivered (Bufio.writer b')
            = Bufio.delivered (Bufio.writer b)
              ++ take (Bufio.usedBufferBytes b) (Bufio.buf b))
        \/ (r = Throw WriterFailed /\ Bufio.err b' = Some WriterFailed
            /\ Bufio.failing (Bufio.writer b) = true
            /\ exists p q,
                 Bufio.delivered (Bufio.writer b') = Bufio.delivered (Bufio.writer b) ++ p
                 /\ take (Bufio.usedBufferBytes b) (Bufio.buf b) = p ++ q /\ q <> [])).
Proof.
  intros He Hfuel. unfold Bufio.flush. rewrite He. case_decide as Hu.
  - exists (Ret tt), b. split; [done|]. split; [done|]. left.
    rewrite Hu, take_0, app_nil_r. done.
  - destruct (writeAll_run fuel (take (Bufio.usedBufferBytes b) (Bufio.buf b)) (Bufio.writer b)
                Hfuel) as (r & s' & -> & Hf' & _ & H).
    destruct H as [[-> Hd]|(-> & Hf & p & q & Hd & Hs & Hq)].
    + eexists _, _. split; [reflexivity|]. cbn. split; [done|]. by left.
    + eexists _, _. split; [reflexivity|]. cbn. split; [done|]. right.
      split; [done|]. split; [done|]. split; [done|]. by exists p, q.
Qed.

Lemma flush_ok (fuel : nat) (b : Bufio.BufWriter) :
  Bufio.err b = None ->
  Bufio.failing (Bufio.writer b) = false ->
  (length (Bufio.caps (Bufio.writer b)) < fuel)%nat ->
  exists cs,
    Bufio.flush fuel b
    = Some (Ret tt,
            Bufio.mkBufWriter
              (if decide (Bufio.usedBufferBytes b = 0%nat) then Bufio.buf b
               else replicate (length (Bufio.buf b)) 0)
              0 None
              (Bufio.mkSink (Bufio.delivered (Bufio.writer b)
                             ++ take (Bufio.usedBufferBytes b) (Bufio.buf b)) cs false))
    /\ (length cs <= length (Bufio.caps (Bufio.writer b)))%nat.
Proof.
  intros He Hf Hfuel. unfold Bufio.flush. rewrite He. case_decide as Hu.
  - exists (Bufio.caps (Bufio.writer b)). split; [|done]. rewrite Hu. cbn. rewrite app_nil_r.
    destruct b as [bf u e [dl cp fl]]; cbn in *. by subst.
  - destruct (writeAll_ok fuel (take (Bufio.usedBufferBytes b) (Bufio.buf b)) (Bufio.writer b))
      as (cs & -> & Hle); [done..|].
    by exists cs.
Qed.

Lemma copyBytes_at (data bf : list Z) (used : nat) :
  (used <= length bf)%nat ->
  let n := (length data `min` (length bf - used))%nat in
  Bytes.copyBytes data bf (Z.of_nat used)
  = Ret (take used bf ++ take n data ++ drop (used + n) bf, n).
Proof.
  intros Hu. cbn zeta. rewrite copyBytes_value.
  by replace (Z.to_nat (Z.max 0 (Z.min (Z.of_nat used) (Z.of_nat (length bf))))) with used by lia.
Qed.

Lemma write_loop_fits (fuel : nat) (data : list Z) (total : nat) (b : Bufio.BufWriter) :
  (Bufio.usedBufferBytes b <= length (Bufio.buf b))%nat ->
  (length data <= Bufio.available b)%nat ->
  Bufio.write_loop fuel data total b
  = Some (Ret (total + length data)%nat,
          Bufio.mkBufWriter
            (take (Bufio.usedBufferBytes b) (Bufio.buf b) ++ data
             ++ drop (Bufio.usedBufferBytes b + length data) (Bufio.buf b))
            (Bufio.usedBufferBytes b + length data) (Bufio.err b) (Bufio.writer b)).
Proof.
  intros Hu Hfit. unfold Bufio.available in Hfit.
  assert (Bufio.write_loop fuel data total b
          = match Bytes.copyBytes data (Bufio.buf b) (Z.of_nat (Bufio.usedBufferBytes b)) with
            | Throw e => Some (Throw e, b)
            | Ret (buf', n) =>
                Some (Ret (total + n)%nat,
                      Bufio.mkBufWriter buf' (Bufio.usedBufferBytes b + n) (Bufio.err b)
                                        (Bufio.writer b))
            end) as ->.
  { destruct fuel; cbn [Bufio.write_loop]; unfold Bufio.available;
      by rewrite decide_False by lia. }
  rewrite copyBytes_at by done. cbn zeta.
  rewrite (Nat.min_l (length data)) by lia. by rewrite firstn_all.
Qed.

Lemma write_loop_ok (fuel : nat) (data : list Z) (total : nat) (b : Bufio.BufWriter) :
  Bufio.err b = None ->
  Bufio.failing (Bufio.writer b) = false ->
  (Bufio.usedBufferBytes b <= length (Bufio.buf b))%nat ->
  (2 * length (Bufio.caps (Bufio.writer b))
   + (if decide (Bufio.usedBufferBytes b = 0%nat) then 0 else 1) < fuel)%nat ->
  exists b',
    Bufio.write_loop fuel data total b = Some (Ret (total + length data)%nat, b')
    /\ Bufio.err b' = None
    /\ Bufio.failing (Bufio.writer b') = false
    /\ (Bufio.usedBufferBytes b' <= length (Bufio.buf b'))%nat
    /\ (length (Bufio.caps (Bufio.writer b')) <= length (Bufio.caps (Bufio.writer b)))%nat
    /\ length (Bufio.buf b') = length (Bufio.buf b)
    /\ Bufio.delivered (Bufio.writer b') ++ take (Bufio.usedBufferBytes b') (Bufio.buf b')
       = Bufio.delivered (Bufio.writer b)
         ++ take (Bufio.usedBufferBytes b) (Bufio.buf b) ++ data.
Proof.
  revert data total b. induction fuel as [|fuel IH]; intros data total b He Hf Hu Hfuel; [lia|].
  destruct (decide (Bufio.available b < length data)%nat) as [Hbig|Hfit].
  2: { rewrite write_loop_fits by (done || lia). eexists. split; [reflexivity|].
       cbn [Bufio.err Bufio.writer Bufio.usedBufferBytes Bufio.buf].
       unfold Bufio.available in Hfit.
       assert (length (take (Bufio.usedBufferBytes b) (Bufio.buf b)) = Bufio.usedBufferBytes b)
         as Hlt by (rewrite length_take; lia).
       split; [done|]. split; [done|].
       split; [rewrite !length_app, Hlt, length_drop; lia|].
       split; [done|].
       split; [rewrite !length_app, Hlt, length_drop; lia|].
       f_equal. rewrite app_assoc.
       apply take_app_length'. rewrite length_app, Hlt. done. }
  cbn [Bufio.write_loop]. rewrite decide_True by done. unfold Bufio.buffered.
  destruct (decide (Bufio.usedBufferBytes b = 0%nat)) as [Hz|Hnz].
  - (* large write, empty buffer *)
    rewrite Sink_write_working by done.
    destruct (Bufio.caps (Bufio.writer b)) as [|k cs] eqn:Hc.
    + rewrite drop_all.
      rewrite write_loop_fits by (cbn; lia). eexists. split.
      { cbn [length]. rewrite (Nat.add_0_r (total + length data)). reflexivity. }
      cbn [Bufio.err Bufio.writer Bufio.usedBufferBytes Bufio.buf Bufio.failing Bufio.caps
           Bufio.delivered length app].
      rewrite Hz, take_0. cbn [drop Nat.add app]. rewrite ?drop_0.
      split; [done|]. split; [done|]. split; [lia|]. split; [done|]. split; [done|].
      by rewrite app_nil_r.
    + rewrite drop_length_take.
      destruct (IH (drop k data) (total + length (take k data))%nat
                   (Bufio.mkBufWriter (Bufio.buf b) (Bufio.usedBufferBytes b) (Bufio.err b)
                      (Bufio.mkSink (Bufio.delivered (Bufio.writer b) ++ take k data) cs false)))
        as (b' & Hw & He' & Hf' & Hu' & Hc' & Hl' & Hd'); [done|done|done| |].
      { cbn [Bufio.writer Bufio.caps Bufio.usedBufferBytes]. rewrite decide_True by done.
        cbn [length] in Hfuel. lia. }
      exists b'. split.
      { rewrite Hw. do 3 f_equal.
        rewrite <- (take_drop k data) at 3. rewrite length_app. lia. }
      cbn [Bufio.err Bufio.writer Bufio.usedBufferBytes Bufio.buf Bufio.failing Bufio.caps
           Bufio.delivered length] in *.
      split; [done|]. split; [done|]. split; [done|]. split; [lia|]. split; [done|].
      rewrite Hd', Hz, !take_0. cbn [app]. by rewrite <- app_assoc, take_drop.
  - (* fill the buffer and flush it *)
    rewrite copyBytes_at by done. cbn zeta.
    set (n := (length data `min` (length (Bufio.buf b) - Bufio.usedBufferBytes b))%nat).
    assert (Hn : n = (length (Bufio.buf b) - Bufio.usedBufferBytes b)%nat)
      by (unfold n, Bufio.available in *; lia).
    set (b1 := Bufio.mkBufWriter _ _ _ _).
    destruct (flush_ok (S fuel) b1) as (cs & Hfl & Hcs); [done|done| |].
    { cbn. try rewrite decide_False in Hfuel by done. lia. }
    rewrite Hfl. rewrite decide_False by (cbn; lia).
    cbn [b1 Bufio.buf Bufio.usedBufferBytes Bufio.writer Bufio.delivered Bufio.caps] in *.
    match goal with |- context [Bufio.write_loop fuel ?dd ?tt ?bb] =>
      destruct (IH dd tt bb) as (b' & Hw & He' & Hf' & Hu' & Hc' & Hl' & Hd') end;
      [done|done|cbn; lia| |].
    { cbn [Bufio.writer Bufio.caps Bufio.usedBufferBytes]. rewrite decide_True by done.
      try rewrite decide_False in Hfuel by done. lia. }
    exists b'. split.
    { rewrite Hw. do 3 f_equal. rewrite length_drop. lia. }
    cbn [Bufio.err Bufio.writer Bufio.usedBufferBytes Bufio.buf Bufio.failing Bufio.caps
         Bufio.delivered length] in *.
    assert (length (take (Bufio.usedBufferBytes b) (Bufio.buf b)) = Bufio.usedBufferBytes b)
      as Hlt by (rewrite length_take; lia).
    assert (length (take n data) = n) as Hln
      by (rewrite length_take; unfold n; lia).
    split; [done|]. split; [done|]. split; [done|]. split; [lia|].
    split.
    { rewrite Hl', length_replicate, !length_app, Hlt, Hln, length_drop. lia. }
    rewrite Hd', take_0. cbn [app]. rewrite <- !app_assoc. f_equal.
    rewrite (drop_ge (Bufio.buf b)) by lia. rewrite app_nil_r.
    rewrite take_ge by (rewrite length_app, Hlt, Hln; lia).
    rewrite <- !app_assoc. by rewrite take_drop.
Qed.

Lemma write_loop_run (fuel : nat) (data : list Z) (total : nat) (b : Bufio.BufWriter) :
  Bufio.err b = None ->
  Bufio.usedBufferBytes b = 0%nat ->
  (length (Bufio.caps (Bufio.writer b)) < fuel)%nat ->
  exists r b',
    Bufio.write_loop fuel data total b = Some (r, b')
    /\ Bufio.failing (Bufio.writer b') = Bufio.failing (Bufio.writer b)
    /\ (length (Bufio.caps (Bufio.writer b')) <= length (Bufio.caps (Bufio.writer b)))%nat
    /\ (((exists n, r = Ret n) /\ Bufio.err b' = None
         /\ exists x,
              Bufio.delivered (Bufio.writer b') = Bufio.delivered (Bufio.writer b) ++ x
              /\ data = x ++ take (Bufio.usedBufferBytes b') (Bufio.buf b'))
        \/ (r = Throw WriterFailed /\ Bufio.err b' = Some WriterFailed
            /\ Bufio.failing (Bufio.writer b) = true
            /\ exists p q,
                 Bufio.delivered (Bufio.writer b') = Bufio.delivered (Bufio.writer b) ++ p
                 /\ data = p ++ q /\ q <> [])).
Proof.
  revert data total b. induction fuel as [|fuel IH]; intros data total b He Hu Hfuel; [lia|].
  destruct (decide (Bufio.available b < length data)%nat) as [Hbig|Hfit].
  2: { rewrite write_loop_fits by lia. eexists _, _. split; [reflexivity|].
       cbn [Bufio.err Bufio.writer Bufio.usedBufferBytes Bufio.buf].
       split; [done|]. split; [done|]. left. split; [by eexists|]. split; [done|].
       exists []. rewrite app_nil_r. split; [done|].
       rewrite Hu, take_0. cbn [app Nat.add]. by rewrite take_app_length. }
  cbn [Bufio.write_loop]. rewrite decide_True by done. unfold Bufio.buffered.
  rewrite decide_True by done. unfold Bufio.Sink_write.
  destruct (Bufio.caps (Bufio.writer b)) as [|k cs] eqn:Hc.
  - destruct (Bufio.failing (Bufio.writer b)) eqn:Hf.
    + eexists _, _. split; [reflexivity|].
      cbn [Bufio.err Bufio.writer Bufio.usedBufferBytes Bufio.buf]. rewrite Hc, Hf.
      split; [done|]. split; [done|]. right. split; [done|]. split; [done|]. split; [done|].
      exists [], data. rewrite app_nil_r. split; [done|]. split; [done|].
      intros ->. cbn in Hbig. lia.
    + rewrite drop_all. rewrite write_loop_fits by (cbn; lia). eexists _, _.
      split; [reflexivity|].
      cbn [Bufio.err Bufio.writer Bufio.usedBufferBytes Bufio.buf Bufio.failing Bufio.caps
           Bufio.delivered length].
      split; [done|]. split; [done|]. left. split; [by eexists|]. split; [done|].
      exists data. split; [done|]. rewrite Hu, take_0. cbn [app Nat.add take]. by rewrite app_nil_r.
  - rewrite drop_length_take.
    destruct (IH (drop k data) (total + length (take k data))%nat
                 (Bufio.mkBufWriter (Bufio.buf b) (Bufio.usedBufferBytes b) (Bufio.err b)
                    (Bufio.mkSink (Bufio.delivered (Bufio.writer b) ++ take k data) cs
                                  (Bufio.failing (Bufio.writer b)))))
      as (r & b' & -> & Hf' & Hc' & H); [done|done|cbn in *; lia|].
    exists r, b'. split; [done|].
    cbn [Bufio.err Bufio.writer Bufio.usedBufferBytes Bufio.buf Bufio.failing Bufio.caps
         Bufio.delivered length] in *.
    split; [done|]. split; [lia|].
    destruct H as [(Hr & He' & x & Hd & Hx)|(-> & He' & Hf & p & q & Hd & Hs & Hq)].
    + left. split; [done|]. split; [done|]. exists (take k data ++ x).
      rewrite Hd, <- !app_assoc. split; [done|]. by rewrite <- Hx, take_drop.
    + right. split; [done|]. split; [done|]. split; [done|].
      exists (take k data ++ p), q. rewrite Hd, <- !app_assoc.
      split; [done|]. split; [|done]. by rewrite <- Hs, take_drop.
Qed.

Lemma write_then_flush_run (fuel : nat) (data : list Z) (b : Bufio.BufWriter) :
  Bufio.err b = None ->
  Bufio.usedBufferBytes b = 0%nat ->
  data <> [] ->
  (length (Bufio.caps (Bufio.writer b)) < fuel)%nat ->
  exists r b',
    Bufio.write_then_flush fuel data b = Some (r, b')
    /\ Bufio.failing (Bufio.writer b') = Bufio.failing (Bufio.writer b)
    /\ ((r = Ret tt /\ Bufio.err b' = None /\ Bufio.usedBufferBytes b' = 0%nat
         /\ Bufio.delivered (Bufio.writer b') = Bufio.delivered (Bufio.writer b) ++ data)
        \/ (r = Throw WriterFailed /\ Bufio.err b' = Some WriterFailed
            /\ Bufio.failing (Bufio.writer b) = true
            /\ exists p q,
                 Bufio.delivered (Bufio.writer b') = Bufio.delivered (Bufio.writer b) ++ p
                 /\ data = p ++ q /\ q <> [])).
Proof.
  intros He Hu Hd Hfuel. unfold Bufio.write_then_flush, Bufio.write. rewrite He.
  rewrite decide_False by (by destruct data).
  destruct (write_loop_run fuel data 0 b He Hu Hfuel) as (r1 & b1 & -> & Hf1 & Hc1 & H1).
  destruct H1 as [([n ->] & He1 & x & Hx & Hdx)|(-> & He1 & Hf & p & q & Hp & Hpq & Hq)].
  - destruct (flush_run fuel b1 He1) as (r & b' & -> & Hf' & H); [lia|].
    exists r, b'. split; [done|]. split; [congruence|].
    destruct H as [(-> & He' & Hu' & Hd')|(-> & He' & Hf & p & q & Hp & Hpq & Hq)].
    + left. split; [done|]. split; [done|]. split; [done|].
      by rewrite Hd', Hx, <- app_assoc, <- Hdx.
    + right. split; [done|]. split; [done|]. split; [congruence|].
      exists (x ++ p), q. rewrite Hp, Hx, <- !app_assoc. split; [done|]. split; [|done].
      by rewrite <- Hpq.
  - exists (Throw WriterFailed), b1. split; [done|]. split; [done|]. right.
    split; [done|]. split; [done|]. split; [done|]. by exists p, q.
Qed.

Lemma write_then_flush_throwing (fuel : nat) (data : list Z) (b : Bufio.BufWriter) :
  Bufio.err b = None ->
  Bufio.usedBufferBytes b = 0%nat ->
  data <> [] ->
  Bufio.throwing (Bufio.writer b) = true ->
  (0 < fuel)%nat ->
  exists b',
    Bufio.write_then_flush fuel data b = Some (Throw WriterFailed, b')
    /\ Bufio.err b' = Some WriterFailed
    /\ Bufio.writer b' = Bufio.writer b.
Proof.
  intros He Hu Hd Ht Hfuel. unfold Bufio.throwing in Ht.
  destruct (Bufio.caps (Bufio.writer b)) as [|k cs] eqn:Hc; [|done].
  unfold Bufio.write_then_flush, Bufio.write. rewrite He.
  rewrite decide_False by (by destruct data).
  destruct fuel as [|fuel]; [lia|].
  destruct (decide (Bufio.available b < length data)%nat) as [Hbig|Hfit].
  - cbn [Bufio.write_loop].
    rewrite decide_True by done. unfold Bufio.buffered. rewrite decide_True by done.
    unfold Bufio.Sink_write. rewrite Hc, Ht. eexists. split; [reflexivity|]. done.
  - unfold Bufio.available in Hfit.
    rewrite write_loop_fits by (unfold Bufio.available; lia).
    unfold Bufio.flush. cbn [Bufio.err Bufio.usedBufferBytes Bufio.buf Bufio.writer].
    rewrite He, Hu. rewrite decide_False by (destruct data; cbn; [done|lia]).
    rewrite take_0. cbn [Nat.add app]. rewrite take_app_length.
    destruct data as [|a data]; [done|]. cbn [Bufio.writeAll]. unfold Bufio.Sink_write.
    rewrite Hc, Ht. eexists. split; [reflexivity|]. done.
Qed.

(** X26.  [write] followed by [flush] on a BufWriter without error over a
    transport that works delivers everything in order: the transport ends
    up with what it had, then what was buffered, then [data], however the
    transport splits the writes and whether or not [data] fits the buffer.
    Afterwards nothing is buffered and the buffer has its size.  The loops
    end: a number of turns of twice the partial writes of the transport and
    two is enough. *)
Theorem write_then_flush_delivers (fuel : nat) (data : list Z) (b : Bufio.BufWriter) :
  Bufio.err b = None ->
  Bufio.failing (Bufio.writer b) = false ->
  (Bufio.usedBufferBytes b <= length (Bufio.buf b))%nat ->
  (2 * length (Bufio.caps (Bufio.writer b)) + 2 <= fuel)%nat ->
  exists b',
    Bufio.write_then_flush fuel data b = Some (Ret tt, b')
    /\ Bufio.delivered (Bufio.writer b')
       = Bufio.delivered (Bufio.writer b)
         ++ take (Bufio.usedBufferBytes b) (Bufio.buf b) ++ data
    /\ Bufio.usedBufferBytes b' = 0%nat
    /\ Bufio.err b' = None
    /\ Bufio.failing (Bufio.writer b') = false
    /\ length (Bufio.buf b') = length (Bufio.buf b).
Proof.
  intros He Hf Hu Hfuel. unfold Bufio.write_then_flush, Bufio.write. rewrite He.
  case_decide as Hd.
  - destruct data; [|done].
    destruct (flush_ok fuel b) as (cs & -> & _); [done|done|lia|].
    eexists. split; [reflexivity|]. cbn. rewrite app_nil_r.
    repeat split; try done. by case_decide; rewrite ?length_replicate.
  - destruct (write_loop_ok fuel data 0 b) as (b1 & -> & He1 & Hf1 & Hu1 & Hc1 & Hl1 & Hd1);
      [done|done|done|case_decide; lia|].
    destruct (flush_ok fuel b1) as (cs & -> & _); [done|done|lia|].
    eexists. split; [reflexivity|]. cbn. rewrite Hd1.
    repeat split; try done. by case_decide; rewrite ?length_replicate.
Qed.

Lemma write_then_flush_delivers_witness :
  let b := Bufio.mkBufWriter [1; 2; 0; 0] 2 None (Bufio.mkSink [9] [1; 0; 3]%nat false) in
  exists b',
    Bufio.write_then_flush 8 [3; 4; 5; 6; 7] b = Some (Ret tt, b')
    /\ Bufio.delivered (Bufio.writer b') = [9; 1; 2; 3; 4; 5; 6; 7].
Proof.
  intros b.
  destruct (write_then_flush_delivers 8 [3; 4; 5; 6; 7] b eq_refl eq_refl)
    as (b' & H1 & H2 & _).
  - cbn. lia.
  - cbn. lia.
  - exists b'. split; [exact H1|exact H2].
Defined.

(** X27.  [write] and [flush] on a BufWriter between two frames (nothing
    buffered, or holding the exception of the transport), with data that
    is not empty, over a transport that may fail at any point.  They end,
    and leave the BufWriter between two frames again.  When they return,
    the transport has taken all of [data].  When they throw, the transport
    has taken a part of [data] that is not all of it, maybe nothing, the
    BufWriter holds the exception, and every later call throws it again
    and delivers nothing.  Over a transport that never throws, or that
    throws at this very call, or with the exception held already, outcome
    and bytes are those [write_flush] computes: the writer of the
    connection model is the BufWriter over such a transport, and it does
    not tell what a transport that fails in the middle of a frame has
    taken. *)
Theorem write_flush_refines (fuel : nat) (data : list Z) (b : Bufio.BufWriter) :
  settled b ->
  data <> [] ->
  (2 * length (Bufio.caps (Bufio.writer b)) + 2 <= fuel)%nat ->
  exists r b',
    Bufio.write_then_flush fuel data b = Some (r, b')
    /\ settled b'
    /\ (r = Ret tt ->
        Bufio.delivered (Bufio.writer b') = Bufio.delivered (Bufio.writer b) ++ data)
    /\ (forall e, r = Throw e ->
          e = WriterFailed
          /\ Bufio.err b' = Some WriterFailed
          /\ (exists p q,
                Bufio.delivered (Bufio.writer b') = Bufio.delivered (Bufio.writer b) ++ p
                /\ data = p ++ q /\ q <> [])
          /\ forall fuel' data',
               Bufio.write_then_flush fuel' data' b' = Some (Throw WriterFailed, b'))
    /\ (Bufio.failing (Bufio.writer b) = false
        \/ Bufio.throwing (Bufio.writer b) = true
        \/ Bufio.err b <> None ->
        write_flush data (abstraction b) = (r, abstraction b')).
Proof.
  assert (Hlater : forall b' : Bufio.BufWriter, Bufio.err b' = Some WriterFailed ->
            forall fuel' data',
              Bufio.write_then_flush fuel' data' b' = Some (Throw WriterFailed, b')).
  { intros b' He' fuel' data'. unfold Bufio.write_then_flush, Bufio.write. by rewrite He'. }
  intros [[He Hu]|He] Hd Hfuel.
  - destruct (write_then_flush_run fuel data b He Hu Hd) as (r & b' & Hw & Hf' & H); [lia|].
    exists r, b'. split; [done|].
    destruct H as [(-> & He' & Hu' & Hd')|(-> & He' & Hf & p & q & Hp & Hpq & Hq)].
    + split; [by left|]. split; [done|]. split; [done|].
      intros [Hf|[Ht|Hn]]; [| |done].
      * unfold write_flush, abstraction, Bufio.throwing. rewrite Hf', Hf, He, He', Hd'.
        cbn [broken out]. by destruct (Bufio.caps _), (Bufio.caps _).
      * destruct (write_then_flush_throwing fuel data b He Hu Hd Ht) as (b2 & Hw2 & _);
          [lia|]. congruence.
    + split; [by right|]. split; [done|]. split.
      { intros e [= <-]. split; [done|]. split; [done|]. split; [by exists p, q|]. auto. }
      intros [Hf0|[Ht|Hn]]; [congruence| |done].
      destruct (write_then_flush_throwing fuel data b He Hu Hd Ht) as (b2 & Hw2 & He2 & Hs2);
        [lia|].
      assert (b' = b2) as -> by congruence.
      unfold write_flush, abstraction. rewrite Hs2, Ht, He2. done.
  - exists (Throw WriterFailed), b. split; [by apply Hlater|]. split; [by right|].
    split; [done|]. split.
    { intros e [= <-]. split; [done|]. split; [done|]. split; [|auto].
      exists [], data. by rewrite app_nil_r. }
    intros _. unfold write_flush, abstraction. cbn [broken out]. rewrite He.
    rewrite bool_decide_eq_true_2 by done. by rewrite orb_true_r.
Qed.

Lemma write_flush_refines_witness :
  let b := Bufio.BufWriter_new (Bufio.mkSink [9] [2]%nat true) 4 in
  exists r b',
    Bufio.write_then_flush 4 [1; 2; 3; 4; 5] b = Some (r, b')
    /\ settled b'
    /\ r = Throw WriterFailed
    /\ Bufio.delivered (Bufio.writer b') = [9; 1; 2].
Proof.
  intros b.
  destruct (write_flush_refines 4 [1; 2; 3; 4; 5] b) as (r & b' & Hw & Hs & _).
  - left. split; reflexivity.
  - discriminate.
  - cbn. lia.
  - exists r, b'. split; [exact Hw|]. split; [exact Hs|].
    vm_compute in Hw. injection Hw as <- <-. split; reflexivity.
Defined.

(** ** The BufReader of io/bufio.ts *)

Lemma held_cons (bf : list Z) (r w : nat) :
  (r < w <= length bf)%nat ->
  take (w - r) (drop r bf) = at_or_0 bf r :: take (w - S r) (drop (S r) bf).
Proof.
  intros H. destruct (lookup_lt_is_Some_2 bf r) as [x Hx]; [lia|].
  unfold at_or_0. rewrite Hx. cbn [default].
  rewrite (drop_S bf x r Hx). replace (w - r)%nat with (S (w - S r)) by lia. done.
Qed.

Lemma stream_nil (b : BufioReader.BufReader) :
  BufioReader.wf b ->
  BufioReader.stream b = [] ->
  BufioReader.r b = BufioReader.w b /\ BufioReader.rd b = [].
Proof.
  intros (Hrw & Hlen & Heof & Hne) Hs. unfold BufioReader.stream in Hs.
  apply app_eq_nil in Hs as [Hheld Hrd]. split.
  - apply (f_equal length) in Hheld. rewrite length_take, length_drop in Hheld.
    cbn in Hheld. lia.
  - destruct (BufioReader.rd b) as [|c cs]; [done|].
    apply Forall_cons in Hne as [Hc _]. cbn in Hrd. apply app_eq_nil in Hrd as [-> _]. done.
Qed.

(** What a read of the source into a buffer of [cap] bytes leaves. *)
Lemma Source_read_chunk (cap : nat) (c : list Z) (cs : BufioReader.Source) :
  (0 < cap)%nat ->
  Forall (fun c => c <> []) (c :: cs) ->
  let rd' := if decide (length c <= cap)%nat then cs else drop cap c :: cs in
  take cap c <> []
  /\ (length (take cap c) <= cap)%nat
  /\ c ++ concat cs = take cap c ++ concat rd'
  /\ Forall (fun c => c <> []) rd'.
Proof.
  intros Hcap Hne. apply Forall_cons in Hne as [Hc Hcs]. cbn zeta.
  split; [destruct c; [done|]; by destruct cap; [lia|]|].
  split; [rewrite length_take; lia|].
  case_decide as Hfit.
  - split; [by rewrite take_ge by lia|done].
  - split.
    + cbn [concat]. by rewrite app_assoc, take_drop.
    + apply Forall_cons. split; [|done]. intros Hd.
      apply (f_equal length) in Hd. rewrite length_drop in Hd. cbn in Hd. lia.
Qed.

Lemma list_inserts_front (got bf : list Z) :
  (length got <= length bf)%nat ->
  take (length got) (list_inserts 0 got bf) = got.
Proof.
  intros H. rewrite <- (take_drop (length got) bf) at 1.
  rewrite list_inserts_0_r by (rewrite length_take; lia).
  by rewrite take_app_length.
Qed.

Lemma fill_loop_S (i : nat) (b : BufioReader.BufReader) :
  BufioReader.fill_loop (S i) b
  = match BufioReader.Source_read (length (BufioReader.buf b) - BufioReader.w b)
                                  (BufioReader.rd b) with
    | (None, rd') =>
        (BufioReader.Ok tt,
         BufioReader.mkBufReader (BufioReader.buf b) rd' (BufioReader.r b) (BufioReader.w b) true)
    | (Some rr, rd') =>
        let b' := BufioReader.mkBufReader
                    (list_inserts (BufioReader.w b) rr (BufioReader.buf b)) rd'
                    (BufioReader.r b) (BufioReader.w b + length rr) (BufioReader.eof b) in
        if decide (0 < length rr)%nat then (BufioReader.Ok tt, b')
        else BufioReader.fill_loop i b'
    end.
Proof. reflexivity. Qed.

(** [_fill] on a reader that holds nothing and has not seen the end. *)
Lemma fill_empty (b : BufioReader.BufReader) :
  BufioReader.wf b ->
  BufioReader.r b = BufioReader.w b ->
  exists b',
    BufioReader._fill b = (BufioReader.Ok tt, b')
    /\ BufioReader.wf b'
    /\ BufioReader.stream b' = concat (BufioReader.rd b)
    /\ BufioReader.r b' = 0%nat
    /\ (BufioReader.rd b = [] -> BufioReader.eof b' = true /\ BufioReader.w b' = 0%nat)
    /\ (BufioReader.rd b <> [] -> (0 < BufioReader.w b')%nat).
Proof.
  intros (Hrw & Hlen & Heof & Hne) Heq.
  destruct b as [bf rd r w e]. cbn in *. subst w.
  unfold BufioReader._fill. cbn [BufioReader.r BufioReader.w BufioReader.buf BufioReader.rd
                                 BufioReader.eof].
  rewrite Nat.sub_diag, take_0, drop_0. cbn [app].
  assert ((if decide (0 < r)%nat then BufioReader.mkBufReader bf rd 0 0 e
           else BufioReader.mkBufReader bf rd r r e)
          = BufioReader.mkBufReader bf rd 0 0 e) as ->.
  { case_decide; [done|]. by replace r with 0%nat by lia. }
  cbn [BufioReader.r BufioReader.w BufioReader.buf]. rewrite decide_False by lia.
  change BufioReader.MAX_CONSECUTIVE_EMPTY_READS with (S 99). rewrite fill_loop_S.
  cbn [BufioReader.r BufioReader.w BufioReader.buf BufioReader.rd BufioReader.eof].
  rewrite Nat.sub_0_r. destruct rd as [|c cs]; cbn [BufioReader.Source_read].
  - eexists. split; [reflexivity|]. unfold BufioReader.wf, BufioReader.stream. cbn.
    repeat split; try done; lia.
  - destruct (Source_read_chunk (length bf) c cs Hlen Hne) as (Hgot & Hcap & Hcat & Hne').
    rewrite decide_True by (destruct (take (length bf) c); [done|cbn; lia]).
    eexists. split; [reflexivity|]. unfold BufioReader.wf, BufioReader.stream.
    cbn [BufioReader.r BufioReader.w BufioReader.buf BufioReader.rd BufioReader.eof].
    rewrite length_inserts, Nat.sub_0_r, drop_0, Nat.add_0_l.
    rewrite list_inserts_front by done.
    split; [split; [lia|]; split; [done|]; split; [|done]|].
    { intros He. by specialize (Heof He). }
    split; [cbn [concat]; by rewrite Hcat|]. split; [done|]. split; [done|].
    intros _. destruct (take (length bf) c); [done|cbn; lia].
Qed.

(** X28.  [readByte] of the BufReader hands out the bytes of the stream one
    by one: on a reader in order it ends within one turn of its loop and
    never throws, returns [null] exactly at the end of the stream and else
    the first byte still to come, and what is still to come afterwards is
    the rest.  This is the [readByte] of the frame decoder's reader. *)
Theorem readByte_refines (fuel : nat) (b : BufioReader.BufReader) :
  BufioReader.wf b ->
  (1 <= fuel)%nat ->
  exists res b',
    BufioReader.readByte fuel b = Some (res, b')
    /\ BufioReader.wf b'
    /\ match readByte (BufioReader.stream b) with
       | Got c rest => res = BufioReader.Ok (Some c) /\ BufioReader.stream b' = rest
       | Null => res = BufioReader.Ok None /\ BufioReader.stream b' = []
       | Thrown _ => False
       end.
Proof.
  intros Hwf Hfuel.
  assert (Hheld : forall b, BufioReader.wf b -> BufioReader.r b <> BufioReader.w b ->
            forall fuel, exists res b',
              BufioReader.readByte fuel b = Some (res, b')
              /\ BufioReader.wf b'
              /\ exists c, BufioReader.stream b = c :: BufioReader.stream b'
                           /\ res = BufioReader.Ok (Some c)).
  { clear. intros b (Hrw & Hlen & Heof & Hne) Hneq fuel.
    assert (BufioReader.readByte fuel b
            = Some (BufioReader.Ok (Some (at_or_0 (BufioReader.buf b) (BufioReader.r b))),
                    BufioReader.mkBufReader (BufioReader.buf b) (BufioReader.rd b)
                      (BufioReader.r b + 1) (BufioReader.w b) (BufioReader.eof b))) as ->.
    { destruct fuel; cbn [BufioReader.readByte]; by rewrite decide_False. }
    eexists _, _. split; [reflexivity|]. split.
    - unfold BufioReader.wf. cbn. repeat split; try done; lia.
    - eexists. split; [|reflexivity]. unfold BufioReader.stream. cbn.
      rewrite held_cons by lia. by rewrite Nat.add_1_r. }
  destruct (decide (BufioReader.r b = BufioReader.w b)) as [Heq|Hneq].
  2: { destruct (Hheld b Hwf Hneq fuel) as (res & b' & Hrb & Hwf' & c & Hs & ->).
       exists (BufioReader.Ok (Some c)), b'. split; [done|]. split; [done|]. by rewrite Hs. }
  destruct (BufioReader.eof b) eqn:He.
  { assert (BufioReader.readByte fuel b = Some (BufioReader.Ok None, b)) as ->.
    { destruct fuel; cbn [BufioReader.readByte]; by rewrite decide_True, He. }
    exists (BufioReader.Ok None), b. split; [done|]. split; [done|].
    destruct Hwf as (Hrw & Hlen & Heof & Hne). unfold BufioReader.stream.
    rewrite (Heof He), Heq, Nat.sub_diag, take_0. done. }
  destruct fuel as [|fuel]; [lia|]. cbn [BufioReader.readByte].
  rewrite decide_True, He by done.
  destruct (fill_empty b Hwf Heq) as (b1 & -> & Hwf1 & Hs1 & Hr1 & Hnil & Hcons).
  assert (BufioReader.stream b = BufioReader.stream b1) as ->.
  { rewrite Hs1. unfold BufioReader.stream. by rewrite Heq, Nat.sub_diag, take_0. }
  destruct (BufioReader.rd b) as [|c cs] eqn:Hrd.
  - destruct (Hnil eq_refl) as [He1 Hw1].
    assert (BufioReader.readByte fuel b1 = Some (BufioReader.Ok None, b1)) as ->.
    { destruct fuel; cbn [BufioReader.readByte]; by rewrite decide_True, He1 by lia. }
    exists (BufioReader.Ok None), b1. split; [done|]. split; [done|]. by rewrite Hs1.
  - assert (BufioReader.r b1 <> BufioReader.w b1) as Hneq1 by (specialize (Hcons ltac:(done)); lia).
    destruct (Hheld b1 Hwf1 Hneq1 fuel) as (res & b' & Hrb & Hwf' & x & Hs & ->).
    exists (BufioReader.Ok (Some x)), b'. split; [done|]. split; [done|]. by rewrite Hs.
Qed.

(** One [read] on a reader in order. *)
Lemma read_step (n : nat) (b : BufioReader.BufReader) :
  BufioReader.wf b ->
  (0 < n)%nat ->
  BufioReader.wf (BufioReader.read n b).2
  /\ match (BufioReader.read n b).1 with
     | None => BufioReader.stream b = [] /\ BufioReader.stream (BufioReader.read n b).2 = []
     | Some got =>
         got <> [] /\ (length got <= n)%nat
         /\ BufioReader.stream b = got ++ BufioReader.stream (BufioReader.read n b).2
     end.
Proof.
  intros (Hrw & Hlen & Heof & Hne) Hn.
  assert (Hcopy : forall bf rd r w e,
            (r < w <= length bf)%nat -> (e = true -> rd = []) ->
            Forall (fun c => c <> []) rd ->
            let copied := take n (take (w - r) (drop r bf)) in
            let b' := BufioReader.mkBufReader bf rd (r + length copied) w e in
            BufioReader.wf b'
            /\ copied <> [] /\ (length copied <= n)%nat
            /\ take (w - r) (drop r bf) ++ concat rd = copied ++ BufioReader.stream b').
  { clear -Hn. intros bf rd r w e Hrw He Hne.
    assert (Hl : length (take (w - r) (drop r bf)) = (w - r)%nat)
      by (rewrite length_take, length_drop; lia).
    cbn zeta. rewrite length_take, Hl.
    split; [unfold BufioReader.wf; cbn; repeat split; try done; lia|].
    split.
    { intros H0. apply (f_equal length) in H0. rewrite length_take, Hl in H0. cbn in H0. lia. }
    split; [lia|].
    unfold BufioReader.stream. cbn. rewrite app_assoc. f_equal.
    rewrite <- (take_drop (n `min` (w - r)) (take (w - r) (drop r bf))) at 1.
    f_equal.
    - rewrite !take_take. f_equal. lia.
    - rewrite skipn_firstn_comm, drop_drop. f_equal. lia. }
  destruct b as [bf rd r w e]. cbn in *.
  unfold BufioReader.read. cbn [BufioReader.r BufioReader.w BufioReader.buf BufioReader.rd
                                BufioReader.eof].
  rewrite decide_False by lia.
  destruct (decide (r = w)) as [->|Hneq].
  2: { destruct (Hcopy bf rd r w e) as (H1 & H2 & H3 & H4); [lia|done|done|].
       cbn [fst snd]. done. }
  rewrite ?Nat.sub_diag, ?take_0. cbn [app].
  destruct rd as [|c cs].
  { case_decide; cbn; unfold BufioReader.wf, BufioReader.stream; cbn;
      rewrite ?Nat.sub_diag, ?take_0; repeat split; try done; lia. }
  case_decide as Hbig.
  - (* large read, empty buffer *)
    cbn [BufioReader.Source_read fst snd].
    destruct (Source_read_chunk n c cs Hn Hne) as (Hgot & Hcap & Hcat & Hne').
    split.
    + unfold BufioReader.wf.
      cbn [BufioReader.r BufioReader.w BufioReader.buf BufioReader.rd BufioReader.eof].
      split; [lia|]. split; [done|]. split; [|done]. intros He. by specialize (Heof He).
    + split; [done|]. split; [done|]. unfold BufioReader.stream.
      cbn [BufioReader.r BufioReader.w BufioReader.buf BufioReader.rd BufioReader.eof].
      rewrite Nat.sub_diag, take_0. cbn [app concat]. done.
  - cbn [BufioReader.Source_read].
    destruct (Source_read_chunk (length bf) c cs Hlen Hne) as (Hgot & Hcap & Hcat & Hne').
    rewrite decide_False by (destruct (take (length bf) c); [done|cbn; lia]).
    set (got := take (length bf) c) in *.
    set (rd' := if decide (length c <= length bf)%nat then cs else drop (length bf) c :: cs) in *.
    destruct (Hcopy (list_inserts 0 got bf) rd' 0%nat (length got) e) as (H1 & H2 & H3 & H4).
    { rewrite length_inserts. split; [|done]. destruct got; [done|cbn; lia]. }
    { intros He. by specialize (Heof He). }
    { done. }
    cbn [fst snd BufioReader.r BufioReader.w BufioReader.buf BufioReader.rd BufioReader.eof].
    rewrite Nat.add_0_l in *. rewrite Nat.sub_0_r, drop_0 in *.
    split; [done|]. split; [done|]. split; [done|].
    unfold BufioReader.stream in *.
    cbn [BufioReader.r BufioReader.w BufioReader.buf BufioReader.rd BufioReader.eof] in *.
    rewrite <- H4, list_inserts_front by done. done.
Qed.

Lemma readFull_loop_ok (n fuel : nat) (acc : list Z) (b : BufioReader.BufReader) :
  BufioReader.wf b ->
  (length acc <= n)%nat ->
  (n - length acc <= fuel)%nat ->
  exists res b',
    BufioReader.readFull_loop fuel n acc b = Some (res, b')
    /\ BufioReader.wf b'
    /\ if decide (n - length acc <= length (BufioReader.stream b))%nat
       then res = BufioReader.Ok (Some (acc ++ take (n - length acc) (BufioReader.stream b)))
            /\ BufioReader.stream b' = drop (n - length acc) (BufioReader.stream b)
       else BufioReader.stream b' = []
            /\ res = if decide (length (acc ++ BufioReader.stream b) = 0%nat)
                     then BufioReader.Ok None
                     else BufioReader.Err (BufioReader.PartialRead (acc ++ BufioReader.stream b)).
Proof.
  revert acc b. induction fuel as [|fuel IH]; intros acc b Hwf Hacc Hfuel.
  - cbn [BufioReader.readFull_loop]. rewrite decide_False by lia.
    exists (BufioReader.Ok (Some acc)), b. split; [done|]. split; [done|].
    replace (n - length acc)%nat with 0%nat by lia.
    rewrite decide_True by lia. by rewrite take_0, drop_0, app_nil_r.
  - cbn [BufioReader.readFull_loop]. case_decide as Hless.
    2: { exists (BufioReader.Ok (Some acc)), b. split; [done|]. split; [done|].
         replace (n - length acc)%nat with 0%nat by lia.
         rewrite decide_True by lia. by rewrite take_0, drop_0, app_nil_r. }
    destruct (read_step (n - length acc) b Hwf) as [Hwf1 Hrr]; [lia|].
    destruct (BufioReader.read (n - length acc) b) as [[got|] b1]; cbn [fst snd] in *.
    + destruct Hrr as (Hgot & Hlen & Hs).
      assert (length got <> 0%nat) by (destruct got; cbn; [done|lia]).
      destruct (IH (acc ++ got) b1) as (res & b' & -> & Hwf' & Hres);
        [done|rewrite length_app; lia|rewrite length_app; lia|].
      exists res, b'. split; [done|]. split; [done|].
      rewrite length_app in Hres. rewrite Hs, length_app.
      destruct (decide (n - length acc <= length got + length (BufioReader.stream b1))%nat).
      * rewrite decide_True in Hres by lia. destruct Hres as [-> ->].
        replace (n - length acc)%nat with (length got + (n - (length acc + length got)))%nat by lia.
        rewrite take_app_add, drop_app_add, <- app_assoc. done.
      * rewrite decide_False in Hres by lia. destruct Hres as [-> ->].
        by rewrite <- !app_assoc.
    + destruct Hrr as [Hs Hs1]. rewrite Hs, app_nil_r. cbn [length].
      destruct (decide (length acc = 0%nat)); eexists _, b1; (split; [reflexivity|]);
        (split; [done|]); by rewrite decide_False by lia.
Qed.


Lemma BufReader_new_wf (rd : BufioReader.Source) (size : Z) :
  Forall (fun c => c <> []) rd ->
  BufioReader.wf (BufioReader.BufReader_new rd size)
  /\ BufioReader.stream (BufioReader.BufReader_new rd size) = concat rd.
Proof.
  intros Hne. unfold BufioReader.BufReader_new, BufioReader.wf, BufioReader.stream,
    BufioReader.MIN_BUF_SIZE.
  cbn [BufioReader.r BufioReader.w BufioReader.buf BufioReader.rd BufioReader.eof].
  rewrite length_replicate, take_0. repeat split; try done; try lia.
  case_decide; lia.
Qed.

(** A new BufReader reads what its source sends, whatever the size
    asked for and however the source cuts the bytes into chunks: reading
    [n] bytes gives the first [n] bytes of all chunks put together. *)
Theorem new_reader_reads_chunks (rd : BufioReader.Source) (size : Z) (n : nat) :
  Forall (fun c => c <> []) rd ->
  (n <= length (concat rd))%nat ->
  exists b',
    BufioReader.readFull n n (BufioReader.BufReader_new rd size)
    = Some (BufioReader.Ok (Some (take n (concat rd))), b')
    /\ BufioReader.stream b' = drop n (concat rd)
    /\ BufioReader.wf b'.
Proof.
  intros Hne Hn. destruct (BufReader_new_wf rd size Hne) as [Hwf Hs].
  unfold BufioReader.readFull.
  destruct (readFull_loop_ok n n [] _ Hwf) as (res & b' & Hloop & Hwf' & Hres);
    [cbn; lia|cbn; lia|].
  cbn [length app] in Hres. rewrite Nat.sub_0_r, Hs in Hres.
  rewrite decide_True in Hres by done. destruct Hres as [-> Hs'].
  exists b'. done.
Qed.

Lemma readByte_refines_witness :
  let b := BufioReader.mkBufReader [0; 0; 0; 0] [[7; 8]; [9]] 0 0 false in
  exists res b',
    BufioReader.readByte 1 b = Some (res, b')
    /\ res = BufioReader.Ok (Some 7)
    /\ BufioReader.stream b' = [8; 9].
Proof.
  intros b.
  destruct (readByte_refines 1 b) as (res & b' & H1 & _ & H2 & H3).
  - unfold BufioReader.wf. cbn. split; [lia|]. split; [lia|]. split; [done|].
    repeat constructor; done.
  - lia.
  - exists res, b'. split; [exact H1|]. split; [exact H2|exact H3].
Defined.


Lemma new_reader_reads_chunks_witness :
  exists b',
    BufioReader.readFull 3 3 (BufioReader.BufReader_new [[7; 8]; [9; 10]] 0)
    = Some (BufioReader.Ok (Some [7; 8; 9]), b')
    /\ BufioReader.stream b' = [10]
    /\ BufioReader.wf b'.
Proof.
  apply (new_reader_reads_chunks [[7; 8]; [9; 10]] 0 3).
  - repeat constructor; done.
  - cbn. lia.
Defined.

(** ** The chat server *)

Lemma dequeue_loop_isClosed (n : nat) (ws : WebSocketImpl) :
  _isClosed (dequeue_loop n ws) = _isClosed ws.
Proof.
  revert ws. induction n as [|n IH]; intros ws; cbn; [done|].
  destruct (sendQueue ws); [done|]. destruct (_isClosed ws) eqn:Hc; [done|].
  destruct (writeFrame _ _) as [r w]. by rewrite IH.
Qed.

Section ChatServer.

Variable encode : string -> list Z.

Lemma send_sync (data : WebSocketMessage) (ws : WebSocketImpl) :
  _isClosed (send encode data ws).2 = _isClosed ws
  /\ (if _isClosed ws then (send encode data ws).1 = Throw ConnectionReset
      else exists i, (send encode data ws).1 = Ret i).
Proof.
  unfold send, enqueue. destruct (_isClosed ws) eqn:Hc; [done|]. cbn [fst snd].
  split; [|by eexists]. case_decide; [|done]. unfold dequeue.
  by rewrite dequeue_loop_isClosed.
Qed.

Lemma is_open_insert (sockets : list WebSocketImpl) (user : nat) (ws ws' : WebSocketImpl) :
  sockets !! user = Some ws ->
  _isClosed ws' = _isClosed ws ->
  forall u, is_open (<[user := ws']> sockets) u = is_open sockets u.
Proof.
  intros Hu Hc u. unfold is_open. destruct (decide (user = u)) as [<-|Hne].
  - rewrite list_lookup_insert_eq by (by apply lookup_lt_Some in Hu). by rewrite Hu, Hc.
  - by rewrite list_lookup_insert_ne.
Qed.

Lemma broadcast_users (text : string) (users : list nat) (sockets : list WebSocketImpl) :
  (broadcast encode text users sockets).1 = List.filter (is_open sockets) users
  /\ length (broadcast encode text users sockets).2 = length sockets
  /\ forall u, is_open (broadcast encode text users sockets).2 u = is_open sockets u.
Proof.
  revert sockets. induction users as [|user users IH]; intros sockets; [done|].
  cbn [broadcast List.filter]. unfold is_open at 1.
  destruct (sockets !! user) as [ws|] eqn:Hu; [|apply IH].
  destruct (send_sync (MsgString text) ws) as [Hc Hr].
  destruct (send encode (MsgString text) ws) as [r ws'] eqn:Hs. cbn [fst snd] in *.
  destruct (IH (<[user := ws']> sockets)) as (IH1 & IH2 & IH3).
  pose proof (is_open_insert sockets user ws ws' Hu Hc) as Hopen.
  assert (List.filter (is_open (<[user := ws']> sockets)) users
          = List.filter (is_open sockets) users) as Hf.
  { clear -Hopen. induction users as [|u us IHu]; [done|]. cbn. by rewrite Hopen, IHu. }
  destruct (_isClosed ws).
  - rewrite Hr. cbn [negb]. rewrite IH1, IH2, length_insert, Hf. split; [done|]. split; [done|].
    intros u. by rewrite IH3, Hopen.
  - destruct Hr as [i ->]. cbn [negb].
    destruct (broadcast encode text users (<[user := ws']> sockets)) as [kept sockets'].
    cbn [fst snd] in *. rewrite IH1, IH2, length_insert, Hf. split; [done|]. split; [done|].
    intros u. by rewrite IH3, Hopen.
Qed.

Lemma broadcast_socket (text : string) (users : list nat) (sockets : list WebSocketImpl)
    (u : nat) (ws : WebSocketImpl) :
  sockets !! u = Some ws ->
  _isClosed ws = false ->
  sendQueue ws = [] ->
  broken (bufWriter ws) = false ->
  exists ws',
    (broadcast encode text users sockets).2 !! u = Some ws'
    /\ bufWriter ws'
       = mkWriter (out (bufWriter ws)
                   ++ concat (replicate (count_occ Nat.eq_dec users u)
                                (frame_wire (mkFrame true OpCode.TextFrame (sock_mask ws)
                                                     (encode text)))))
                  false
    /\ _isClosed ws' = false
    /\ sendQueue ws' = []
    /\ bufReader ws' = bufReader ws.
Proof.
  revert sockets ws. induction users as [|user users IH]; intros sockets ws Hu Hopen Hq Hw.
  - exists ws. cbn. rewrite app_nil_r. split; [done|]. split; [|done].
    destruct (bufWriter ws); cbn in *; congruence.
  - cbn [broadcast count_occ].
    destruct (sockets !! user) as [ws0|] eqn:Hu0.
    2: { destruct (Nat.eq_dec user u) as [->|Hne]; [congruence|]. by apply IH. }
    destruct (Nat.eq_dec user u) as [->|Hne].
    + assert (ws0 = ws) as -> by congruence.
      rewrite send_open by done. cbn [length].
      set (ws1 := mkSock _ _ _ _ _ _ _).
      destruct (IH (<[u := ws1]> sockets) ws1) as (ws' & H1 & H2 & H3 & H4 & H5);
        [apply list_lookup_insert_eq; by apply lookup_lt_Some in Hu|done..|].
      destruct (broadcast encode text users (<[u := ws1]> sockets)) as [kept sockets'].
      cbn [fst snd] in *. exists ws'. split; [done|]. split; [|done].
      rewrite H2. cbn [ws1 bufWriter out sock_mask message_frame replicate concat].
      by rewrite <- app_assoc.
    + assert (forall ws0', (<[user := ws0']> sockets) !! u = Some ws) as Hu'
        by (intros ws0'; by rewrite list_lookup_insert_ne).
      destruct (send encode (MsgString text) ws0) as [[i|e] ws0'].
      * destruct (IH (<[user := ws0']> sockets) ws (Hu' ws0') Hopen Hq Hw) as (ws' & H).
        destruct (broadcast encode text users (<[user := ws0']> sockets)) as [kept sockets'].
        by exists ws'.
      * by apply IH.
Qed.

(** X30.  A broadcast of the chat server keeps exactly the users whose
    socket is open, in their order, and no socket is opened or closed by
    it.  Every open socket with a working transport and nothing in flight
    has received the text as one text frame for each time it is in
    [users], and nothing else: closed sockets are dropped from [users]
    without a write being tried. *)
Theorem broadcast_reaches_open_sockets (text : string) (users : list nat)
    (sockets : list WebSocketImpl) :
  let users' := (broadcast encode text users sockets).1 in
  let sockets' := (broadcast encode text users sockets).2 in
  users' = List.filter (is_open sockets) users
  /\ (forall u, is_open sockets' u = is_open sockets u)
  /\ (forall u ws,
        sockets !! u = Some ws ->
        _isClosed ws = false -> sendQueue ws = [] -> broken (bufWriter ws) = false ->
        exists ws',
          sockets' !! u = Some ws'
          /\ out (bufWriter ws')
             = out (bufWriter ws)
               ++ concat (replicate (count_occ Nat.eq_dec users u)
                            (frame_wire (mkFrame true OpCode.TextFrame (sock_mask ws)
                                                 (encode text)))))
  /\ (forall u ws, sockets !! u = Some ws -> _isClosed ws = true -> sockets' !! u = Some ws).
Proof.
  cbn zeta. destruct (broadcast_users text users sockets) as (H1 & H2 & H3).
  split; [done|]. split; [done|]. split.
  - intros u ws Hu Hopen Hq Hw.
    destruct (broadcast_socket text users sockets u ws Hu Hopen Hq Hw) as (ws' & Hs & Hb & _).
    exists ws'. split; [done|]. by rewrite Hb.
  - clear. revert sockets. induction users as [|user users IH]; intros sockets u ws Hu Hc; [done|].
    cbn [broadcast]. destruct (sockets !! user) as [ws0|] eqn:Hu0; [|by apply IH].
    assert (exists ws0', (send encode (MsgString text) ws0).2 = ws0'
                         /\ (<[user := ws0']> sockets) !! u = Some ws) as (ws0' & Hs & Hu').
    { eexists. split; [reflexivity|]. destruct (decide (user = u)) as [->|Hne].
      - assert (ws0 = ws) as -> by congruence. unfold send. rewrite enqueue_closed by done.
        cbn. rewrite list_lookup_insert_eq by (by apply lookup_lt_Some in Hu). done.
      - by rewrite list_lookup_insert_ne. }
    destruct (send encode (MsgString text) ws0) as [[i|e] ws0'']; cbn [snd] in Hs; subst ws0''.
    + specialize (IH (<[user := ws0']> sockets) u ws Hu' Hc).
      by destruct (broadcast encode text users (<[user := ws0']> sockets)).
    + by apply IH.
Qed.

End ChatServer.

Lemma broadcast_reaches_open_sockets_witness :
  let a := mkSock false None [] (mkWriter [] false) [] false [] in
  let b := mkSock true None [] (mkWriter [] false) [] true [] in
  (broadcast utf8_encode "hi" [0; 1; 0]%nat [a; b]).1 = [0; 0]%nat
  /\ exists ws', (broadcast utf8_encode "hi" [0; 1; 0]%nat [a; b]).2 !! 0%nat = Some ws'
                 /\ out (bufWriter ws') = [0x81; 2; 104; 105; 0x81; 2; 104; 105].
Proof.
  intros a b.
  destruct (broadcast_reaches_open_sockets utf8_encode "hi" [0; 1; 0]%nat [a; b])
    as (H1 & _ & H3 & _).
  split; [exact H1|].
  destruct (H3 0%nat a eq_refl eq_refl eq_refl eq_refl) as (ws' & Hs & Ho).
  exists ws'. split; [exact Hs|exact Ho].
Defined.
